(** * go-org: the Org mode parser, embedded in Rocq

    A shallow embedding of the parse session ([Document]), the error
    collector (org/error.go), the inline parser (org/inline.go), the list
    and footnote block parsers and the top-level driver ([Parse],
    [tokenize], [parseOne], [parseMany], [addHeadline]).

    Go strings are byte sequences: they are modelled as [list ascii].
    Go [int]s that can become negative are [Z]; byte offsets into a
    string, which the code keeps non-negative, are [nat]. *)

From Stdlib Require Import ZArith Ascii String List Lia Bool.
From Stdlib Require Import Sorted.
From Stdlib Require DecimalString.
From stdpp Require Import base decidable option list strings gmap.

#[local] Set Warnings "-register-all".

#[local] Open Scope Z_scope.

(** ** Strings *)

Abbreviation gostring := (list ascii).

Definition str (s : string) : gostring := list_ascii_of_string s.

Arguments str : simpl never.

Definition byteZ (c : ascii) : Z := Z.of_nat (nat_of_ascii c).

(** [s[lo:hi]] for [lo <= hi <= len(s)]. *)
Definition slice (s : gostring) (lo hi : nat) : gostring :=
  take (hi - lo) (drop lo s).

(** [s[lo:]] *)
Definition sliceFrom (s : gostring) (lo : nat) : gostring := drop lo s.

Definition byte_eqb (a b : ascii) : bool := Ascii.eqb a b.

Fixpoint str_eqb (a b : gostring) : bool :=
  match a, b with
  | [], [] => true
  | x :: a', y :: b' => byte_eqb x y && str_eqb a' b'
  | _, _ => false
  end.

Fixpoint hasPrefix (s p : gostring) : bool :=
  match p, s with
  | [], _ => true
  | x :: p', y :: s' => byte_eqb x y && hasPrefix s' p'
  | _ :: _, [] => false
  end.

(** strings.HasSuffix *)
Definition HasSuffix (s p : gostring) : bool :=
  hasPrefix (rev s) (rev p).

(** strings.Index: byte offset of the first occurrence of [p] in [s], or -1. *)
Fixpoint IndexFrom (s p : gostring) (off : nat) : Z :=
  if hasPrefix s p then Z.of_nat off
  else match s with
       | [] => -1
       | _ :: s' => IndexFrom s' p (S off)
       end.

Definition Index (s p : gostring) : Z := IndexFrom s p 0.

(** strings.Repeat(" ", n) *)
Definition spaces (n : nat) : gostring := replicate n " "%char.

(** strings.ContainsRune(s, r) as the parser calls it: with an ASCII-only
    [s], where a rune outside ASCII is never found, or with an ASCII [r],
    which is looked up as a byte. *)
Definition ContainsRune (s : gostring) (r : Z) : bool :=
  (0 <=? r) && (r <? 128) && existsb (fun c => byteZ c =? r) s.

(** ** unicode/utf8, as far as the parser uses it *)

Module utf8.

Definition RuneError : Z := 65533.
Definition RuneSelf : Z := 128.
Definition UTFMax : nat := 4.

(** One entry of the package's [first] table: what a leading byte announces. *)
Inductive firstInfo :=
| fASCII
| fInvalid
| fLead (size : nat) (lo hi : Z).

Definition first (b : Z) : firstInfo :=
  if b <? 128 then fASCII
  else if b <? 194 then fInvalid
  else if b <? 224 then fLead 2 128 191
  else if b =? 224 then fLead 3 160 191
  else if b <? 237 then fLead 3 128 191
  else if b =? 237 then fLead 3 128 159
  else if b <? 240 then fLead 3 128 191
  else if b =? 240 then fLead 4 144 191
  else if b <? 244 then fLead 4 128 191
  else if b =? 244 then fLead 4 128 143
  else fInvalid.

Definition cont (b : Z) : bool := (128 <=? b) && (b <=? 191).

(** utf8.DecodeRuneInString: the rune and its width in bytes. *)
Definition DecodeRuneInString (s : gostring) : Z * nat :=
  match s with
  | [] => (RuneError, 0%nat)
  | c0 :: t =>
    let s0 := byteZ c0 in
    match first s0 with
    | fASCII => (s0, 1%nat)
    | fInvalid => (RuneError, 1%nat)
    | fLead sz lo hi =>
      if (length s <? sz)%nat then (RuneError, 1%nat) else
      match t with
      | [] => (RuneError, 1%nat)
      | c1 :: t1 =>
        let s1 := byteZ c1 in
        if (s1 <? lo) || (hi <? s1) then (RuneError, 1%nat) else
        if (sz <=? 2)%nat then
          (Z.lor (Z.shiftl (Z.land s0 31) 6) (Z.land s1 63), 2%nat)
        else
        match t1 with
        | [] => (RuneError, 1%nat)
        | c2 :: t2 =>
          let s2 := byteZ c2 in
          if negb (cont s2) then (RuneError, 1%nat) else
          if (sz <=? 3)%nat then
            (Z.lor (Z.lor (Z.shiftl (Z.land s0 15) 12)
                          (Z.shiftl (Z.land s1 63) 6)) (Z.land s2 63), 3%nat)
          else
          match t2 with
          | [] => (RuneError, 1%nat)
          | c3 :: _ =>
            let s3 := byteZ c3 in
            if negb (cont s3) then (RuneError, 1%nat) else
            (Z.lor (Z.lor (Z.lor (Z.shiftl (Z.land s0 7) 18)
                                 (Z.shiftl (Z.land s1 63) 12))
                          (Z.shiftl (Z.land s2 63) 6)) (Z.land s3 63), 4%nat)
          end
        end
      end
    end
  end.

(** utf8.RuneStart *)
Definition RuneStart (b : Z) : bool := negb (Z.land b 192 =? 128).

(** The backward scan of DecodeLastRuneInString: from [start], step down
    while [start >= lim] until a byte that can start a rune. [n] bounds the
    number of steps (at most UTFMax). *)
Fixpoint scanBack (s : gostring) (lim : Z) (start : Z) (n : nat) : Z :=
  match n with
  | O => start
  | S n' =>
    if start <? lim then start
    else match s !! Z.to_nat start with
         | Some c => if RuneStart (byteZ c) then start
                     else scanBack s lim (start - 1) n'
         | None => start
         end
  end.

(** utf8.DecodeLastRuneInString *)
Definition DecodeLastRuneInString (s : gostring) : Z * nat :=
  let e := Z.of_nat (length s) in
  if e =? 0 then (RuneError, 0%nat) else
  match s !! Z.to_nat (e - 1) with
  | None => (RuneError, 0%nat)
  | Some c =>
    let r := byteZ c in
    if r <? RuneSelf then (r, 1%nat) else
    let lim := Z.max 0 (e - Z.of_nat UTFMax) in
    let start := Z.max 0 (scanBack s lim (e - 2) UTFMax) in
    let '(r', size) := DecodeRuneInString (drop (Z.to_nat start) s) in
    if start + Z.of_nat size =? e then (r', size) else (RuneError, 1%nat)
  end.

End utf8.

(** ** unicode *)

Module unicode.

(** unicode.IsSpace *)
Definition IsSpace (r : Z) : bool :=
  if (0 <=? r) && (r <=? 255) then
    (r =? 9) || (r =? 10) || (r =? 11) || (r =? 12) || (r =? 13)
    || (r =? 32) || (r =? 133) || (r =? 160)
  else
    (r =? 5760) || ((8192 <=? r) && (r <=? 8202)) || (r =? 8232)
    || (r =? 8233) || (r =? 8239) || (r =? 8287) || (r =? 12288).

(** unicode.IsLetter on [rune(b)] for a byte [b], the only way the parser
    calls it: the letters of Latin-1. *)
Definition IsLetter (b : ascii) : bool :=
  let r := byteZ b in
  ((65 <=? r) && (r <=? 90)) || ((97 <=? r) && (r <=? 122))
  || (r =? 170) || (r =? 181) || (r =? 186)
  || ((192 <=? r) && (r <=? 214)) || ((216 <=? r) && (r <=? 246))
  || ((248 <=? r) && (r <=? 255)).

(** unicode.IsDigit on [rune(b)] for a byte [b]. *)
Definition IsDigit (b : ascii) : bool :=
  let r := byteZ b in (48 <=? r) && (r <=? 57).

End unicode.

(** ** Data model (document.go, inline.go, list.go, footnote.go, error.go) *)

Record Position := mkPosition {
  StartLine : Z;
  StartColumn : Z;
  EndLine : Z;
  EndColumn : Z
}.

Definition Position0 : Position := mkPosition 0 0 0 0.

Record token := mkToken {
  kind : gostring;
  lvl : Z;
  content : gostring;
  matches : list gostring;
  line : Z;
  startCol : Z;
  endCol : Z
}.

(** [token{}] *)
Definition token0 : token := mkToken [] 0 [] [] 0 0 0.

Definition nilToken : token := mkToken (str "nil") (-1) [] [] 0 0 0.

Inductive ListKind := UnorderedList | OrderedList | DescriptiveList.

#[export] Instance ListKind_eq_dec : EqDecision ListKind.
Proof. solve_decision. Defined.

(** The node variants whose types are declared in the files at hand. A
    node of a type declared elsewhere in the package (tables, blocks,
    keywords, ...) is [OtherNode]: the [Node] interface is open.
    A [nil] slice and an empty one are both the empty list (the code
    never builds an empty slice that is not [nil] for a field it compares
    with [nil]); the [Definition] pointer of a footnote link is an option,
    and so is an element of a slice of nodes that can hold a [nil] node. *)
Inductive Node :=
| Text (Content : gostring) (IsRaw : bool) (Pos : Position)
| LineBreak (Count : Z) (BetweenMultibyteCharacters : bool) (Pos : Position)
| ExplicitLineBreak (Pos : Position)
| StatisticToken (Content : gostring) (Pos : Position)
| Timestamp (Time : Z) (IsDate : bool) (Interval : gostring) (Pos : Position)
| Emphasis (Kind : gostring) (Content : list Node) (Pos : Position)
| InlineBlock (Name : gostring) (Parameters_ : list gostring)
              (Children : list Node) (Pos : Position)
| LatexFragment (OpeningPair ClosingPair : gostring) (Content : list Node)
                (Pos : Position)
| FootnoteLink (Name : gostring) (Definition_ : option FootnoteDefinition)
               (Pos : Position)
| RegularLink (Protocol : gostring) (Description : list Node)
              (URL : gostring) (AutoLink : bool) (Pos : Position)
| Macro (Name : gostring) (Parameters_ : list gostring) (Pos : Position)
| Paragraph (Children : list Node) (Pos : Position)
| FootnoteDefinitionNode (def : FootnoteDefinition)
| List (Kind : ListKind) (Items : list (option Node)) (Pos : Position)
| ListItem (Bullet Status Value : gostring) (Children : list (option Node))
           (Pos : Position)
| DescriptiveListItem (Bullet Status : gostring) (Term : list Node)
                      (Details : list (option Node)) (Pos : Position)
| OtherNode (tag : gostring) (Children : list Node) (Pos : Position)
with FootnoteDefinition :=
| mkFootnoteDefinition (Name : gostring) (Children : list Node)
                       (Inline : bool) (Pos : Position).

Definition fdInline (f : FootnoteDefinition) : bool :=
  match f with mkFootnoteDefinition _ _ i _ => i end.

Definition fdName (f : FootnoteDefinition) : gostring :=
  match f with mkFootnoteDefinition n _ _ _ => n end.

(** [type ErrorType string]: every string is a value of the type. The
    package declares eight constants of it; [AddError], [NewParseError] and
    a [ParseError] literal take any other value as well. *)
Definition ErrorType : Type := gostring.

Definition ErrorTypeInvalidSyntax : ErrorType := str "invalid_syntax".
Definition ErrorTypeUnexpectedToken : ErrorType := str "unexpected_token".
Definition ErrorTypeInvalidStructure : ErrorType := str "invalid_structure".
Definition ErrorTypeDuplicateNode : ErrorType := str "duplicate_node".
Definition ErrorTypeMissingNode : ErrorType := str "missing_node".
Definition ErrorTypeValidation : ErrorType := str "validation_error".
Definition ErrorTypeTokenization : ErrorType := str "tokenization_error".
Definition ErrorTypeIO : ErrorType := str "io_error".

(** The conversion [string(t)] of an [ErrorType]. *)
Definition ErrorType_string (t : ErrorType) : gostring := t.

(** A Go [error] value is kept as its message; [None] is [nil]. *)
Record ParseError := mkParseError {
  Type_ : ErrorType;
  Message : gostring;
  File : gostring;
  peStartLine : Z;
  peEndLine : Z;
  peStartCol : Z;
  peEndCol : Z;
  Token : token;
  Context : gostring;
  Cause : option gostring
}.

(** Modelled from the spec: the [Headline] type is declared outside the
    files at hand; a headline is "a titled, leveled heading" with optional
    tags. *)
Record Headline := mkHeadline {
  hLvl : Z;
  hTitle : list Node;
  hTags : list gostring
}.

(** Modelled from the spec: the [Section] type is declared outside the
    files at hand; "each Section wraps a Headline node plus nested child
    Sections". A [*Section] is an address into the session's section store,
    so that the two pointers of the [Outline] can alias. *)
Record Section_ := mkSection {
  sHeadline : option Headline;
  sChildren : list nat
}.

(** [Outline{Section, last, count}]: two [*Section] and the visible count. *)
Record Outline := mkOutline {
  oSection : nat;
  last : nat;
  count : Z
}.

(** The [Log] and [ReadFile] capabilities are left out: none of the code
    embedded here calls them. [ResolveLink] is a callback the caller
    supplies: it yields a node, or panics ([None]). *)
Record Configuration := mkConfiguration {
  MaxEmphasisNewLines : Z;
  AutoLink : bool;
  DefaultSettings : gmap gostring gostring;
  ResolveLink : gostring -> list Node -> gostring -> option Node
}.

(** The parse session. [tokens] and [Nodes] are slices the code compares
    with [nil]: [None] is the nil slice. [sections] is the store the
    [*Section] addresses point into. [FatalError] is the field error.go
    reads and writes. *)
Record Document := mkDocument {
  Config : Configuration;
  Path : gostring;
  tokens : option (list token);
  baseLvl : Z;
  Macros : gmap gostring gostring;
  Links : gmap gostring gostring;
  Nodes : option (list Node);
  NamedNodes : gmap gostring Node;
  Outline_ : Outline;
  sections : list Section_;
  BufferSettings : gmap gostring gostring;
  Errors : list ParseError;
  DPos : Position;
  FatalError : option ParseError
}.

Definition toks (d : Document) : list token := default [] (tokens d).

Definition set_tokens (d : Document) (t : option (list token)) : Document :=
  mkDocument (Config d) (Path d) t (baseLvl d) (Macros d) (Links d) (Nodes d)
    (NamedNodes d) (Outline_ d) (sections d) (BufferSettings d) (Errors d)
    (DPos d) (FatalError d).

Definition set_baseLvl (d : Document) (b : Z) : Document :=
  mkDocument (Config d) (Path d) (tokens d) b (Macros d) (Links d) (Nodes d)
    (NamedNodes d) (Outline_ d) (sections d) (BufferSettings d) (Errors d)
    (DPos d) (FatalError d).

Definition set_Nodes (d : Document) (n : option (list Node)) : Document :=
  mkDocument (Config d) (Path d) (tokens d) (baseLvl d) (Macros d) (Links d) n
    (NamedNodes d) (Outline_ d) (sections d) (BufferSettings d) (Errors d)
    (DPos d) (FatalError d).

Definition set_Errors (d : Document) (e : list ParseError) : Document :=
  mkDocument (Config d) (Path d) (tokens d) (baseLvl d) (Macros d) (Links d)
    (Nodes d) (NamedNodes d) (Outline_ d) (sections d) (BufferSettings d) e
    (DPos d) (FatalError d).

Definition set_FatalError (d : Document) (e : option ParseError) : Document :=
  mkDocument (Config d) (Path d) (tokens d) (baseLvl d) (Macros d) (Links d)
    (Nodes d) (NamedNodes d) (Outline_ d) (sections d) (BufferSettings d)
    (Errors d) (DPos d) e.

Definition set_Outline (d : Document) (o : Outline) (ss : list Section_)
  : Document :=
  mkDocument (Config d) (Path d) (tokens d) (baseLvl d) (Macros d) (Links d)
    (Nodes d) (NamedNodes d) o ss (BufferSettings d) (Errors d)
    (DPos d) (FatalError d).

(** [d.tokens[i]] for a Go [int] index: [None] is the run-time panic. *)
Definition tokAt (d : Document) (i : Z) : option token :=
  if i <? 0 then None else toks d !! Z.to_nat i.

(** [d.tokens[i] = t], for an index already known to be in range. *)
Definition setTok (d : Document) (i : Z) (t : token) : Document :=
  set_tokens d (Some (<[Z.to_nat i := t]> (toks d))).

Definition ntokens (d : Document) : Z := Z.of_nat (length (toks d)).

(** ** The error collector (org/error.go) *)

Definition NewParseError (typ : ErrorType) (message file : gostring)
    (pos : Position) (tok : token) (cause : option gostring) : ParseError :=
  mkParseError typ message file (StartLine pos) (EndLine pos)
    (StartColumn pos) (EndColumn pos) tok [] cause.

Definition AddError (d : Document) (typ : ErrorType) (message : gostring)
    (pos : Position) (tok : token) (cause : option gostring) : Document :=
  let err := NewParseError typ message (Path d) pos tok cause in
  set_Errors d (Errors d ++ [err]).

Definition HasErrors (d : Document) : bool :=
  (0 <? length (Errors d))%nat.

Definition HasFatalError (d : Document) : bool :=
  match FatalError d with Some _ => true | None => false end.

Definition AddFatalError (d : Document) (typ : ErrorType) (message : gostring)
    (pos : Position) (tok : token) (cause : option gostring) : Document :=
  let err := NewParseError typ message (Path d) pos tok cause in
  let d := set_FatalError d (Some err) in
  set_Errors d (Errors d ++ [err]).

Definition ErrorCount (d : Document) : Z := Z.of_nat (length (Errors d)).

Definition GetErrorByType (d : Document) (typ : ErrorType) : list ParseError :=
  filter (fun e => Type_ e = typ) (Errors d).

Definition getPositionFromToken (tok : token) : Position :=
  mkPosition (line tok) (startCol tok) (line tok) (endCol tok).

(** [Document.Get] *)
Definition Get (d : Document) (key : gostring) : gostring :=
  match BufferSettings d !! key with
  | Some v => v
  | None => match DefaultSettings (Config d) !! key with
            | Some v => v
            | None => []
            end
  end.

(** ** The inline parser (org/inline.go) *)

Definition nl : ascii := "010"%char.

Fixpoint calculatePosition_loop (input : gostring) (n : nat) (line col : Z)
  : Z * Z :=
  match n, input with
  | S n', c :: input' =>
    if byte_eqb c nl then calculatePosition_loop input' n' (line + 1) 1
    else calculatePosition_loop input' n' line (col + 1)
  | _, _ => (line, col)
  end.

Definition calculatePosition (input : gostring) (startLine startColumn : Z)
    (charOffset : nat) : Position :=
  let '(line, col) :=
    calculatePosition_loop input charOffset startLine startColumn in
  mkPosition line col line col.

Definition positionFromChars (input : gostring) (startLine startColumn : Z)
    (startOffset endOffset : nat) : Position :=
  let start := calculatePosition input startLine startColumn startOffset in
  let end_ := calculatePosition input startLine startColumn endOffset in
  mkPosition (StartLine start) (StartColumn start)
             (StartLine end_) (StartColumn end_).

(** The [for ; i < len(input) && input[i] == '\n'; i++] scan: how many
    newlines the string starts with. *)
Fixpoint newlineRun (s : gostring) : nat :=
  match s with
  | c :: s' => if byte_eqb c nl then S (newlineRun s') else O
  | [] => O
  end.

Definition parseLineBreakWithPos (input : gostring) (start : nat)
    (startLine startColumn : Z) : nat * Node :=
  let i := (start + newlineRun (drop start input))%nat in
  let beforeLen := snd (utf8.DecodeLastRuneInString (take start input)) in
  let afterLen := snd (utf8.DecodeRuneInString (drop i input)) in
  let consumed := (i - start)%nat in
  let pos :=
    positionFromChars input startLine startColumn start (start + consumed) in
  (consumed,
   LineBreak (Z.of_nat consumed)
             ((1 <? beforeLen)%nat && (1 <? afterLen)%nat) pos).

(** The text node the loops emit for [input[previous:current]]. *)
Definition textBetween (input : gostring) (startLine startColumn : Z)
    (previous current : nat) (isRaw : bool) : Node :=
  Text (slice input previous current) isRaw
       (positionFromChars input startLine startColumn previous current).

(** The result of a computation that does not change the session: a
    value, a run-time panic, or, which is not a behaviour of the Go code,
    the bound given to the model being too small. *)
Inductive Result (A : Type) :=
| ROk (a : A)
| RPanic (msg : gostring)
| ROutOfFuel.

Arguments ROk {A} a.
Arguments RPanic {A} msg.
Arguments ROutOfFuel {A}.

#[export] Instance Result_ret : MRet Result := @ROk.
#[export] Instance Result_bind : MBind Result := fun A B k m =>
  match m with
  | ROk a => k a
  | RPanic msg => RPanic msg
  | ROutOfFuel => ROutOfFuel
  end.

(** The text of Go's run-time error, without the index and the length. *)
Definition indexOutOfRange : gostring :=
  str "runtime error: index out of range".

(** [input[i]] *)
Definition byteAt (input : gostring) (i : nat) : Result ascii :=
  match input !! i with
  | Some c => ROk c
  | None => RPanic indexOutOfRange
  end.

(** A call of the [ResolveLink] callback of the configuration. *)
Definition callResolveLink (r : option Node) : Result Node :=
  match r with
  | Some n => ROk n
  | None => RPanic (str "panic in ResolveLink")
  end.

(** The loop of parseRawInlineWithPos. The Go loop carries no bound;
    [steps] makes the recursion structural; [ROutOfFuel] means it ran out. *)
Fixpoint parseRawInline_loop (steps : nat) (input : gostring)
    (startLine startColumn : Z) (previous current : nat) (nodes : list Node)
  : Result (list Node) :=
  if (current <? length input)%nat then
    match steps with
    | O => ROutOfFuel
    | S steps' =>
      match input !! current with
      | Some c =>
        if byte_eqb c nl then
          let '(consumed, node) :=
            parseLineBreakWithPos input current startLine startColumn in
          let nodes :=
            if (previous <? current)%nat
            then nodes ++ [textBetween input startLine startColumn
                                       previous current true]
            else nodes in
          let nodes := nodes ++ [node] in
          parseRawInline_loop steps' input startLine startColumn
            (current + consumed) (current + consumed) nodes
        else
          parseRawInline_loop steps' input startLine startColumn
            previous (S current) nodes
      | None => RPanic indexOutOfRange
      end
    end
  else
    ROk (if (previous <? length input)%nat
          then nodes ++ [textBetween input startLine startColumn
                                     previous (length input) true]
          else nodes).

Definition parseRawInlineWithPos (input : gostring) (startLine startColumn : Z)
  : Result (list Node) :=
  parseRawInline_loop (length input) input startLine startColumn 0 0 [].

Definition parseRawInline (input : gostring) : Result (list Node) :=
  parseRawInlineWithPos input 0 0.

(** Compiled patterns of Go's [regexp] package and calls into [strings]
    and [time] that the inline parser uses and on which no property below
    depends. A pattern is given by its [FindStringSubmatch]. *)
Record Externals := mkExternals {
  subScriptSuperScriptRegexp : gostring -> option (list gostring);
  timestampRegexp : gostring -> option (list gostring);
  statisticsTokenRegexp : gostring -> option (list gostring);
  latexFragmentRegexp : gostring -> option (list gostring);
  inlineBlockRegexp : gostring -> option (list gostring);
  inlineExportBlockRegexp : gostring -> option (list gostring);
  macroRegexp : gostring -> option (list gostring);
  time_Parse : gostring -> gostring -> option Z;
  strings_Fields : gostring -> list gostring;
  strings_TrimSpace : gostring -> gostring
}.

(** [m[k]] of a submatch slice. *)
Definition sub (m : list gostring) (k : nat) : gostring := nth k m [].

Definition dquote : ascii := "034"%char.

Definition validURLCharacters : gostring :=
  str "ABCDEFGHIJKLMNOPQRSTUVWXYZabcdefghijklmnopqrstuvwxyz0123456789-._~:/?#[]@!$&'()*+,;=".

(** [autolinkProtocols], the pattern "^(https?|ftp|file)$": it matches
    exactly the four scheme names, and group 1 is the whole match. *)
Definition autolinkProtocols (s : gostring) : option (list gostring) :=
  if str_eqb s (str "http") || str_eqb s (str "https")
     || str_eqb s (str "ftp") || str_eqb s (str "file")
  then Some [s; s] else None.

(** A byte of the class [\w]. *)
Definition isWordByte (c : ascii) : bool :=
  unicode.IsDigit c || byte_eqb c "_"%char ||
  (let r := byteZ c in
   ((65 <=? r) && (r <=? 90)) || ((97 <=? r) && (r <=? 122))).

Fixpoint nameRun (s : gostring) : nat :=
  match s with
  | c :: s' => if isWordByte c || byte_eqb c "-"%char
               then S (nameRun s') else O
  | [] => O
  end.

(** Offset of the first "]" of [s], if no newline comes before it. *)
Fixpoint closingBracket (s : gostring) : option nat :=
  match s with
  | [] => None
  | c :: s' =>
    if byte_eqb c "]"%char then Some O
    else if byte_eqb c nl then None
    else S <$> closingBracket s'
  end.

(** [footnoteRegexp], the pattern "^\[fn:([\w-]*?)(:(.*?))?\]", by its
    FindStringSubmatch. The lazy name group can only end where the next
    byte is ":" or "]", neither of which is a name byte, so it is the whole
    run of name bytes. After ":" the lazy [.*?] runs to the first "]" and
    may not cross a newline. An unmatched group is the empty string. *)
Definition footnoteRegexp (s : gostring) : option (list gostring) :=
  if hasPrefix s (str "[fn:") then
    let r := drop 4 s in
    let n := nameRun r in
    let name := take n r in
    match drop n r with
    | c :: r' =>
      if byte_eqb c "]"%char then Some [take (5 + n) s; name; []; []]
      else if byte_eqb c ":"%char then
        match closingBracket r' with
        | Some k => Some [take (6 + n + k) s; name; c :: take k r'; take k r']
        | None => None
        end
      else None
    | [] => None
    end
  else None.

(** [latexFragmentPairs]; a key that is absent yields the empty string. *)
Definition latexFragmentPairs (openingPair : gostring) : gostring :=
  if str_eqb openingPair (str "\(") then str "\)"
  else if str_eqb openingPair (str "\[") then str "\]"
  else if str_eqb openingPair (str "$$") then str "$$"
  else if str_eqb openingPair (str "$") then str "$"
  else [].

Definition timestampFormat : gostring := str "2006-01-02 Mon 15:04".

(** strings.Split(s, sep) for a non-empty [sep]. [skip] counts the bytes
    of a separator just found that are still to be passed over. *)
Fixpoint Split_loop (s sep : gostring) (skip : nat) (cur : gostring)
  : list gostring :=
  match s with
  | [] => [rev cur]
  | c :: s' =>
    match skip with
    | S k => Split_loop s' sep k cur
    | O => if hasPrefix s sep
           then rev cur :: Split_loop s' sep (length sep - 1) []
           else Split_loop s' sep O (c :: cur)
    end
  end.

Definition Split (s sep : gostring) : list gostring := Split_loop s sep 0 [].

(** strings.SplitN(s, sep, 2) for a non-empty [sep]. *)
Definition SplitN2 (s sep : gostring) : list gostring :=
  let i := Index s sep in
  if i <? 0 then [s]
  else [take (Z.to_nat i) s; drop (Z.to_nat i + length sep) s].

(** *** Emphasis border rules (org-emphasis-regexp-components) *)

Definition prevRune (input : gostring) (i : nat) : Z :=
  fst (utf8.DecodeLastRuneInString (take i input)).

Definition nextRune (input : gostring) (i : nat) : Z :=
  let c := snd (utf8.DecodeRuneInString (drop i input)) in
  fst (utf8.DecodeRuneInString (drop (i + c) input)).

Definition preChars : gostring := str "-({'" ++ [dquote].

Definition postChars : gostring := str "-.,:!?;'" ++ [dquote] ++ str ")}[\".

Definition isValidPreChar (r : Z) : bool :=
  (r =? utf8.RuneError) || unicode.IsSpace r || ContainsRune preChars r.

Definition isValidPostChar (r : Z) : bool :=
  (r =? utf8.RuneError) || unicode.IsSpace r || ContainsRune postChars r.

Definition isValidBorderChar (r : Z) : bool := negb (unicode.IsSpace r).

Definition hasValidPreAndBorderChars (input : gostring) (i : nat) : bool :=
  isValidBorderChar (nextRune input i) && isValidPreChar (prevRune input i).

Definition hasValidPostAndBorderChars (input : gostring) (i : nat) : bool :=
  isValidPostChar (nextRune input i) && isValidBorderChar (prevRune input i).

(** The search loop of parseEmphasisWithPos, on [rest = input[i:]]:
    the index of the closing marker, if the loop finds one. *)
Fixpoint parseEmphasis_loop (maxNewLines : Z) (input : gostring) (start : nat)
    (marker : ascii) (rest : gostring) (i : nat) (consumedNewLines : Z)
  : option nat :=
  match rest with
  | [] => None
  | c :: rest' =>
    if consumedNewLines <=? maxNewLines then
      let consumedNewLines :=
        if byte_eqb c nl then consumedNewLines + 1 else consumedNewLines in
      if byte_eqb c marker && negb (i =? start + 1)%nat
         && hasValidPostAndBorderChars input i
      then Some i
      else parseEmphasis_loop maxNewLines input start marker rest' (S i)
             consumedNewLines
    else None
  end.

(** Length of the run of valid URL bytes at the head of [s]. *)
Fixpoint urlRun (s : gostring) : nat :=
  match s with
  | c :: s' => if ContainsRune validURLCharacters (byteZ c)
               then S (urlRun s') else O
  | [] => O
  end.

(** The backward scan of parseAutoLinkWithPos:
    [for ; protocolStart > 0; protocolStart-- { if !IsLetter(..) {
    protocolStart++; break } }]. *)
Fixpoint protocolStart_loop (input : gostring) (protocolStart : nat) : nat :=
  match protocolStart with
  | O => O
  | S p' =>
    match input !! protocolStart with
    | Some c => if negb (unicode.IsLetter c) then S protocolStart
                else protocolStart_loop input p'
    | None => protocolStart
    end
  end.

(** The whitespace scan of an explicit line break, on [rest = input[i:]]. *)
Fixpoint explicitLineBreak_loop (rest : gostring) (i : nat) : option nat :=
  match rest with
  | c :: rest' =>
    if unicode.IsSpace (byteZ c) then
      if byte_eqb c nl then Some i else explicitLineBreak_loop rest' (S i)
    else None
  | [] => None
  end.

Section Scanners.

Variable X : Externals.
Variable d : Document.
(** The recursive call to parseInlineWithPos. *)
Variable parseInline_rec : gostring -> Z -> Z -> Result (list Node).

Definition noMatch : Result (nat * option Node) := ROk (O, None).
Definition noMatch3 : Result (nat * nat * option Node) := ROk (O, O, None).

Definition parseInlineBlockWithPos (input : gostring) (start : nat)
    (startLine startColumn : Z) : Result (nat * nat * option Node) :=
  if negb (HasSuffix (take start input) (str "src")
           && ((start <? 4)%nat
               || match input !! (start - 4)%nat with
                  | Some c => unicode.IsSpace (byteZ c)
                  | None => false
                  end))
  then noMatch3 else
  match inlineBlockRegexp X (drop (start - 3) input) with
  | Some m =>
    let consumed := length (sub m 0) in
    let pos := positionFromChars input startLine startColumn
                 (start - 3) (start + consumed) in
    children ← parseRawInline (sub m 4);
    ROk (3%nat, consumed,
          Some (InlineBlock (str "src")
                  (strings_Fields X (sub m 1 ++ str " " ++ sub m 3))
                  children pos))
  | None => noMatch3
  end.

Definition parseInlineExportBlockWithPos (input : gostring) (start : nat)
    (startLine startColumn : Z) : Result (nat * option Node) :=
  match inlineExportBlockRegexp X (drop start input) with
  | Some m =>
    let consumed := length (sub m 0) in
    let pos := positionFromChars input startLine startColumn
                 start (start + consumed) in
    children ← parseRawInline (sub m 2);
    ROk (consumed, Some (InlineBlock (str "export") (take 1 (drop 1 m))
                            children pos))
  | None => noMatch
  end.

Definition parseLatexFragmentWithPos (input : gostring) (start : nat)
    (pairLength : nat) (startLine startColumn : Z)
  : Result (nat * option Node) :=
  if (length input <=? start + 2)%nat then noMatch else
  let pairLength :=
    if (pairLength =? 1)%nat && str_eqb (slice input start (start + 2)) (str "$$")
    then 2%nat else pairLength in
  let openingPair := slice input start (start + pairLength) in
  let closingPair := latexFragmentPairs openingPair in
  let i := Index (drop (start + pairLength) input) closingPair in
  if i =? -1 then noMatch else
  let i := Z.to_nat i in
  content ← parseRawInline
              (slice input (start + pairLength) (start + pairLength + i));
  let consumed := (i + pairLength + pairLength)%nat in
  let pos := positionFromChars input startLine startColumn
               start (start + consumed) in
  ROk (consumed, Some (LatexFragment openingPair closingPair content pos)).

Definition parseExplicitLineBreakOrLatexFragmentWithPos (input : gostring)
    (start : nat) (startLine startColumn : Z) : Result (nat * option Node) :=
  if (length input <=? start + 2)%nat then noMatch
  else
    let next := default "000"%char (input !! S start) in
    if byte_eqb next "\"%char && negb (start =? 0)%nat
       && negb (byte_eqb (default "000"%char (input !! (start - 1)%nat)) nl)
    then
      match explicitLineBreak_loop (drop (start + 2) input) (start + 2) with
      | Some i =>
        let consumed := (i + 1 - start)%nat in
        let pos := positionFromChars input startLine startColumn
                     start (start + consumed) in
        ROk (consumed, Some (ExplicitLineBreak pos))
      | None => noMatch
      end
    else if byte_eqb next "("%char || byte_eqb next "["%char then
      parseLatexFragmentWithPos input start 2 startLine startColumn
    else if Index (drop start input) (str "\begin{") =? 0 then
      match latexFragmentRegexp X (drop start input) with
      | Some m =>
        let '(open, content, close) := (sub m 1, sub m 2, sub m 3) in
        if str_eqb open close then
          let openingPair := str "\begin{" ++ open ++ str "}" in
          let closingPair := str "\end{" ++ close ++ str "}" in
          let i := Index (drop start input) closingPair in
          let consumed := Z.to_nat (i + Z.of_nat (length closingPair)) in
          let pos := positionFromChars input startLine startColumn
                       start (start + consumed) in
          content ← parseRawInline content;
          ROk (consumed,
                Some (LatexFragment openingPair closingPair content pos))
        else noMatch
      | None => noMatch
      end
    else noMatch.

Definition parseSubOrSuperScriptWithPos (input : gostring) (start : nat)
    (startLine startColumn : Z) : Result (nat * option Node) :=
  match subScriptSuperScriptRegexp X (drop start input) with
  | Some m =>
    let consumed := (length (sub m 2) + 3)%nat in
    let pos := positionFromChars input startLine startColumn
                 start (start + consumed) in
    let contentPos := positionFromChars input startLine startColumn
                        (start + 2) (start + 2 + length (sub m 2)) in
    let content := [Text (sub m 2) false contentPos] in
    ROk (consumed, Some (Emphasis (sub m 1 ++ str "{}") content pos))
  | None => noMatch
  end.

Definition parseEmphasisWithPos (input : gostring) (start : nat)
    (isRaw : bool) (startLine startColumn : Z) : Result (nat * option Node) :=
  let marker := default "000"%char (input !! start) in
  if negb (hasValidPreAndBorderChars input start) then noMatch else
  match parseEmphasis_loop (MaxEmphasisNewLines (Config d)) input start marker
          (drop (start + 1) input) (start + 1) 0 with
  | Some i =>
    content ← (if isRaw then parseRawInline (slice input (start + 1) i)
               else parseInline_rec (slice input (start + 1) i) startLine
                      (startColumn + Z.of_nat start + 1));
    let pos := positionFromChars input startLine startColumn start (i + 1) in
    ROk ((i + 1 - start)%nat,
          Some (Emphasis (slice input start (start + 1)) content pos))
  | None => noMatch
  end.

Definition parseSubScriptOrEmphasisOrInlineBlockWithPos (input : gostring)
    (start : nat) (startLine startColumn : Z)
  : Result (nat * nat * option Node) :=
  '(rewind, consumed, node) ←
    parseInlineBlockWithPos input start startLine startColumn;
  if negb (consumed =? 0)%nat then ROk (rewind, consumed, node) else
  '(consumed, node) ←
    parseSubOrSuperScriptWithPos input start startLine startColumn;
  if negb (consumed =? 0)%nat then ROk (O, consumed, node) else
  '(consumed, node) ←
    parseEmphasisWithPos input start false startLine startColumn;
  ROk (O, consumed, node).

Definition parseMacroWithPos (input : gostring) (start : nat)
    (startLine startColumn : Z) : Result (nat * option Node) :=
  match macroRegexp X (drop start input) with
  | Some m =>
    let consumed := length (sub m 0) in
    let pos := positionFromChars input startLine startColumn
                 start (start + consumed) in
    ROk (consumed, Some (Macro (sub m 1) (Split (sub m 2) (str ",")) pos))
  | None => noMatch
  end.

Definition parseFootnoteReferenceWithPos (input : gostring) (start : nat)
    (startLine startColumn : Z) : Result (nat * option Node) :=
  match footnoteRegexp (drop start input) with
  | Some m =>
    let '(name, definition) := (sub m 1, sub m 3) in
    if str_eqb name [] && str_eqb definition [] then noMatch else
    link_Definition ←
      (if negb (str_eqb definition []) then
         children ← parseInline_rec definition startLine
                      (startColumn + Z.of_nat start
                       + Z.of_nat (length name) + 5);
         ROk (Some (mkFootnoteDefinition name
                       [Paragraph children Position0] true Position0))
       else ROk None);
    let consumed := length (sub m 0) in
    let pos := positionFromChars input startLine startColumn
                 start (start + consumed) in
    ROk (consumed, Some (FootnoteLink name link_Definition pos))
  | None => noMatch
  end.

Definition parseStatisticTokenWithPos (input : gostring) (start : nat)
    (startLine startColumn : Z) : Result (nat * option Node) :=
  match statisticsTokenRegexp X (drop start input) with
  | Some m =>
    let consumed := (length (sub m 1) + 2)%nat in
    let pos := positionFromChars input startLine startColumn
                 start (start + consumed) in
    ROk (consumed, Some (StatisticToken (sub m 1) pos))
  | None => noMatch
  end.

Definition parseAutoLinkWithPos (input : gostring) (start : nat)
    (startLine startColumn : Z) : Result (nat * nat * option Node) :=
  if negb (AutoLink (Config d)) || (start =? 0)%nat
     || (length (drop start input) <? 3)%nat
     || negb (str_eqb (slice input start (start + 3)) (str "://"))
  then noMatch3 else
  let protocolStart := protocolStart_loop input (start - 1) in
  match autolinkProtocols (slice input protocolStart start) with
  | None => noMatch3
  | Some m =>
    let protocol := sub m 1 in
    let end_ := (start + urlRun (drop start input))%nat in
    let path := slice input start end_ in
    if str_eqb path (str "://") then noMatch3 else
    let pos := positionFromChars input startLine startColumn
                 (start - length protocol) (start + length path) in
    let rl := RegularLink protocol [] (protocol ++ path) true pos in
    ROk (length protocol, length (path ++ protocol), Some rl)
  end.

Definition parseAutoLink (input : gostring) (start : nat)
  : Result (nat * nat * option Node) :=
  parseAutoLinkWithPos input start 0 0.

Definition parseRegularLinkWithPos (input0 : gostring) (start : nat)
    (startLine startColumn : Z) : Result (nat * option Node) :=
  let input := drop start input0 in
  if (length input <? 3)%nat || negb (str_eqb (take 2 input) (str "[["))
     || byte_eqb (default "000"%char (input !! 2%nat)) "["%char
  then noMatch else
  let end_ := Index input (str "]]") in
  if end_ =? -1 then noMatch else
  let end_ := Z.to_nat end_ in
  let rawLinkParts := Split (slice input 2 end_) (str "][") in
  let link := sub rawLinkParts 0 in
  description ←
    (if (length rawLinkParts =? 2)%nat
     then parseInline_rec (sub rawLinkParts 1) startLine
            (startColumn + Z.of_nat start + 2)
     else ROk []);
  if ContainsRune link 10 then noMatch else
  let consumed := (end_ + 2)%nat in
  let linkParts := SplitN2 link (str ":") in
  let protocol :=
    if (length linkParts =? 2)%nat then sub linkParts 0 else [] in
  let pos := positionFromChars input startLine startColumn
               start (start + consumed) in
  linkNode ← callResolveLink (ResolveLink (Config d) protocol description link);
  match linkNode with
  | RegularLink p ds u a _ => ROk (consumed, Some (RegularLink p ds u a pos))
  | _ => ROk (consumed, Some linkNode)
  end.

Definition parseTimestampWithPos (input : gostring) (start : nat)
    (startLine startColumn : Z) : Result (nat * option Node) :=
  match timestampRegexp X (drop start input) with
  | Some m =>
    let '(ddmmyy, hhmm, interval) :=
      (sub m 1, sub m 3, strings_TrimSpace X (sub m 4)) in
    let '(hhmm, isDate) :=
      if str_eqb hhmm [] then (str "00:00", true) else (hhmm, false) in
    match time_Parse X timestampFormat (ddmmyy ++ str " Mon " ++ hhmm) with
    | None => noMatch
    | Some t =>
      let consumed := length (sub m 0) in
      let pos := positionFromChars input startLine startColumn
                   start (start + consumed) in
      ROk (consumed, Some (Timestamp t isDate interval pos))
    end
  | None => noMatch
  end.

Definition parseOpeningBracketWithPos (input : gostring) (start : nat)
    (startLine startColumn : Z) : Result (nat * option Node) :=
  if (2 <=? length (drop start input))%nat
     && byte_eqb (default "000"%char (input !! start)) "["%char
     && byte_eqb (default "000"%char (input !! S start)) "["%char
  then parseRegularLinkWithPos input start startLine startColumn
  else if bool_decide (is_Some (footnoteRegexp (drop start input)))
  then parseFootnoteReferenceWithPos input start startLine startColumn
  else if bool_decide (is_Some (statisticsTokenRegexp X (drop start input)))
  then parseStatisticTokenWithPos input start startLine startColumn
  else noMatch.

(** The [switch input[current]] of parseInlineWithPos. *)
Definition dispatch (input : gostring) (c : ascii) (current : nat)
    (startLine startColumn : Z) : Result (nat * nat * option Node) :=
  let two (r : Result (nat * option Node)) :=
    '(consumed, node) ← r; ROk (O, consumed, node) in
  if byte_eqb c "^"%char then
    two (parseSubOrSuperScriptWithPos input current startLine startColumn)
  else if byte_eqb c "_"%char then
    parseSubScriptOrEmphasisOrInlineBlockWithPos input current
      startLine startColumn
  else if byte_eqb c "@"%char then
    two (parseInlineExportBlockWithPos input current startLine startColumn)
  else if byte_eqb c "*"%char || byte_eqb c "/"%char || byte_eqb c "+"%char then
    two (parseEmphasisWithPos input current false startLine startColumn)
  else if byte_eqb c "="%char || byte_eqb c "~"%char then
    two (parseEmphasisWithPos input current true startLine startColumn)
  else if byte_eqb c "["%char then
    two (parseOpeningBracketWithPos input current startLine startColumn)
  else if byte_eqb c "{"%char then
    two (parseMacroWithPos input current startLine startColumn)
  else if byte_eqb c "<"%char then
    two (parseTimestampWithPos input current startLine startColumn)
  else if byte_eqb c "\"%char then
    two (parseExplicitLineBreakOrLatexFragmentWithPos input current
           startLine startColumn)
  else if byte_eqb c "$"%char then
    two (parseLatexFragmentWithPos input current 1 startLine startColumn)
  else if byte_eqb c nl then
    let '(consumed, node) :=
      parseLineBreakWithPos input current startLine startColumn in
    ROk (O, consumed, Some node)
  else if byte_eqb c ":"%char then
    parseAutoLink input current
  else noMatch3.

(** The loop of parseInlineWithPos. The Go loop carries no bound;
    [steps] makes the recursion structural; [ROutOfFuel] means it ran out. *)
Fixpoint parseInline_loop (steps : nat) (input : gostring)
    (startLine startColumn : Z) (previous current : nat) (nodes : list Node)
  : Result (list Node) :=
  if (current <? length input)%nat then
    match steps with
    | O => ROutOfFuel
    | S steps' =>
      c ← byteAt input current;
      '(rewind, consumed, node) ←
        dispatch input c current startLine startColumn;
      let current := (current - rewind)%nat in
      if negb (consumed =? 0)%nat then
        let nodes :=
          if (previous <? current)%nat
          then nodes ++ [textBetween input startLine startColumn
                                     previous current false]
          else nodes in
        let nodes :=
          match node with Some n => nodes ++ [n] | None => nodes end in
        parseInline_loop steps' input startLine startColumn
          (current + consumed) (current + consumed) nodes
      else
        parseInline_loop steps' input startLine startColumn
          previous (S current) nodes
    end
  else
    ROk (if (previous <? length input)%nat
          then nodes ++ [textBetween input startLine startColumn
                                     previous (length input) false]
          else nodes).

End Scanners.

(** parseInlineWithPos. [fuel] bounds the nesting of inline markup (each
    nested call works on a strictly shorter string); [ROutOfFuel] means the
    bound was too small. *)
Fixpoint parseInlineWithPos (fuel : nat) (X : Externals) (d : Document)
    (input : gostring) (startLine startColumn : Z) : Result (list Node) :=
  match fuel with
  | O => ROutOfFuel
  | S fuel' =>
    parseInline_loop X d (parseInlineWithPos fuel' X d)
      (length input) input startLine startColumn 0 0 []
  end.

Definition parseInline (fuel : nat) (X : Externals) (d : Document)
    (input : gostring) : Result (list Node) :=
  parseInlineWithPos fuel X d input 0 0.

Definition noExternals : Externals :=
  mkExternals (fun _ => None) (fun _ => None) (fun _ => None) (fun _ => None)
    (fun _ => None) (fun _ => None) (fun _ => None) (fun _ _ => None)
    (fun s => [s]) (fun s => s).

(** The configuration [New] returns. *)
Definition New : Configuration :=
  mkConfiguration 1 true
    ({[ str "TODO" := str "TODO | DONE";
        str "EXCLUDE_TAGS" := str "noexport";
        str "OPTIONS" :=
          str "toc:t <:t e:t f:t pri:t todo:t tags:t title:t ealb:nil" ]})
    (fun protocol description link =>
       Some (RegularLink protocol description link false Position0)).

Definition newDocument (c : Configuration) (path : gostring) : Document :=
  mkDocument c path None 0 ∅ ∅ None ∅ (mkOutline 0 0 0) [mkSection None []]
    ∅ [] Position0 None.

(** ** The block parser: state, panics and fuel

    The block parser mutates the session it is a method of, and indexing a
    slice out of range (or an explicit [panic]) unwinds to the guard in
    [Parse]. A computation therefore maps the document before to either a
    result with the document after, or a panic with the document as it
    stood when the panic was raised. [OutOfFuel] is not a behaviour of the
    Go code: it only says that the bound given to the model was too small. *)

Inductive Outcome (A : Type) :=
| Done (a : A) (d : Document)
| Panicked (msg : gostring) (d : Document)
| OutOfFuel.

Arguments Done {A} a d.
Arguments Panicked {A} msg d.
Arguments OutOfFuel {A}.

Definition M (A : Type) : Type := Document -> Outcome A.

Definition ret {A} (a : A) : M A := fun d => Done a d.

Definition bind {A B} (m : M A) (k : A -> M B) : M B :=
  fun d => match m d with
           | Done a d' => k a d'
           | Panicked msg d' => Panicked msg d'
           | OutOfFuel => OutOfFuel
           end.

Definition panic {A} (msg : gostring) : M A := fun d => Panicked msg d.

Definition outOfFuel {A} : M A := fun _ => OutOfFuel.

Definition get : M Document := fun d => Done d d.

Definition modify (f : Document -> Document) : M unit :=
  fun d => Done tt (f d).

#[export] Instance M_ret : MRet M := @ret.
#[export] Instance M_bind : MBind M := fun A B k m => bind m k.

(** [s[k]] on a Go slice. *)
Definition index {A} (s : list A) (k : nat) : M A :=
  match s !! k with
  | Some a => ret a
  | None => panic indexOutOfRange
  end.

(** [d.tokens[i]] *)
Definition tokenAt (i : Z) : M token :=
  fun d => match tokAt d i with
           | Some t => Done t d
           | None => Panicked indexOutOfRange d
           end.

(** [d.tokens[i] = t] *)
Definition assignToken (i : Z) (t : token) : M unit :=
  _ ← tokenAt i; modify (fun d => setTok d i t).

Definition addError (typ : ErrorType) (message : gostring) (pos : Position)
    (tok : token) (cause : option gostring) : M unit :=
  modify (fun d => AddError d typ message pos tok cause).

(** A computation of the inline parser, run inside the block parser. *)
Definition liftInline {A} (r : Result A) : M A :=
  match r with
  | ROk a => ret a
  | RPanic msg => panic msg
  | ROutOfFuel => outOfFuel
  end.

Definition lexFn : Type := gostring -> token * bool.

(** A stop predicate reads the session and an index; it can index the
    token buffer out of range, which is [None]. *)
Definition stopFn : Type := Document -> Z -> option bool.

Definition parseFn : Type := Z -> stopFn -> M (Z * option Node).

(** Evaluating a stop predicate on the current session. *)
Definition callStop (stop : stopFn) (i : Z) : M bool :=
  fun d => match stop d i with
           | Some b => Done b d
           | None => Panicked indexOutOfRange d
           end.

(** What the block parser uses and the files at hand do not define: the
    table of line matchers [lexFns], the parsers parseOne dispatches to
    other than the list and footnote-definition parsers,
    [isSecondBlankLine], and [plainTextRegexp], given by its
    FindStringSubmatch. *)
Record BlockExternals := mkBlockExternals {
  lexFns : list lexFn;
  plainTextRegexp : gostring -> option (list gostring);
  isSecondBlankLine : Document -> Z -> option bool;
  parseTable : parseFn;
  parseBlock : parseFn;
  parseLatexBlock : parseFn;
  parseResult : parseFn;
  parseDrawer : parseFn;
  parseParagraph : parseFn;
  parseExample : parseFn;
  parseHorizontalRule : parseFn;
  parseComment : parseFn;
  parseKeyword : parseFn;
  parseHeadline : parseFn
}.

(** [tokenize(line)]: the first matcher that accepts the line wins. *)
Fixpoint tokenize_loop (fns : list lexFn) (line_ : gostring) : token * bool :=
  match fns with
  | [] => (nilToken, false)
  | lexFn_ :: fns' =>
    let '(tok, ok) := lexFn_ line_ in
    if ok then (tok, true) else tokenize_loop fns' line_
  end.

Definition tokenize (B : BlockExternals) (line_ : gostring) : token * bool :=
  tokenize_loop (lexFns B) line_.

(** A byte of the class [\s] of Go's regexp. *)
Definition isReSpace (c : ascii) : bool :=
  let r := byteZ c in
  (r =? 9) || (r =? 10) || (r =? 12) || (r =? 13) || (r =? 32).

Fixpoint spaceRun (s : gostring) : nat :=
  match s with
  | c :: s' => if isReSpace c then S (spaceRun s') else O
  | [] => O
  end.

(** The patterns of org/list.go that parseListItem searches for anywhere
    in the item's content. *)

(** The leftmost match of a pattern that [f] matches at the head. *)
Fixpoint searchFrom {A} (f : gostring -> option A) (s : gostring) (p : nat)
  : option (nat * A) :=
  match f s with
  | Some m => Some (p, m)
  | None => match s with
            | [] => None
            | _ :: s' => searchFrom f s' (S p)
            end
  end.

(** [descriptiveListItemRegexp] at the head of [s]: a white-space byte,
    "::", then a white-space byte or the end of the text. The length of
    the match. *)
Definition descriptiveAt (s : gostring) : option nat :=
  match s with
  | c :: c1 :: c2 :: r =>
    if isReSpace c && byte_eqb c1 ":"%char && byte_eqb c2 ":"%char then
      match r with
      | [] => Some 3%nat
      | c3 :: _ => if isReSpace c3 then Some 4%nat else None
      end
    else None
  | _ => None
  end.

(** [descriptiveListItemRegexp.FindStringIndex] *)
Definition descriptiveListItemRegexp (s : gostring) : option (nat * nat) :=
  '(p, n) ← searchFrom descriptiveAt s 0;
  Some (p, (p + n)%nat).

Fixpoint digitRun (s : gostring) : nat :=
  match s with
  | c :: s' => if unicode.IsDigit c then S (digitRun s') else O
  | [] => O
  end.

(** [listItemValueRegexp] at the head of [s]: "[@", digits, "]" and a
    white-space byte. *)
Definition listItemValueAt (s : gostring) : option (list gostring) :=
  match s with
  | c :: c1 :: r =>
    if byte_eqb c "["%char && byte_eqb c1 "@"%char then
      let n := digitRun r in
      if (n =? 0)%nat then None else
      match drop n r with
      | c2 :: c3 :: _ =>
        if byte_eqb c2 "]"%char && isReSpace c3
        then Some [take (n + 4) s; take n r] else None
      | _ => None
      end
    else None
  | _ => None
  end.

Definition listItemValueRegexp (s : gostring) : option (list gostring) :=
  snd <$> searchFrom listItemValueAt s 0.

(** [listItemStatusRegexp] at the head of [s]: "[", one of " ", "X" and
    "-", "]" and a white-space byte. *)
Definition listItemStatusAt (s : gostring) : option (list gostring) :=
  match s with
  | c :: c1 :: c2 :: c3 :: _ =>
    if byte_eqb c "["%char
       && (byte_eqb c1 " "%char || byte_eqb c1 "X"%char || byte_eqb c1 "-"%char)
       && byte_eqb c2 "]"%char && isReSpace c3
    then Some [take 4 s; [c1]] else None
  | _ => None
  end.

Definition listItemStatusRegexp (s : gostring) : option (list gostring) :=
  snd <$> searchFrom listItemStatusAt s 0.

(** [fmt.Errorf(format, ...)]: the error is kept as its format; the
    rendered arguments are not modelled. *)
Definition Errorf (format : gostring) : option gostring := Some format.

Definition isListToken (t : token) : bool :=
  str_eqb (kind t) (str "unorderedList") || str_eqb (kind t) (str "orderedList").

Definition isBlankText (t : token) : bool :=
  str_eqb (kind t) (str "text") && str_eqb (content t) [].

(** [listKind(t)]; [None] is a panic, by an index out of range or by the
    explicit "bad list bullet". *)
Definition listKind (t : token) : option (ListKind * ListKind) :=
  bullet ← matches t !! 2%nat;
  mainKind ←
    (if str_eqb bullet (str "*") || str_eqb bullet (str "+")
        || str_eqb bullet (str "-")
     then Some UnorderedList
     else
       b0 ← bullet !! 0%nat;
       if unicode.IsLetter b0 || unicode.IsDigit b0 then Some OrderedList
       else None);
  if bool_decide (is_Some (descriptiveListItemRegexp (content t)))
  then Some (mainKind, DescriptiveList)
  else Some (mainKind, mainKind).

Definition listKindM (t : token) : M (ListKind * ListKind) :=
  match listKind t with
  | Some r => ret r
  | None => panic (str "bad list bullet or index out of range")
  end.

Section BlockParsers.

Variable X : Externals.
Variable B : BlockExternals.
(** The recursive call to parseOne. *)
Variable parseOne_rec : parseFn.
(** Bound on the iterations of each loop and on inline nesting. *)
Variable steps : nat.

(** The loop of parseMany. *)
Fixpoint parseMany_loop (n : nat) (i : Z) (stop : stopFn) (nodes : list Node)
  : M (Z * list Node) :=
  d ← get;
  if negb (i <? ntokens d) then ret (i, nodes) else
  stopped ← callStop stop i;
  if (stopped : bool) then ret (i, nodes) else
  match n with
  | O => outOfFuel
  | S n' =>
    '(consumed, node) ← parseOne_rec i stop;
    let i := i + consumed in
    let nodes := match node with Some x => nodes ++ [x] | None => nodes end in
    parseMany_loop n' i stop nodes
  end.

Definition parseMany (i : Z) (stop : stopFn) : M (Z * list Node) :=
  let start := i in
  '(i, nodes) ← parseMany_loop steps i stop [];
  ret (i - start, nodes).

(** The re-tokenization both parseListItem and parseFootnoteDefinition
    perform: [d.tokens[i], ok = tokenize(line)], with a diagnostic when no
    matcher accepts. *)
Definition retokenize (i : Z) (line_ : gostring) : M unit :=
  let '(tok, ok) := tokenize B line_ in
  _ ← assignToken i tok;
  if negb ok then
    t ← tokenAt i;
    addError ErrorTypeTokenization (str "could not lex line")
      (getPositionFromToken t) t (Errorf (str "no lexer matched: %q"))
  else ret tt.

Definition footnoteStop (parentStop : stopFn) (start : Z) : stopFn :=
  fun d i =>
    p ← parentStop d i;
    if (p : bool) then Some true else
    b ← isSecondBlankLine B d i;
    if (b : bool) && (start + 1 <? i) then Some true else
    t ← tokAt d i;
    Some (str_eqb (kind t) (str "headline")
          || str_eqb (kind t) (str "footnoteDefinition")).

Definition parseFootnoteDefinition (i : Z) (parentStop : stopFn)
  : M (Z * option Node) :=
  t ← tokenAt i;
  let '(start, name) := (i, content t) in
  startToken ← tokenAt start;
  line_ ← index (matches t) 2;
  _ ← retokenize i line_;
  let stop := footnoteStop parentStop start in
  '(consumed, nodes) ← parseMany i stop;
  pos ←
    (if 0 <? consumed then
       tEnd ← tokenAt (start + consumed - 1);
       ret (mkPosition (line startToken) (startCol startToken)
                       (line tEnd) (endCol tEnd))
     else ret Position0);
  ret (consumed,
       Some (FootnoteDefinitionNode (mkFootnoteDefinition name nodes false pos))).

Definition listItemStop (parentStop : stopFn) (minIndent : Z) : stopFn :=
  fun d i =>
    p ← parentStop d i;
    if (p : bool) then Some true else
    t ← tokAt d i;
    Some ((lvl t <? minIndent) && negb (isBlankText t)).

(** The loop of parseListItem. *)
Fixpoint parseListItem_loop (n : nat) (start i : Z) (stop : stopFn)
    (nodes : list (option Node)) : M (Z * list (option Node)) :=
  stopped ← callStop stop i;
  if (stopped : bool) then ret (i, nodes) else
  continue ←
    (if i <=? start + 1 then ret true
     else d ← get;
          match isSecondBlankLine B d i with
          | Some b => ret (negb b)
          | None => panic indexOutOfRange
          end);
  if negb (continue : bool) then ret (i, nodes) else
  match n with
  | O => outOfFuel
  | S n' =>
    '(consumed, node) ← parseOne_rec i stop;
    parseListItem_loop n' start (i + consumed) stop (nodes ++ [node])
  end.

(** The first half of parseListItem, up to the re-tokenization of the
    item's own line: it returns the locals the rest of the function uses,
    [(bullet, minIndent, dterm, status, value, originalBaseLvl)], and leaves
    [baseLvl] at the level of the item body. *)
Definition parseListItem_enter (l_Kind : ListKind) (i : Z)
  : M (gostring * Z * gostring * gostring * gostring * Z) :=
  t ← tokenAt i;
  bullet ← index (matches t) 2;
  let minIndent := lvl t + Z.of_nat (length bullet) in
  let content := content t in
  d ← get;
  let originalBaseLvl := baseLvl d in
  _ ← modify (fun d => set_baseLvl d (minIndent + 1));
  let '(value, content) :=
    match listItemValueRegexp content with
    | Some m =>
      if bool_decide (l_Kind = OrderedList)
      then (sub m 1, drop (4 + length (sub m 1)) content)
      else ([], content)
    | None => ([], content)
    end in
  let '(status, content) :=
    match listItemStatusRegexp content with
    | Some m => (sub m 1, drop 4 content)
    | None => ([], content)
    end in
  '(dterm, content) ←
    (if bool_decide (l_Kind = DescriptiveList) then
       match descriptiveListItemRegexp content with
       | Some (m0, m1) =>
         line0 ← index (matches t) 0;
         _ ← modify (fun d => set_baseLvl d (Index line0 (str " ::") + 4));
         ret (take m0 content, drop m1 content)
       | None => ret ([], content)
       end
     else ret ([], content));
  _ ← (if minIndent <? 0 then panic (str "strings: negative Repeat count")
       else ret tt);
  _ ← retokenize i (spaces (Z.to_nat minIndent) ++ content);
  ret (bullet, minIndent, dterm, status, value, originalBaseLvl).

(** The second half of parseListItem: [baseLvl] is put back, the term of a
    descriptive item is parsed and the item is built. *)
Definition parseListItem_leave (l_Kind : ListKind) (start i : Z)
    (bullet dterm status value : gostring) (originalBaseLvl : Z)
    (nodes : list (option Node)) : M (Z * option Node) :=
  _ ← modify (fun d => set_baseLvl d originalBaseLvl);
  if bool_decide (l_Kind = DescriptiveList) then
    d ← get;
    term ← liftInline (parseInline steps X d dterm);
    tStart ← tokenAt start;
    tEnd ← tokenAt (i - 1);
    ret (i - start,
         Some (DescriptiveListItem bullet status term nodes
                 (mkPosition (line tStart) (startCol tStart)
                             (line tEnd) (endCol tEnd))))
  else
    tStart ← tokenAt start;
    tEnd ← tokenAt (i - 1);
    ret (i - start,
         Some (ListItem bullet status value nodes
                 (mkPosition (line tStart) (startCol tStart)
                             (line tEnd) (endCol tEnd)))).

Definition parseListItem (l_Kind : ListKind) (i : Z) (parentStop : stopFn)
  : M (Z * option Node) :=
  let start := i in
  '(bullet, minIndent, dterm, status, value, originalBaseLvl) ←
    parseListItem_enter l_Kind i;
  let stop := listItemStop parentStop minIndent in
  '(i, nodes) ← parseListItem_loop steps start i stop [];
  parseListItem_leave l_Kind start i bullet dterm status value
    originalBaseLvl nodes.

(** The stop closure of parseList, evaluated at the loop variable [i]. *)
Definition listStop (parentStop : stopFn) (lvl_ : Z) (listMainKind : ListKind)
    (i : Z) : M bool :=
  p ← callStop parentStop i;
  if (p : bool) then ret true else
  t ← tokenAt i;
  if negb (lvl t =? lvl_) || negb (isListToken t) then ret true else
  '(itemMainKind, _) ← listKindM t;
  ret (negb (bool_decide (itemMainKind = listMainKind))).

(** The loop of parseList. *)
Fixpoint parseList_loop (n : nat) (parentStop : stopFn) (lvl_ : Z)
    (listMainKind kind_ : ListKind) (i : Z) (items : list (option Node))
  : M (Z * list (option Node)) :=
  stopped ← listStop parentStop lvl_ listMainKind i;
  if (stopped : bool) then ret (i, items) else
  match n with
  | O => outOfFuel
  | S n' =>
    '(consumed, node) ← parseListItem kind_ i parentStop;
    parseList_loop n' parentStop lvl_ listMainKind kind_ (i + consumed)
      (items ++ [node])
  end.

Definition parseList (i : Z) (parentStop : stopFn) : M (Z * option Node) :=
  t ← tokenAt i;
  let '(start, lvl_) := (i, lvl t) in
  '(listMainKind, kind_) ← listKindM t;
  '(i, items) ← parseList_loop steps parentStop lvl_ listMainKind kind_ i [];
  tStart ← tokenAt start;
  tEnd ← tokenAt (i - 1);
  ret (i - start,
       Some (List kind_ items
               (mkPosition (line tStart) (startCol tStart)
                           (line tEnd) (endCol tEnd)))).

(** The [switch d.tokens[i].kind] of parseOne, for a token that is not a
    blank text line. No case leaves [consumed, node] at [0, nil]. *)
Definition parseOne_switch (t : token) (i : Z) (stop : stopFn)
  : M (Z * option Node) :=
  let k := kind t in
  if str_eqb k (str "unorderedList") || str_eqb k (str "orderedList")
  then parseList i stop
  else if str_eqb k (str "tableRow") || str_eqb k (str "tableSeparator")
  then parseTable B i stop
  else if str_eqb k (str "beginBlock") then parseBlock B i stop
  else if str_eqb k (str "beginLatexBlock") then parseLatexBlock B i stop
  else if str_eqb k (str "result") then parseResult B i stop
  else if str_eqb k (str "beginDrawer") then parseDrawer B i stop
  else if str_eqb k (str "text") then parseParagraph B i stop
  else if str_eqb k (str "example") then parseExample B i stop
  else if str_eqb k (str "horizontalRule") then parseHorizontalRule B i stop
  else if str_eqb k (str "comment") then parseComment B i stop
  else if str_eqb k (str "keyword") then parseKeyword B i stop
  else if str_eqb k (str "headline") then parseHeadline B i stop
  else if str_eqb k (str "footnoteDefinition")
  then parseFootnoteDefinition i stop
  else ret (0, None).

(** The recovery at the end of parseOne, before it calls itself again:
    the diagnostic, then the token coerced to text. *)
Definition coerceToText (i : Z) : M unit :=
  t ← tokenAt i;
  _ ← addError ErrorTypeUnexpectedToken (str "could not parse token")
        (getPositionFromToken t) t
        (Errorf (str "no parser matched token kind %q"));
  line0 ← index (matches t) 0;
  let m := default [] (plainTextRegexp B line0) in
  m1 ← index m 1;
  m2 ← index m 2;
  assignToken i (mkToken (str "text") (Z.of_nat (length m1)) m2 m 0 0 0).

Definition parseOne_body (i : Z) (stop : stopFn) : M (Z * option Node) :=
  t ← tokenAt i;
  if isBlankText t then ret (1, None) else
  '(consumed, node) ← parseOne_switch t i stop;
  if negb (consumed =? 0) then ret (consumed, node) else
  _ ← coerceToText i;
  parseOne_rec i stop.

End BlockParsers.

(** parseOne. [fuel] bounds the depth of the recursion and, with it, the
    iterations of every loop below. *)
Fixpoint parseOne (fuel : nat) (X : Externals) (B : BlockExternals)
    (i : Z) (stop : stopFn) : M (Z * option Node) :=
  match fuel with
  | O => outOfFuel
  | S fuel' => parseOne_body X B (parseOne fuel' X B) fuel' i stop
  end.

Definition parseManyTop (fuel : nat) (X : Externals) (B : BlockExternals)
    (i : Z) (stop : stopFn) : M (Z * list Node) :=
  parseMany (parseOne fuel X B) fuel i stop.

(** ** Tokenizing the input and the entry point *)

(** What [bufio.Scanner] yields for an [io.Reader]: the lines it scans
    and the error [scanner.Err()] reports afterwards, if any. *)
Record Reader := mkReader {
  rLines : list gostring;
  rErr : option gostring
}.

(** One iteration of the loop of [Document.tokenize]. *)
Definition tokenize_line (B : BlockExternals) (line_ : gostring) (lineNum : Z)
    (d : Document) : Document :=
  let '(tok, ok) := tokenize B line_ in
  if negb ok then
    let pos := mkPosition lineNum 1 lineNum (Z.of_nat (length line_) + 1) in
    AddError d ErrorTypeTokenization (str "could not lex line") pos
      (mkToken [] 0 [] [] lineNum 0 0) (Errorf (str "no lexer matched: %q"))
  else
    let tok := mkToken (kind tok) (lvl tok) (content tok) (matches tok)
                 lineNum 0 (Z.of_nat (length line_)) in
    set_tokens d (Some (toks d ++ [tok])).

Fixpoint tokenize_lines (B : BlockExternals) (lines : list gostring)
    (lineNum : Z) (d : Document) : Z * Document :=
  match lines with
  | [] => (lineNum, d)
  | line_ :: lines' =>
    tokenize_lines B lines' (lineNum + 1) (tokenize_line B line_ lineNum d)
  end.

Definition Document_tokenize (B : BlockExternals) (input : Reader)
    (d : Document) : Document :=
  let d := set_tokens d (Some []) in
  let '(lineNum, d) := tokenize_lines B (rLines input) 0 d in
  match rErr input with
  | Some err =>
    AddError d ErrorTypeIO (str "tokenization failed")
      (mkPosition lineNum 0 lineNum 0) (mkToken [] 0 [] [] lineNum 0 0)
      (Some err)
  | None => d
  end.

(** The stop predicate [Parse] hands to parseMany. *)
Definition topStop : stopFn := fun d i => Some (ntokens d <=? i).

(** The body of [Parse] under its deferred guard; the result says whether
    the function returns [d] ([true]) or [nil] ([false]). *)
Definition Parse_body (fuel : nat) (X : Externals) (B : BlockExternals)
    (input : Reader) : M bool :=
  d ← get;
  match tokens d with
  | Some _ =>
    _ ← addError ErrorTypeValidation (str "parse called multiple times")
          (DPos d) token0 None;
    ret false
  | None =>
    _ ← modify (Document_tokenize B input);
    '(_, nodes) ← parseManyTop fuel X B 0 topStop;
    _ ← modify (fun d => set_Nodes d (Some nodes));
    ret true
  end.

(** The deferred function of [Parse]: what it does with a recovered panic. *)
Definition Parse_recover (msg : gostring) (d : Document) : Document :=
  AddError d ErrorTypeInvalidStructure (str "parse panic") (DPos d) token0
    (Some (str "recovered from panic: " ++ msg)).

(** [Configuration.Parse]. The result is [None] when the fuel was too
    small; otherwise it is the returned [*Document], [None] for [nil]. *)
Definition Parse (fuel : nat) (X : Externals) (B : BlockExternals)
    (c : Configuration) (input : Reader) (path : gostring)
  : option (option Document) :=
  let d := newDocument c path in
  match Parse_body fuel X B input d with
  | Done true d' => Some (Some d')
  | Done false _ => Some None
  | Panicked msg d' => Some (Some (Parse_recover msg d'))
  | OutOfFuel => None
  end.

(** ** The outline builder *)

(** Modelled from the spec: [Section.add] is defined outside the files at
    hand; addHeadline "appends it as a child of the current cursor
    Section". [s] and [current] are addresses in the section store. *)
Definition Section_add (ss : list Section_) (s current : nat)
  : list Section_ :=
  match ss !! s with
  | Some sec =>
    <[s := mkSection (sHeadline sec) (sChildren sec ++ [current])]> ss
  | None => ss
  end.

(** [Document.addHeadline]. [IsExcluded] is the method of [Headline] of
    that name, defined outside the files at hand. *)
Definition addHeadline (IsExcluded : Headline -> Document -> bool)
    (headline : Headline) (d : Document) : Z * Document :=
  let current := length (sections d) in
  let ss := sections d ++ [mkSection (Some headline) []] in
  let ss := Section_add ss (last (Outline_ d)) current in
  let d := set_Outline d (Outline_ d) ss in
  let o := Outline_ d in
  let o := if negb (IsExcluded headline d)
           then mkOutline (oSection o) (last o) (count o + 1) else o in
  let o := mkOutline (oSection o) current (count o) in
  (count o, set_Outline d o ss).

(** ** The list matcher (org/list.go) and stand-ins for absent parts *)

(** Length of the match of [.*] at the head of [s]: up to a newline. *)
Fixpoint dotRun (s : gostring) : nat :=
  match s with
  | c :: s' => if byte_eqb c nl then O else S (dotRun s')
  | [] => O
  end.

(** The tail shared by the two list patterns, matched at [r]: white
    space and the rest of the line, or the end of the text. The two
    groups, if it matches. *)
Definition listTail (r : gostring) : option (gostring * gostring) :=
  let w := spaceRun r in
  if (0 <? w)%nat then
    let c := take (dotRun (drop w r)) (drop w r) in
    Some (take w r ++ c, c)
  else match r with
       | [] => Some ([], [])
       | _ => None
       end.

(** [unorderedListRegexp]: white space, one of "+", "*" and "-", then
    the tail. *)
Definition unorderedListRegexp (s : gostring) : option (list gostring) :=
  let w := spaceRun s in
  match drop w s with
  | b :: r =>
    if byte_eqb b "+"%char || byte_eqb b "*"%char || byte_eqb b "-"%char then
      '(g3, g4) ← listTail r;
      Some [take w s ++ [b] ++ g3; take w s; [b]; g3; g4]
    else None
  | [] => None
  end.

(** [orderedListRegexp]: white space, digits or one letter, "." or ")",
    then the tail. *)
Definition orderedListRegexp (s : gostring) : option (list gostring) :=
  let w := spaceRun s in
  let r := drop w s in
  let n := digitRun r in
  let n := if (0 <? n)%nat then n
           else match r with
                | c :: _ =>
                  let z := byteZ c in
                  if ((65 <=? z) && (z <=? 90)) || ((97 <=? z) && (z <=? 122))
                  then 1%nat else O
                | [] => O
                end in
  if (n =? 0)%nat then None else
  match drop n r with
  | p :: r' =>
    if byte_eqb p "."%char || byte_eqb p ")"%char then
      '(g4, g5) ← listTail r';
      Some [take w s ++ take n r ++ [p] ++ g4; take w s; take n r ++ [p];
            take n r; g4; g5]
    else None
  | [] => None
  end.

Definition lexList : lexFn := fun line_ =>
  match unorderedListRegexp line_ with
  | Some m =>
    (mkToken (str "unorderedList") (Z.of_nat (length (sub m 1))) (sub m 4) m
       0 0 0, true)
  | None =>
    match orderedListRegexp line_ with
    | Some m =>
      (mkToken (str "orderedList") (Z.of_nat (length (sub m 1))) (sub m 5) m
         0 0 0, true)
    | None => (nilToken, false)
    end
  end.

(** Modelled from the spec: [plainTextRegexp] is defined outside the files
    at hand; it is the "generic plain-text pattern" that extracts "its
    indentation level and content": leading white space, then the rest of
    the line. *)
Definition plainTextRegexp_spec (s : gostring) : option (list gostring) :=
  let w := spaceRun s in
  let c := take (dotRun (drop w s)) (drop w s) in
  Some [take w s ++ c; take w s; c].

(** Modelled from the spec: [lexText] is defined outside the files at
    hand; it is the "plain text fallback" of the matcher table. *)
Definition lexText_spec : lexFn := fun line_ =>
  match plainTextRegexp_spec line_ with
  | Some m =>
    (mkToken (str "text") (Z.of_nat (length (sub m 1))) (sub m 2) m 0 0 0, true)
  | None => (nilToken, false)
  end.

(** A stand-in for the absent paragraph parser, to run the model on
    concrete inputs: it takes the one text line and parses it inline. *)
Definition paragraphOfLine (X : Externals) : parseFn := fun i stop =>
  t ← tokenAt i;
  d ← get;
  children ← liftInline (parseInline (S (length (content t))) X d (content t));
  ret (1, Some (Paragraph children (getPositionFromToken t))).

(** A stand-in for an absent parser that is never reached. *)
Definition unreached : parseFn := fun _ _ => panic (str "not modelled").

(** The block parser with the list matcher of org/list.go, the plain-text
    fallback and the stand-ins above. *)
Definition sampleBlock (fns : list lexFn) : BlockExternals :=
  mkBlockExternals fns plainTextRegexp_spec (fun _ _ => Some false)
    unreached unreached unreached unreached unreached
    (paragraphOfLine noExternals)
    unreached unreached unreached unreached unreached.

(** Inputs used to run the model. *)

Definition reader (lines : list string) : Reader := mkReader (map str lines) None.

(** A configuration whose [ResolveLink] callback panics. *)
Definition panickingResolver : Configuration :=
  mkConfiguration 1 true ∅ (fun _ _ _ => None).

(** The matcher table reduced to the list matcher and the plain-text
    fallback. *)
Definition sampleLexFns : list lexFn := [lexList; lexText_spec].

(** ** Definitions used to state the properties *)

(** The tokens [Document.tokenize] appends for the lines it is given,
    numbered from [lineNum]: the stamped token of each line a matcher
    accepts, and nothing for a line that none accepts. *)
Fixpoint lineTokens (B : BlockExternals) (lineNum : Z) (lines : list gostring)
  : list token :=
  match lines with
  | [] => []
  | line_ :: lines' =>
    let '(tok, ok) := tokenize B line_ in
    (if ok then [mkToken (kind tok) (lvl tok) (content tok) (matches tok)
                   lineNum 0 (Z.of_nat (length line_))]
     else [])
    ++ lineTokens B (lineNum + 1) lines'
  end.

(** The diagnostics it records for them: one for each line that no
    matcher accepts. *)
Fixpoint lineErrors (B : BlockExternals) (path : gostring) (lineNum : Z)
    (lines : list gostring) : list ParseError :=
  match lines with
  | [] => []
  | line_ :: lines' =>
    (if snd (tokenize B line_) then []
     else [NewParseError ErrorTypeTokenization (str "could not lex line") path
             (mkPosition lineNum 1 lineNum (Z.of_nat (length line_) + 1))
             (mkToken [] 0 [] [] lineNum 0 0)
             (Errorf (str "no lexer matched: %q"))])
    ++ lineErrors B path (lineNum + 1) lines'
  end.


(** [linked ss root a]: in the section store [ss], the section at address
    [a] is [root] or is reached from it through the child lists. *)
Inductive linked (ss : list Section_) (root : nat) : nat -> Prop :=
| linked_root : linked ss root root
| linked_child (parent : nat) (sec : Section_) (child : nat) :
    linked ss root parent ->
    ss !! parent = Some sec ->
    child ∈ sChildren sec ->
    linked ss root child.

(** The outline of a session is well formed: every child pointer and the
    cursor address an allocated section, and the cursor is linked into the
    tree under the root. *)
Definition outline_ok (d : Document) : Prop :=
  (forall a sec c, sections d !! a = Some sec -> c ∈ sChildren sec ->
                   (c < length (sections d))%nat)
  /\ (last (Outline_ d) < length (sections d))%nat
  /\ linked (sections d) (oSection (Outline_ d)) (last (Outline_ d)).

(** The content of a list item once parseListItem has cut the counter
    value (for an ordered list) and the checkbox from its front. *)
Definition itemContent (l_Kind : ListKind) (content : gostring) : gostring :=
  let content :=
    match listItemValueRegexp content with
    | Some m => if bool_decide (l_Kind = OrderedList)
                then drop (4 + length (sub m 1)) content else content
    | None => content
    end in
  match listItemStatusRegexp content with
  | Some m => drop 4 content
  | None => content
  end.

(** The [baseLvl] under which the body of a list item is parsed: past the
    bullet and one blank, or, for a descriptive item that has its
    separator, four columns past the first " ::" of the line. *)
Definition bodyBaseLvl (l_Kind : ListKind) (t : token) : Z :=
  if bool_decide (l_Kind = DescriptiveList)
     && bool_decide (is_Some (descriptiveListItemRegexp
                                (itemContent l_Kind (content t))))
  then Index (sub (matches t) 0) (str " ::") + 4
  else lvl t + Z.of_nat (length (sub (matches t) 2)) + 1.



(** Number of newline bytes in [s]. *)
Fixpoint newlines (s : gostring) : Z :=
  match s with
  | [] => 0
  | c :: s' => (if byte_eqb c nl then 1 else 0) + newlines s'
  end.

(** [closesAt maxNewLines input start j]: the byte at [j] can close the
    emphasis that the marker at [start] opens. It lies beyond [start + 1],
    it is the same byte as the marker, the character before it is no white
    space, the character after it is a valid post-character, and at most
    [maxNewLines] newlines lie between the two markers. *)
Definition closesAt (maxNewLines : Z) (input : gostring) (start j : nat)
  : Prop :=
  (start + 1 < j)%nat
  /\ is_Some (input !! j)
  /\ input !! j = input !! start
  /\ isValidBorderChar (prevRune input j) = true
  /\ isValidPostChar (nextRune input j) = true
  /\ newlines (slice input (start + 1) j) <= maxNewLines.

(** The conditions under which the marker at [start] opens an emphasis. *)
Definition emphasisConds (maxNewLines : Z) (input : gostring) (start : nat)
  : Prop :=
  isValidPreChar (prevRune input start) = true
  /\ isValidBorderChar (nextRune input start) = true
  /\ exists j, closesAt maxNewLines input start j.

(** The content of the emphasis between [start] and [j], as
    parseEmphasisWithPos parses it. *)
Definition emphasisContent (rec : gostring -> Z -> Z -> Result (list Node))
    (input : gostring) (start j : nat) (isRaw : bool)
    (startLine startColumn : Z) : Result (list Node) :=
  if isRaw then parseRawInline (slice input (start + 1) j)
  else rec (slice input (start + 1) j) startLine
         (startColumn + Z.of_nat start + 1).

(** The text token parseOne puts in place of a token no parser took,
    from the whole-line submatch [line0] of that token. *)
Definition textTokenOf (line0 : gostring) : token :=
  let m := default [] (plainTextRegexp_spec line0) in
  mkToken (str "text") (Z.of_nat (length (sub m 1))) (sub m 2) m 0 0 0.

(** The session after that recovery: one diagnostic more, and the token at
    [i] replaced. *)
Definition coerced (d : Document) (i : Z) (t : token) (line0 : gostring)
  : Document :=
  setTok (AddError d ErrorTypeUnexpectedToken (str "could not parse token")
            (getPositionFromToken t) t
            (Errorf (str "no parser matched token kind %q")))
    i (textTokenOf line0).


(** ** Definitions for the termination of the block parser *)

(** What parseListItem leaves of the item's content for the body, and the
    term of a descriptive item. *)
Definition itemBody (l_Kind : ListKind) (content : gostring) : gostring :=
  let c := itemContent l_Kind content in
  if bool_decide (l_Kind = DescriptiveList) then
    match descriptiveListItemRegexp c with
    | Some (m0, m1) => drop m1 c
    | None => c
    end
  else c.

Definition itemTerm (l_Kind : ListKind) (content : gostring) : gostring :=
  let c := itemContent l_Kind content in
  if bool_decide (l_Kind = DescriptiveList) then
    match descriptiveListItemRegexp c with
    | Some (m0, m1) => take m0 c
    | None => []
    end
  else [].

(** The line parseListItem re-tokenizes in place of the item's token. *)
Definition itemLine (l_Kind : ListKind) (t : token) : gostring :=
  spaces (Z.to_nat (lvl t + Z.of_nat (length (sub (matches t) 2))))
  ++ itemBody l_Kind (content t).

(** The session invariant of a parse: the buffer keeps its length, the
    configuration stays, and every token is one the matchers can produce
    ([TokOK] says what that means). *)
Definition Inv (TokOK : token -> Prop) (cfg : Configuration) (m : nat)
    (d : Document) : Prop :=
  length (toks d) = m /\ Config d = cfg /\ Forall TokOK (toks d).

(** A stop predicate is guarded: on a session that satisfies the invariant
    it returns, and it only lets the parser go on inside the buffer. *)
Definition Guarded (TokOK : token -> Prop) (cfg : Configuration) (m : nat)
    (stop : stopFn) : Prop :=
  forall d i, Inv TokOK cfg m d -> 0 <= i ->
    exists b, stop d i = Some b /\ (b = false -> i < Z.of_nat m).

(** A stop predicate that lets the parser go on at the first token still
    does after that token is replaced by one that is indented at least as
    far (or is a blank line) and opens neither a headline nor a footnote
    definition. *)
Definition StableAtStart (TokOK : token -> Prop) (cfg : Configuration)
    (m : nat) (stop : stopFn) : Prop :=
  forall d d1 t t',
    Inv TokOK cfg m d -> Inv TokOK cfg m d1 ->
    tokAt d 0 = Some t -> isBlankText t = false ->
    stop d 0 = Some false ->
    tokAt d1 0 = Some t' ->
    (lvl t <= lvl t' \/ isBlankText t' = true) ->
    str_eqb (kind t') (str "headline") = false ->
    str_eqb (kind t') (str "footnoteDefinition") = false ->
    stop d1 0 = Some false.

Definition GoodStop (TokOK : token -> Prop) (cfg : Configuration) (m : nat)
    (stop : stopFn) : Prop :=
  Guarded TokOK cfg m stop /\ StableAtStart TokOK cfg m stop.

(** What a token costs the parser: [mu] bounds how often its line can be
    re-tokenized. The potential of a buffer is the cost of its tokens. *)
Definition pot (mu : token -> nat) (l : list token) : nat :=
  foldr (fun t acc => (mu t + 2 + acc)%nat) O l.

Definition potAt (mu : token -> nat) (d : Document) (i : Z) : nat :=
  pot mu (drop (Z.to_nat i) (toks d)).

(** The tokens from index [i] on are the same in two sessions. *)
Definition sameFrom (i : Z) (d d' : Document) : Prop :=
  drop (Z.to_nat i) (toks d') = drop (Z.to_nat i) (toks d).

(** A parser started at token [i] is well behaved: it returns, having
    consumed at least [minc] tokens and none beyond the end of the
    buffer, it keeps the invariant, and it leaves the tokens it has not
    consumed as they were. *)
Definition stepOK (TokOK : token -> Prop) (cfg : Configuration) (m : nat)
    (minc : Z) (i : Z) (d : Document) (r : Outcome (Z * option Node)) : Prop :=
  exists c node d',
    r = Done (c, node) d'
    /\ minc <= c /\ i + c <= Z.of_nat m
    /\ Inv TokOK cfg m d'
    /\ sameFrom (i + Z.max c 1) d d'.

(** A parser is well behaved on the tokens of the kinds parseOne hands
    it: started on such a token, under a guarded stop predicate and on a
    session that satisfies the invariant, it meets [stepOK]. Nothing is
    asked of it on a token of another kind. *)
Definition WellBehaved (TokOK : token -> Prop) (cfg : Configuration)
    (kinds : list gostring) (p : parseFn) : Prop :=
  forall m i stop d t,
    Guarded TokOK cfg m stop -> Inv TokOK cfg m d ->
    tokAt d i = Some t -> kind t ∈ kinds ->
    stepOK TokOK cfg m 0 i d (p i stop d).

(** The parsers parseOne dispatches to that are not among the files at
    hand, the paragraph parser apart, each with the token kinds of its
    case in the switch of parseOne. *)
Definition absentParsers (B : BlockExternals)
  : list (list gostring * parseFn) :=
  [([str "tableRow"; str "tableSeparator"], parseTable B);
   ([str "beginBlock"], parseBlock B);
   ([str "beginLatexBlock"], parseLatexBlock B);
   ([str "result"], parseResult B);
   ([str "beginDrawer"], parseDrawer B);
   ([str "example"], parseExample B);
   ([str "horizontalRule"], parseHorizontalRule B);
   ([str "comment"], parseComment B);
   ([str "keyword"], parseKeyword B);
   ([str "headline"], parseHeadline B)].


(** ** Definitions used to state further properties *)

(** The source text a node of a raw inline parse stands for. *)
Definition rawText (n : Node) : gostring :=
  match n with
  | Text c _ _ => c
  | LineBreak k _ _ => replicate (Z.to_nat k) nl
  | _ => []
  end.

(** The two shapes of node a raw inline parse yields: a raw text without
    newline that is not empty, and a line break of at least one newline. *)
Definition isRawNode (n : Node) : Prop :=
  match n with
  | Text c true _ => c <> [] /\ newlines c = 0
  | LineBreak k _ _ => 1 <= k
  | _ => False
  end.

(** The bytes on which parseInlineWithPos tries a scanner: the cases of its
    [switch]. *)
Definition isTrigger (c : ascii) : bool :=
  byte_eqb c "^"%char || byte_eqb c "_"%char || byte_eqb c "@"%char
  || byte_eqb c "*"%char || byte_eqb c "/"%char || byte_eqb c "+"%char
  || byte_eqb c "="%char || byte_eqb c "~"%char || byte_eqb c "["%char
  || byte_eqb c "{"%char || byte_eqb c "<"%char || byte_eqb c "\"%char
  || byte_eqb c "$"%char || byte_eqb c nl || byte_eqb c ":"%char.

(** Number of bytes of [s] after its last newline (all of them when there
    is none). *)
Fixpoint tailLength (s : gostring) (acc : nat) : nat :=
  match s with
  | [] => acc
  | c :: s' => if byte_eqb c nl then tailLength s' O else tailLength s' (S acc)
  end.

(** The schemes parseAutoLinkWithPos recognizes. *)
Definition autolinkSchemes : list gostring :=
  [str "http"; str "https"; str "ftp"; str "file"].

Definition isURLByte (c : ascii) : bool :=
  ContainsRune validURLCharacters (byteZ c).

(** ** Printing and writing diagnostics (org/error.go) *)

(** [strconv.Itoa], and the verb %d of [fmt.Sprintf]: the decimal digits
    of the integer, with a minus sign before those of a negative one. *)
Definition Itoa (n : Z) : gostring :=
  str (DecimalString.NilZero.string_of_int (Z.to_int n)).

(** [ParseError.locationString] *)
Definition locationString (e : ParseError) : gostring :=
  let loc := if negb (str_eqb (File e) []) then File e ++ str ":" else [] in
  if peStartLine e =? peEndLine e then
    if peStartCol e =? peEndCol e then
      loc ++ Itoa (peStartLine e) ++ str ":" ++ Itoa (peStartCol e)
    else
      loc ++ Itoa (peStartLine e) ++ str ":" ++ Itoa (peStartCol e)
          ++ str "-" ++ Itoa (peEndCol e)
  else
    loc ++ Itoa (peStartLine e) ++ str ":" ++ Itoa (peStartCol e)
        ++ str "-" ++ Itoa (peEndLine e) ++ str ":" ++ Itoa (peEndCol e).

(** [ParseError.Error] *)
Definition Error (e : ParseError) : gostring :=
  let location := locationString e in
  let msg := Message e in
  let msg :=
    if negb (str_eqb location []) then location ++ str ": " ++ msg
    else msg in
  if negb (str_eqb (Context e) [])
  then msg ++ str " (hint: " ++ Context e ++ str ")"
  else msg.

(** [ParseError.Unwrap] *)
Definition Unwrap (e : ParseError) : option gostring := Cause e.

(** [ParseError.String]; the verb %v prints the message of the cause. *)
Definition ParseError_String (e : ParseError) : gostring :=
  let s := Error e ++ str " (type: " ++ ErrorType_string (Type_ e)
           ++ str ")" in
  match Cause e with
  | Some cause => s ++ [nl] ++ str "  caused by: " ++ cause
  | None => s
  end.

(** [formatRange] *)
Definition formatRange (startCol endCol : Z) : gostring :=
  if startCol =? endCol then Itoa startCol
  else Itoa startCol ++ str "-" ++ Itoa endCol.

(** An [io.Writer]: [Write] maps the state of the writer and the bytes to
    the state after and the error, if any. *)
Definition io_Writer (W : Type) : Type :=
  W -> gostring -> W * option gostring.

(** [Document.WriteErrors]: [fmt.Fprintln] formats the message, appends a
    newline and hands the line to the writer in one call. *)
Fixpoint WriteErrors_loop {W} (write : io_Writer W) (w : W)
    (errs : list ParseError) : W * option gostring :=
  match errs with
  | [] => (w, None)
  | err :: errs' =>
    let '(w', writeErr) := write w (Error err ++ [nl]) in
    match writeErr with
    | Some e => (w', Some e)
    | None => WriteErrors_loop write w' errs'
    end
  end.

Definition WriteErrors {W} (d : Document) (write : io_Writer W) (w : W)
  : W * option gostring :=
  WriteErrors_loop write w (Errors d).

(** A writer that keeps what it is given and never fails, as a
    [bytes.Buffer] does. *)
Definition bufferWriter : io_Writer gostring := fun w p => (w ++ p, None).

(** A writer that takes at most [limit] bytes in all and fails, taking
    nothing, on the write that would go beyond. *)
Definition limitedWriter (limit : nat) : io_Writer gostring :=
  fun w p =>
    if (length w + length p <=? limit)%nat then (w ++ p, None)
    else (w, Some (str "short write")).

Definition allErrorTypes : list ErrorType :=
  [ErrorTypeInvalidSyntax; ErrorTypeUnexpectedToken;
   ErrorTypeInvalidStructure; ErrorTypeDuplicateNode; ErrorTypeMissingNode;
   ErrorTypeValidation; ErrorTypeTokenization; ErrorTypeIO].

(** Every value the collector can be in: what [AddError] and
    [AddFatalError] make of a session without errors. *)
Inductive collected : Document -> Prop :=
| collected_start d :
    Errors d = [] -> FatalError d = None -> collected d
| collected_AddError d typ message pos tok cause :
    collected d -> collected (AddError d typ message pos tok cause)
| collected_AddFatalError d typ message pos tok cause :
    collected d -> collected (AddFatalError d typ message pos tok cause).

(** ** Exporting a session (document.go) *)

(** The [Writer] interface and [WriteNodes] are defined outside the files
    at hand: they are taken as they come. Each call maps the state of the
    writer to the state after, or panics. *)
Record Writer (W : Type) := mkWriter {
  Before : Document -> W -> Result W;
  WriteNodes : list Node -> W -> Result W;
  After : Document -> W -> Result W;
  Writer_String : W -> Result gostring
}.

Arguments Before {W}.
Arguments WriteNodes {W}.
Arguments After {W}.
Arguments Writer_String {W}.

(** The [error] that [Document.Write] returns: a diagnostic of the
    session, or an error made by [fmt.Errorf]. *)
Inductive WriteError :=
| ErrParse (e : ParseError)
| ErrText (msg : gostring).

(** [Document.Write]. The deferred function turns a panic into the error
    result; the named result [out] is then still empty. [ROutOfFuel] says
    that the writer did not return. *)
Definition Write {W} (d : Document) (wr : Writer W) (w : W)
  : Result (gostring * option WriteError) :=
  let recovered (msg : gostring) :=
    ROk ([], Some (ErrText (str "could not write output: " ++ msg))) in
  if HasErrors d then
    match Errors d !! 0%nat with
    | Some e => ROk ([], Some (ErrParse e))
    | None => recovered indexOutOfRange
    end
  else
    match Nodes d with
    | None =>
      ROk ([], Some (ErrText
                      (str "could not write output: parse was not called")))
    | Some nodes =>
      match (w ← Before wr d w;
             w ← WriteNodes wr nodes w;
             w ← After wr d w;
             Writer_String wr w) with
      | ROk out => ROk (out, None)
      | RPanic msg => recovered msg
      | ROutOfFuel => ROutOfFuel
      end
    end.

(** A token as [Document.tokenize] stamps it. *)
Definition stamped (tok : token) (lineNum : Z) (line_ : gostring) : token :=
  mkToken (kind tok) (lvl tok) (content tok) (matches tok)
    lineNum 0 (Z.of_nat (length line_)).

(** ** Shapes of list nodes *)

(** An item as parseListItem builds it for a list of kind [k]. *)
Definition itemOfKind (k : ListKind) (n : option Node) : Prop :=
  match n with
  | Some (DescriptiveListItem _ _ _ _ _) => k = DescriptiveList
  | Some (ListItem _ _ _ _ _) => k <> DescriptiveList
  | _ => False
  end.

(** The position of a node that spans the tokens [tStart] to [tEnd]. *)
Definition spanOf (tStart tEnd : token) : Position :=
  mkPosition (line tStart) (startCol tStart) (line tEnd) (endCol tEnd).

(** ** The matcher of footnote definitions (org/footnote.go) *)

(** Where the last group of [footnoteDefinitionRegexp], one or more bytes
    other than a newline, can start after the white space that follows the
    name: the largest offset from [k] down to 1 at which [r] holds such a
    byte. The white space gives back bytes until the group can match. *)
Fixpoint dotStart (r : gostring) (k : nat) : option nat :=
  match k with
  | O => None
  | S k' =>
    match r !! k with
    | Some c => if byte_eqb c nl then dotStart r k' else Some k
    | None => dotStart r k'
    end
  end.

(** [footnoteDefinitionRegexp]: at the start of the text "[fn:", a name of
    word bytes and hyphens, "]", and then either white space and the rest
    of the line, which is not empty, or white space up to the end of the
    text. The groups are the name, what follows the bracket, and the rest
    of the line. *)
Definition footnoteDefinitionRegexp (s : gostring) : option (list gostring) :=
  if negb (str_eqb (take 4 s) (str "[fn:")) then None else
  let r := drop 4 s in
  let n := nameRun r in
  if (n =? 0)%nat then None else
  match drop n r with
  | c :: r' =>
    if byte_eqb c "]"%char then
      let head := str "[fn:" ++ take n r ++ str "]" in
      let w := spaceRun r' in
      match dotStart r' w with
      | Some k =>
        let body := take (dotRun (drop k r')) (drop k r') in
        Some [head ++ take k r' ++ body; take n r; take k r' ++ body; body]
      | None =>
        if (length r' =? w)%nat then Some [head ++ r'; take n r; r'; []]
        else None
      end
    else None
  | [] => None
  end.

(** [lexFootnoteDefinition] *)
Definition lexFootnoteDefinition : lexFn := fun line_ =>
  match footnoteDefinitionRegexp line_ with
  | Some m => (mkToken (str "footnoteDefinition") 0 (sub m 1) m 0 0 0, true)
  | None => (nilToken, false)
  end.

(** ** The matcher table of the package *)

(** The matchers of [lexFns] that are outside the files at hand, the
    plain-text one apart. *)
Record AbsentLexers := mkAbsentLexers {
  lexHeadline : lexFn;
  lexDrawer : lexFn;
  lexBlock : lexFn;
  lexResult : lexFn;
  lexTable : lexFn;
  lexHorizontalRule : lexFn;
  lexKeywordOrComment : lexFn;
  lexExample : lexFn;
  lexLatexBlock : lexFn
}.

(** [var lexFns = []lexFn{...}] as part_000 declares it: twelve matchers
    in this order, the plain-text fallback last. [lexText] is the matcher
    modelled from the spec. *)
Definition declaredLexFns (L : AbsentLexers) : list lexFn :=
  [lexHeadline L;
   lexDrawer L;
   lexBlock L;
   lexResult L;
   lexList;
   lexTable L;
   lexHorizontalRule L;
   lexKeywordOrComment L;
   lexFootnoteDefinition;
   lexExample L;
   lexLatexBlock L;
   lexText_spec].



(** Stand-ins for the absent matchers, to run the table on lines that
    are no headline, drawer, block, result, table, rule, keyword, comment
    or example line: they classify nothing. *)
Definition noLexers : AbsentLexers :=
  let none : lexFn := fun _ => (nilToken, false) in
  mkAbsentLexers none none none none none none none none none.


(** ** Export options (document.go) *)

(** The closure [get] of [Document.GetOption]: the value of the first
    field of the OPTIONS setting that starts with the key and a colon. *)
Fixpoint optionAmong (fields : list gostring) (key : gostring) : gostring :=
  match fields with
  | [] => []
  | field :: fields' =>
    if hasPrefix field (key ++ str ":")
    then drop (length key + 1) field
    else optionAmong fields' key
  end.

Definition optionIn (X : Externals) (settings : gmap gostring gostring)
    (key : gostring) : gostring :=
  optionAmong (strings_Fields X (default [] (settings !! str "OPTIONS"))) key.

(** [Document.GetOption]: the value, and the line it hands to the logger,
    if any. *)
Definition GetOption (X : Externals) (d : Document) (key : gostring)
  : gostring * option gostring :=
  let value := optionIn X (BufferSettings d) key in
  let value :=
    if str_eqb value [] then optionIn X (DefaultSettings (Config d)) key
    else value in
  if str_eqb value []
  then (str "nil", Some (str "Missing value for export option " ++ key))
  else (value, None).

(** ** Iterating over the children of a node (list.go, footnote.go) *)

(** The loop [for _, child := range children { if !f(child) { return } }].
    The callback [f] works on a state of its own. The result says whether
    the loop ran to its end. *)
Fixpoint Range_loop {S} (f : option Node -> S -> S * bool)
    (children : list (option Node)) (s : S) : S * bool :=
  match children with
  | [] => (s, true)
  | child :: children' =>
    let '(s', go) := f child s in
    if go then Range_loop f children' s' else (s', false)
  end.

(** The [Range] methods of [List], [ListItem], [DescriptiveListItem] and
    [FootnoteDefinition]; those of the other nodes are defined outside the
    files at hand ([None]). *)
Definition Range {S} (n : Node) (f : option Node -> S -> S * bool) (s : S)
  : option S :=
  match n with
  | List _ items _ => Some (Range_loop f items s).1
  | ListItem _ _ _ children _ => Some (Range_loop f children s).1
  | DescriptiveListItem _ _ term details _ =>
    let '(s', go) := Range_loop f (Some <$> term) s in
    if go then Some (Range_loop f details s').1 else Some s'
  | FootnoteDefinitionNode (mkFootnoteDefinition _ children _ _) =>
    Some (Range_loop f (Some <$> children) s).1
  | _ => None
  end.

(** The children the [Range] method of a node goes over, in order. *)
Definition rangeChildren (n : Node) : option (list (option Node)) :=
  match n with
  | List _ items _ => Some items
  | ListItem _ _ _ children _ => Some children
  | DescriptiveListItem _ _ term details _ => Some ((Some <$> term) ++ details)
  | FootnoteDefinitionNode (mkFootnoteDefinition _ children _ _) =>
    Some (Some <$> children)
  | _ => None
  end.

(** The children up to and including the first one that [keep] rejects. *)
Fixpoint upToRejected {A} (keep : A -> bool) (l : list A) : list A :=
  match l with
  | [] => []
  | x :: l' => if keep x then x :: upToRejected keep l' else [x]
  end.

(** ** The paragraph parser and the blank-line test *)

(** [strings.Join(lines, sep)] *)
Fixpoint Join (lines : list gostring) (sep : gostring) : gostring :=
  match lines with
  | [] => []
  | [l] => l
  | l :: ls => l ++ sep ++ Join ls sep
  end.

(** Modelled from the spec: [parseParagraph] is defined outside the files
    at hand. "Any other text → paragraph: run the Inline Parser over its
    joined content": the paragraph takes the text line it is started on
    and the text lines that follow it, up to the caller's stop, a token
    of another kind or a blank line ("plain text with empty content"),
    and parses their contents, joined by newlines, inline. Its position
    spans the tokens it has consumed. *)
Definition paragraphStop (parentStop : stopFn) : stopFn := fun d i =>
  p ← parentStop d i;
  if (p : bool) then Some true else
  t ← tokAt d i;
  Some (negb (str_eqb (kind t) (str "text")) || str_eqb (content t) []).

Fixpoint parseParagraph_loop (n : nat) (i : Z) (stop : stopFn)
    (lines : list gostring) : M (Z * list gostring) :=
  stopped ← callStop stop i;
  if (stopped : bool) then ret (i, lines) else
  match n with
  | O => outOfFuel
  | S n' =>
    t ← tokenAt i;
    parseParagraph_loop n' (i + 1) stop (lines ++ [content t])
  end.

Definition parseParagraph_spec (X : Externals) : parseFn :=
  fun i parentStop =>
    let start := i in
    tStart ← tokenAt start;
    d ← get;
    '(i, lines) ← parseParagraph_loop (length (toks d)) (start + 1)
                    (paragraphStop parentStop) [content tStart];
    let text := Join lines [nl] in
    children ← liftInline (parseInline (S (length text)) X d text);
    tEnd ← tokenAt (i - 1);
    ret (i - start,
         Some (Paragraph children
                 (mkPosition (line tStart) (startCol tStart)
                             (line tEnd) (endCol tEnd)))).

(** Modelled from the spec: [isSecondBlankLine] is defined outside the
    files at hand. It tells "a second consecutive blank line": the token
    at [i] and the one before it are both plain text with empty content.
    There is no second line at the first two indices. *)
Definition isSecondBlankLine_spec : Document -> Z -> option bool :=
  fun d i =>
    if i - 1 <=? 0 then Some false else
    t1 ← tokAt d (i - 1);
    t2 ← tokAt d i;
    Some (isBlankText t1 && isBlankText t2).

(** A stand-in for an absent parser: it takes the one line it is started
    on when the token is of a kind parseOne hands it, and panics on any
    other. *)
Definition takeOneOf (kinds : list gostring) (tag : gostring) : parseFn :=
  fun i stop =>
    t ← tokenAt i;
    if existsb (str_eqb (kind t)) kinds
    then ret (1, Some (OtherNode tag [] (getPositionFromToken t)))
    else panic (str "not modelled").

(** The block parser with the paragraph parser and the blank-line test
    modelled from the spec, and every other absent parser replaced by its
    stand-in. *)
Definition totalBlock (fns : list lexFn) : BlockExternals :=
  mkBlockExternals fns plainTextRegexp_spec isSecondBlankLine_spec
    (takeOneOf [str "tableRow"; str "tableSeparator"] (str "table"))
    (takeOneOf [str "beginBlock"] (str "block"))
    (takeOneOf [str "beginLatexBlock"] (str "latexBlock"))
    (takeOneOf [str "result"] (str "result"))
    (takeOneOf [str "beginDrawer"] (str "drawer"))
    (parseParagraph_spec noExternals)
    (takeOneOf [str "example"] (str "example"))
    (takeOneOf [str "horizontalRule"] (str "horizontalRule"))
    (takeOneOf [str "comment"] (str "comment"))
    (takeOneOf [str "keyword"] (str "keyword"))
    (takeOneOf [str "headline"] (str "headline")).

(** ** What the termination of the block parser takes for granted

    Most of the matchers, most of the parsers parseOne dispatches to,
    [isSecondBlankLine] and [plainTextRegexp] are outside the files at hand.
    [BlockAssumptions] says what is asked of them, in terms of [TokOK], the
    tokens the matchers can produce, and [mu], a bound on how often the line
    of a token can be re-tokenized:
    - the plain-text pattern is the one modelled from the spec;
    - [isSecondBlankLine] returns at every index inside the buffer;
    - the [ResolveLink] callback returns;
    - a match of the inline source block pattern is longer than three
      bytes;
    - a token of the matchers has its whole-line submatch, a list token
      has its bullet and a level that is not negative, a
      footnote-definition token its second submatch, and the content of a
      token is no longer than [mu] allows;
    - the text token of the recovery of parseOne is a token of the
      matchers;
    - the line parseListItem re-tokenizes gives a token that is cheaper,
      indented at least as far as the item body (or blank) and neither a
      headline nor a footnote definition, and the line
      parseFootnoteDefinition re-tokenizes gives a cheaper token;
    - each absent parser is well behaved on tokens of the kinds parseOne
      hands it, and the paragraph parser on text tokens, of which it
      takes at least one;
    - the tokens of the matcher table are tokens of the matchers. *)
Record BlockAssumptions (X : Externals) (B : BlockExternals)
    (cfg : Configuration) (TokOK : token -> Prop) (mu : token -> nat)
  : Prop := mkBlockAssumptions {
  (** Modelled from the spec: the plain-text pattern. *)
  ba_plainText : plainTextRegexp B = plainTextRegexp_spec;
  ba_blank : forall m d i,
    Inv TokOK cfg m d -> 0 <= i < Z.of_nat m ->
    is_Some (isSecondBlankLine B d i);
  ba_resolve : forall p ds l, is_Some (ResolveLink cfg p ds l);
  ba_inlineBlock : forall s m,
    inlineBlockRegexp X s = Some m -> (3 < length (sub m 0))%nat;
  ba_matches : forall t, TokOK t -> is_Some (matches t !! 0%nat);
  ba_list : forall t,
    TokOK t -> isListToken t = true -> is_Some (listKind t) /\ 0 <= lvl t;
  ba_foot : forall t,
    TokOK t -> str_eqb (kind t) (str "footnoteDefinition") = true ->
    is_Some (matches t !! 2%nat);
  ba_content : forall t, TokOK t -> (length (content t) <= mu t)%nat;
  ba_text : forall line_, TokOK (textTokenOf line_);
  ba_relex_item : forall t k,
    TokOK t -> isListToken t = true ->
    let t' := (tokenize B (itemLine k t)).1 in
    TokOK t' /\ (mu t' < mu t)%nat
    /\ (lvl t + Z.of_nat (length (sub (matches t) 2)) <= lvl t'
        \/ isBlankText t' = true)
    /\ str_eqb (kind t') (str "headline") = false
    /\ str_eqb (kind t') (str "footnoteDefinition") = false;
  ba_relex_foot : forall t l,
    TokOK t -> str_eqb (kind t) (str "footnoteDefinition") = true ->
    matches t !! 2%nat = Some l ->
    let t' := (tokenize B l).1 in TokOK t' /\ (mu t' < mu t)%nat;
  ba_absent :
    Forall (fun kp => WellBehaved TokOK cfg kp.1 kp.2) (absentParsers B);
  ba_para : forall m i stop d t,
    Guarded TokOK cfg m stop -> Inv TokOK cfg m d ->
    tokAt d i = Some t -> str_eqb (kind t) (str "text") = true ->
    stepOK TokOK cfg m 1 i d (parseParagraph B i stop d);
  ba_lex : forall line_ tok n,
    tokenize B line_ = (tok, true) -> TokOK (stamped tok n line_)
}.

(** ** The matchers at hand as a matcher table *)

(** The declared matcher table, with the matchers of the files at hand
    and the plain-text fallback in their places and, in the places of the
    absent matchers, stand-ins that classify nothing. *)
Definition sampleTable : list lexFn := declaredLexFns noLexers.

(** A token without the line and columns [Document.tokenize] stamps on
    it. *)
Definition unstamp (t : token) : token :=
  mkToken (kind t) (lvl t) (content t) (matches t) 0 0 0.

(** The tokens these matchers, and the recovery of parseOne, produce. *)
Definition sampleTokOK (t : token) : Prop :=
  exists line_,
    lexList line_ = (unstamp t, true)
    \/ lexFootnoteDefinition line_ = (unstamp t, true)
    \/ unstamp t = textTokenOf line_.

(** What is left of the match of a token after its indentation. *)
Definition sampleMu (t : token) : nat :=
  (length (sub (matches t) 0) - Z.to_nat (lvl t))%nat.

(** ** Regular links *)


(** * Properties *)

(** ** The error collector and the guard of [Parse] *)

Lemma AddError_Errors d typ message pos tok cause :
  Errors (AddError d typ message pos tok cause)
  = Errors d ++ [NewParseError typ message (Path d) pos tok cause].
Proof. reflexivity. Qed.

Lemma AddError_FatalError d typ message pos tok cause :
  FatalError (AddError d typ message pos tok cause) = FatalError d.
Proof. reflexivity. Qed.

Lemma AddError_toks d typ message pos tok cause :
  toks (AddError d typ message pos tok cause) = toks d.
Proof. reflexivity. Qed.

Lemma AddError_baseLvl d typ message pos tok cause :
  baseLvl (AddError d typ message pos tok cause) = baseLvl d.
Proof. reflexivity. Qed.

Lemma AddFatalError_HasFatalError d typ message pos tok cause :
  HasFatalError (AddFatalError d typ message pos tok cause) = true.
Proof. reflexivity. Qed.

Lemma Parse_recover_Errors msg d :
  Errors (Parse_recover msg d)
  = Errors d ++ [NewParseError ErrorTypeInvalidStructure (str "parse panic")
                   (Path d) (DPos d) token0
                   (Some (str "recovered from panic: " ++ msg))].
Proof. reflexivity. Qed.

(** C1. When the guarded body of [Parse] panics, the panic does not
    escape: [Parse] returns the session, with one more diagnostic, of kind
    invalid structure, at the end of its error list. The guard records
    that diagnostic with [AddError], not [AddFatalError]: the fatal-error
    slot is left as the panic found it, so that [HasFatalError] does not
    turn true. *)
Theorem Parse_guard_records_plain_error
    (fuel : nat) (X : Externals) (B : BlockExternals) (c : Configuration)
    (input : Reader) (path msg : gostring) (d' : Document)
    (Hpanic : Parse_body fuel X B input (newDocument c path) = Panicked msg d') :
  exists d, Parse fuel X B c input path = Some (Some d)
    /\ HasErrors d = true
    /\ (exists e, Errors d = Errors d' ++ [e]
                   /\ Type_ e = ErrorTypeInvalidStructure)
    /\ FatalError d = FatalError d'
    /\ HasFatalError d = HasFatalError d'.
Proof.
  exists (Parse_recover msg d').
  unfold Parse. rewrite Hpanic.
  repeat split.
  - unfold HasErrors. rewrite Parse_recover_Errors, length_app. simpl.
    apply Nat.ltb_lt. lia.
  - rewrite Parse_recover_Errors. eexists. split; reflexivity.
Qed.

(** The run of C1: a list item whose term holds a link, parsed under a
    configuration whose link resolver panics. [Parse] returns a session
    that holds the invalid-structure diagnostic and no fatal error. *)
Lemma Parse_guard_records_plain_error_witness :
  exists d,
    Parse 10 noExternals (sampleBlock sampleLexFns) panickingResolver
      (reader ["- [[a]] :: b"]) [] = Some (Some d)
    /\ Type_ <$> Errors d = [ErrorTypeInvalidStructure]
    /\ Nodes d = None
    /\ HasFatalError d = false.
Proof.
  destruct (Parse_body 10 noExternals (sampleBlock sampleLexFns)
              (reader ["- [[a]] :: b"]) (newDocument panickingResolver []))
    as [b d1 | msg d1 |] eqn:E; try (vm_compute in E; discriminate).
  destruct (Parse_guard_records_plain_error _ _ _ _ _ _ _ _ E)
    as (d & HP & _ & _ & _ & HF).
  exists d. split; [exact HP|].
  unfold Parse in HP. rewrite E in HP. injection HP as <-.
  vm_compute in E. injection E as <- <-.
  vm_compute. auto.
Defined.

(** [Parse] builds its session afresh: the token buffer it tests is the
    [nil] one of the document it has just allocated. *)
Lemma newDocument_tokens c path : tokens (newDocument c path) = None.
Proof. reflexivity. Qed.

Lemma Parse_never_nil fuel X B c input path :
  Parse fuel X B c input path <> Some None.
Proof.
  unfold Parse, Parse_body.
  unfold mbind, M_bind, bind, get. rewrite newDocument_tokens.
  unfold modify.
  destruct (parseManyTop fuel X B 0 topStop _) as [[n nodes] d1 | msg d1 |];
    simpl; congruence.
Qed.

(** C6. [Parse] is a method of the configuration and allocates a new
    session on every call, so the test for a token buffer that is already
    there never fires: no call returns [nil]. A second call on the same
    configuration parses its input again, and its session carries no
    diagnostic. *)
Theorem Parse_second_call_reparses :
  (forall fuel X B c input path, Parse fuel X B c input path <> Some None)
  /\ exists d1 d2,
       Parse 10 noExternals (sampleBlock sampleLexFns) New (reader ["a"]) []
       = Some (Some d1)
       /\ Parse 10 noExternals (sampleBlock sampleLexFns) New (reader ["b"]) []
          = Some (Some d2)
       /\ Nodes d2
          = Some [Paragraph [Text (str "b") false (mkPosition 0 0 0 1)]
                    (mkPosition 0 0 0 1)]
       /\ Errors d2 = [].
Proof.
  split; [exact Parse_never_nil|].
  eexists _, _.
  split; [vm_compute; reflexivity|].
  split; [vm_compute; reflexivity|].
  split; reflexivity.
Qed.

(** ** Tokenizing the input *)

Lemma tokenize_line_Path B line_ n d :
  Path (tokenize_line B line_ n d) = Path d.
Proof. unfold tokenize_line. destruct (tokenize B line_) as [tok []]; reflexivity. Qed.

Lemma tokenize_lines_spec B lines : forall n d,
  let '(n', d') := tokenize_lines B lines n d in
  n' = n + Z.of_nat (length lines)
  /\ toks d' = toks d ++ lineTokens B n lines
  /\ Errors d' = Errors d ++ lineErrors B (Path d) n lines
  /\ Path d' = Path d.
Proof.
  induction lines as [|line_ lines IH]; intros n d; simpl.
  - rewrite !app_nil_r. repeat split; lia.
  - specialize (IH (n + 1) (tokenize_line B line_ n d)).
    destruct (tokenize_lines B lines (n + 1) (tokenize_line B line_ n d))
      as [n' d'].
    destruct IH as (Hn & Ht & He & Hp).
    rewrite Hn, Ht, He, Hp, tokenize_line_Path.
    unfold tokenize_line.
    destruct (tokenize B line_) as [tok ok]; destruct ok; simpl;
      rewrite <- ?app_assoc; repeat split; try lia; try reflexivity.
    unfold toks at 1. simpl. rewrite <- app_assoc. reflexivity.
Qed.


(** ** The inline parser on concrete texts *)

Ltac open_document d :=
  let c := fresh "c" in
  destruct d as [c ? ? ? ? ? ? ? ? ? ? ? ? ?];
  destruct c as [? ? ? ?]; simpl in *; subst.

(** C5. With auto-linking on, "see https://example.com/x here" parses
    into the text before the link, a [RegularLink] of protocol "https" and
    URL "https://example.com/x" marked as an automatic link, and the text
    after it. "xhttps://example.com" parses into one text node: the
    letters before "://" are "xhttps", which is no recognized scheme. This
    holds whatever the other patterns and callbacks are. *)
Theorem parseInline_autolink
    (fuel : nat) (X : Externals) (d : Document)
    (Hauto : AutoLink (Config d) = true) :
  parseInline (S fuel) X d (str "see https://example.com/x here")
  = ROk [Text (str "see ") false (mkPosition 0 0 0 4);
         RegularLink (str "https") [] (str "https://example.com/x") true
           (mkPosition 0 4 0 25);
         Text (str " here") false (mkPosition 0 25 0 30)]
  /\ parseInline (S fuel) X d (str "xhttps://example.com")
     = ROk [Text (str "xhttps://example.com") false (mkPosition 0 0 0 20)].
Proof.
  open_document d.
  split; vm_compute; reflexivity.
Qed.

Lemma parseInline_autolink_witness :
  parseInline 1 noExternals (newDocument New [])
    (str "see https://example.com/x here")
  = ROk [Text (str "see ") false (mkPosition 0 0 0 4);
         RegularLink (str "https") [] (str "https://example.com/x") true
           (mkPosition 0 4 0 25);
         Text (str " here") false (mkPosition 0 25 0 30)]
  /\ parseInline 1 noExternals (newDocument New [])
       (str "xhttps://example.com")
     = ROk [Text (str "xhttps://example.com") false (mkPosition 0 0 0 20)].
Proof.
  apply (parseInline_autolink 0 noExternals (newDocument New [])).
  reflexivity.
Defined.

(** ** Footnote references *)

Lemma byte_eqb_eq a b : byte_eqb a b = true <-> a = b.
Proof. apply Ascii.eqb_eq. Qed.

Lemma str_eqb_eq a : forall b, str_eqb a b = true <-> a = b.
Proof.
  induction a as [|x a IH]; intros [|y b]; simpl; split; intros H;
    try congruence; try reflexivity.
  - apply andb_true_iff in H as [H1 H2].
    apply byte_eqb_eq in H1. apply IH in H2. congruence.
  - injection H as -> ->. apply andb_true_iff. split.
    + apply byte_eqb_eq; reflexivity.
    + apply IH; reflexivity.
Qed.

Lemma str_eqb_nil a : str_eqb a [] = true <-> a = [].
Proof. apply str_eqb_eq. Qed.

Lemma str_eqb_nil_false a : str_eqb a [] = false <-> a <> [].
Proof.
  rewrite <- str_eqb_nil. destruct (str_eqb a []); split; congruence.
Qed.

(** C10. A footnote reference whose name and inline definition are both
    empty is no match for the footnote-reference scanner: for "[fn:]" it
    returns consumed 0 and no node, and so does the scanner of "[", so
    that inline parsing gives the text back as one [Text] node. When the
    scanner does return a node, it is a [FootnoteLink] named after group 1
    that spans the whole match, and its [Definition] is set exactly when
    group 3, the inline definition, is not empty; the definition it then
    holds is marked [Inline] and carries the same name. *)
Theorem parseFootnoteReference_definition :
  (forall rec sl sc,
     parseFootnoteReferenceWithPos rec (str "[fn:]") 0 sl sc = ROk (O, None))
  /\ (forall X d rec sl sc,
        parseOpeningBracketWithPos X d rec (str "[fn:]") 0 sl sc
        = ROk (O, None))
  /\ (forall fuel X d,
        parseInline (S fuel) X d (str "[fn:]")
        = ROk [Text (str "[fn:]") false (mkPosition 0 0 0 5)])
  /\ (forall rec input start sl sc m,
        footnoteRegexp (drop start input) = Some m ->
        sub m 1 = [] -> sub m 3 = [] ->
        parseFootnoteReferenceWithPos rec input start sl sc = ROk (O, None))
  /\ (forall rec input start sl sc consumed node,
        parseFootnoteReferenceWithPos rec input start sl sc
        = ROk (consumed, Some node) ->
        exists m def,
          footnoteRegexp (drop start input) = Some m
          /\ consumed = length (sub m 0)
          /\ node = FootnoteLink (sub m 1) def
                      (positionFromChars input sl sc start (start + consumed))
          /\ (is_Some def <-> sub m 3 <> [])
          /\ (forall f, def = Some f ->
                fdInline f = true /\ fdName f = sub m 1)).
Proof.
  split; [intros; vm_compute; reflexivity|].
  split; [intros; vm_compute; reflexivity|].
  split.
  { intros fuel X d. open_document d.
    match goal with b : bool |- _ => destruct b end; vm_compute; reflexivity. }
  split.
  - intros rec input start sl sc m Hm Hname Hdef.
    unfold parseFootnoteReferenceWithPos. rewrite Hm, Hname, Hdef. reflexivity.
  - intros rec input start sl sc consumed node H.
    unfold parseFootnoteReferenceWithPos in H.
    destruct (footnoteRegexp (drop start input)) as [m|] eqn:Hm;
      [|discriminate].
    exists m.
    destruct (str_eqb (sub m 1) [] && str_eqb (sub m 3) []) eqn:Hboth;
      [discriminate|].
    destruct (str_eqb (sub m 3) []) eqn:Hdef; simpl in H.
    + injection H as <- <-. exists None.
      apply str_eqb_nil in Hdef.
      repeat split; try reflexivity.
      * intros [f Hf]; discriminate.
      * intros Hne; contradiction.
      * discriminate.
      * discriminate.
    + destruct (rec (sub m 3) sl _) as [children| |]; simpl in H;
        try discriminate.
      injection H as <- <-. eexists.
      apply str_eqb_nil_false in Hdef.
      repeat split; try reflexivity.
      * intros _; exact Hdef.
      * intros _; eexists; reflexivity.
      * injection H as <-. reflexivity.
      * injection H as <-. reflexivity.
Qed.

(** The theorem at "see [fn:1:a note] and [fn:2]": the first reference
    carries an inline definition, the second one does not. *)
Lemma parseFootnoteReference_definition_witness :
  (exists c p d q,
     parseFootnoteReferenceWithPos (parseInlineWithPos 1 noExternals
                                      (newDocument New []))
       (str "see [fn:1:a note] and [fn:2]") 4 0 0
     = ROk (c, Some (FootnoteLink (str "1") (Some d) p))
     /\ c = 13%nat
     /\ d = mkFootnoteDefinition (str "1")
              [Paragraph [Text (str "a note") false q] Position0] true
              Position0)
  /\ (exists c p,
        parseFootnoteReferenceWithPos (parseInlineWithPos 1 noExternals
                                         (newDocument New []))
          (str "see [fn:1:a note] and [fn:2]") 22 0 0
        = ROk (c, Some (FootnoteLink (str "2") None p))).
Proof.
  pose proof parseFootnoteReference_definition as (_ & _ & _ & _ & H).
  split.
  - destruct (H (parseInlineWithPos 1 noExternals (newDocument New []))
                (str "see [fn:1:a note] and [fn:2]") 4%nat 0 0 13%nat
                (FootnoteLink (str "1")
                   (Some (mkFootnoteDefinition (str "1")
                            [Paragraph [Text (str "a note") false
                                          (mkPosition 0 10 0 16)] Position0]
                            true Position0))
                   (mkPosition 0 4 0 17))
                eq_refl) as (m & def & _).
    eexists _, _, _, _. split; [|split]; reflexivity.
  - eexists _, _. reflexivity.
Defined.

(** ** The outline builder *)

Lemma newDocument_outline_ok c path : outline_ok (newDocument c path).
Proof.
  split; [|split]; simpl.
  - intros [|a] sec ch Hsec Hin; simpl in Hsec; [|discriminate].
    injection Hsec as <-. inversion Hin.
  - lia.
  - constructor.
Qed.

Lemma linked_mono ss ss' root a :
  (forall p sec, ss !! p = Some sec ->
     exists sec', ss' !! p = Some sec'
                  /\ forall c, c ∈ sChildren sec -> c ∈ sChildren sec') ->
  linked ss root a -> linked ss' root a.
Proof.
  intros Hext H. induction H as [|parent sec child _ IH Hsec Hin].
  - constructor.
  - destruct (Hext _ _ Hsec) as (sec' & Hsec' & Hsub).
    eapply linked_child; eauto.
Qed.

(** What the section store looks like after [addHeadline]. *)
Lemma addHeadline_sections IsExcluded h d sec :
  sections d !! last (Outline_ d) = Some sec ->
  sections (addHeadline IsExcluded h d).2
  = <[last (Outline_ d) :=
        mkSection (sHeadline sec) (sChildren sec ++ [length (sections d)])]>
      (sections d ++ [mkSection (Some h) []]).
Proof.
  intros Hsec. unfold addHeadline, Section_add. simpl.
  rewrite lookup_app_l by (apply lookup_lt_Some in Hsec; exact Hsec).
  rewrite Hsec. reflexivity.
Qed.

(** C8. [addHeadline] allocates a new [Section] around the headline,
    appends its address to the child list of the section the cursor
    [last] points to, moves the cursor to the new section, adds one to the
    visible count exactly when the headline is not excluded, and returns
    the count. The outline of a fresh session is well formed, and
    [addHeadline] keeps it so: the cursor stays linked into the tree under
    the root. No section is re-parented: a section that was there keeps
    its headline and its children, in order, at most gaining the new
    child, and the new section becomes the child of the old cursor
    section only. *)
Theorem addHeadline_links_under_cursor :
  (forall c path, outline_ok (newDocument c path))
  /\ forall (IsExcluded : Headline -> Document -> bool) (h : Headline)
       (d : Document),
     outline_ok d ->
     let new := length (sections d) in
     let cursor := last (Outline_ d) in
     let n := (addHeadline IsExcluded h d).1 in
     let d' := (addHeadline IsExcluded h d).2 in
     exists sec,
       sections d !! cursor = Some sec
       /\ length (sections d') = S new
       /\ sections d' !! new = Some (mkSection (Some h) [])
       /\ sections d' !! cursor
          = Some (mkSection (sHeadline sec) (sChildren sec ++ [new]))
       /\ (forall a, a <> cursor -> a <> new ->
                     sections d' !! a = sections d !! a)
       /\ last (Outline_ d') = new
       /\ oSection (Outline_ d') = oSection (Outline_ d)
       /\ count (Outline_ d')
          = count (Outline_ d)
            + (if IsExcluded h (set_Outline d (Outline_ d) (sections d'))
               then 0 else 1)
       /\ n = count (Outline_ d')
       /\ outline_ok d'
       /\ (forall a sec', sections d' !! a = Some sec' ->
                          new ∈ sChildren sec' -> a = cursor).
Proof.
  split; [exact newDocument_outline_ok|].
  intros IsExcluded h d (Hptr & Hlast & Hlinked) new cursor n d'.
  destruct (lookup_lt_is_Some_2 _ _ Hlast) as [sec Hsec].
  exists sec.
  pose proof (addHeadline_sections IsExcluded h d sec Hsec) as Hss.
  fold d' new cursor in Hss.
  assert (Hlen : length (sections d') = S new).
  { rewrite Hss, length_insert, length_app. simpl. unfold new. lia. }
  assert (Hnew : sections d' !! new = Some (mkSection (Some h) [])).
  { rewrite Hss, list_lookup_insert_ne by (unfold cursor, new; lia).
    rewrite lookup_app_r by (unfold new; lia).
    unfold new. rewrite Nat.sub_diag. reflexivity. }
  assert (Hcur : sections d' !! cursor
                 = Some (mkSection (sHeadline sec) (sChildren sec ++ [new]))).
  { rewrite Hss. apply list_lookup_insert_eq.
    rewrite length_app. simpl. unfold cursor. lia. }
  assert (Hother : forall a, a <> cursor -> a <> new ->
                             sections d' !! a = sections d !! a).
  { intros a Hac Han. rewrite Hss, list_lookup_insert_ne by congruence.
    destruct (decide (a < new)%nat) as [Hlt|Hge].
    - apply lookup_app_l. exact Hlt.
    - rewrite !lookup_ge_None_2; [reflexivity|unfold new in *; lia|].
      rewrite length_app. simpl. unfold new in *. lia. }
  assert (Hext : forall p s, sections d !! p = Some s ->
            exists s', sections d' !! p = Some s'
                       /\ forall c, c ∈ sChildren s -> c ∈ sChildren s').
  { intros p s Hp. destruct (decide (p = cursor)) as [->|Hne].
    - eexists. split; [exact Hcur|]. simpl. intros c Hc.
      unfold cursor in Hp. rewrite Hsec in Hp. injection Hp as <-.
      set_solver.
    - exists s. split; [|auto].
      rewrite Hother; [exact Hp|exact Hne|].
      apply lookup_lt_Some in Hp. unfold new. lia. }
  repeat split; try assumption; try reflexivity.
  - unfold d', addHeadline. simpl.
    destruct (IsExcluded h _); reflexivity.
  - unfold d', addHeadline. simpl.
    destruct (IsExcluded h _); simpl; lia.
  - (* child pointers stay in range *)
    intros a s c Ha Hc. rewrite Hlen.
    destruct (decide (a = cursor)) as [->|Hac].
    + rewrite Hcur in Ha. injection Ha as <-. simpl in Hc.
      apply elem_of_app in Hc as [Hc|Hc].
      * specialize (Hptr _ _ _ Hsec Hc). unfold new. lia.
      * apply list_elem_of_singleton in Hc. lia.
    + destruct (decide (a = new)) as [->|Han].
      * rewrite Hnew in Ha. injection Ha as <-. inversion Hc.
      * rewrite Hother in Ha by assumption.
        specialize (Hptr _ _ _ Ha Hc). unfold new. lia.
  - rewrite Hlen. unfold d', addHeadline. simpl. fold new. lia.
  - (* the new cursor is linked *)
    assert (oSection (Outline_ d') = oSection (Outline_ d)) as ->.
    { unfold d', addHeadline. simpl. destruct (IsExcluded h _); reflexivity. }
    change (last (Outline_ d')) with new.
    eapply linked_child.
    + eapply linked_mono; [exact Hext|exact Hlinked].
    + exact Hcur.
    + simpl. set_solver.
  - (* the new section has one parent *)
    intros a s Ha Hin.
    destruct (decide (a = cursor)) as [->|Hac]; [reflexivity|].
    exfalso. destruct (decide (a = new)) as [->|Han].
    + rewrite Hnew in Ha. injection Ha as <-. inversion Hin.
    + rewrite Hother in Ha by assumption.
      specialize (Hptr _ _ _ Ha Hin). unfold new in Hptr. lia.
Qed.

Lemma addHeadline_links_under_cursor_witness :
  let d := newDocument New [] in
  let h := mkHeadline 1 [Text (str "Title") false Position0] [] in
  let d' := (addHeadline (fun _ _ => false) h d).2 in
  outline_ok d
  /\ sections d' = [mkSection None [1%nat]; mkSection (Some h) []]
  /\ Outline_ d' = mkOutline 0 1 1
  /\ (addHeadline (fun _ _ => false) h d).1 = 1
  /\ outline_ok d'.
Proof.
  destruct addHeadline_links_under_cursor as [Hinit Hstep].
  pose proof (Hinit New []) as Hok.
  destruct (Hstep (fun _ _ => false)
              (mkHeadline 1 [Text (str "Title") false Position0] [])
              (newDocument New []) Hok)
    as (sec & _ & _ & _ & _ & _ & _ & _ & _ & _ & Hok' & _).
  cbv zeta. split; [exact Hok|].
  split; [reflexivity|]. split; [reflexivity|]. split; [reflexivity|].
  exact Hok'.
Defined.

(** ** Reasoning about computations of the block parser *)

Lemma bind_Done_inv {A B} (m : M A) (k : A -> M B) d r d' :
  (x ← m; k x) d = Done r d' ->
  exists a d1, m d = Done a d1 /\ k a d1 = Done r d'.
Proof.
  unfold mbind, M_bind, bind. destruct (m d) as [a d1| |]; try discriminate.
  intros H. exists a, d1. split; [reflexivity|exact H].
Qed.

Lemma tokenAt_Done i d t d1 :
  tokenAt i d = Done t d1 -> d1 = d /\ tokAt d i = Some t.
Proof.
  unfold tokenAt. destruct (tokAt d i); intros H; inversion H; auto.
Qed.

Lemma index_Done {A} (s : list A) k d a d1 :
  index s k d = Done a d1 -> d1 = d /\ s !! k = Some a.
Proof.
  unfold index. destruct (s !! k); intros H; inversion H; auto.
Qed.

Lemma callStop_Done stop i d b d1 :
  callStop stop i d = Done b d1 -> d1 = d /\ stop d i = Some b.
Proof.
  unfold callStop. destruct (stop d i); intros H; inversion H; auto.
Qed.

Lemma liftInline_Done {A} (r : Result A) d a d1 :
  liftInline r d = Done a d1 -> d1 = d /\ r = ROk a.
Proof.
  unfold liftInline. destruct r; intros H; inversion H; auto.
Qed.

Lemma assignToken_Done i t d u d1 :
  assignToken i t d = Done u d1 -> d1 = setTok d i t /\ is_Some (tokAt d i).
Proof.
  unfold assignToken. intros H.
  apply bind_Done_inv in H as (a & d2 & H1 & H2).
  apply tokenAt_Done in H1 as [-> H1].
  inversion H2. split; [reflexivity|eauto].
Qed.

Lemma setTok_baseLvl d i t : baseLvl (setTok d i t) = baseLvl d.
Proof. reflexivity. Qed.

Lemma retokenize_Done B i line_ d u d1 :
  retokenize B i line_ d = Done u d1 ->
  is_Some (tokAt d i)
  /\ baseLvl d1 = baseLvl d
  /\ toks d1 = <[Z.to_nat i := (tokenize B line_).1]> (toks d)
  /\ Errors d1
     = Errors d ++
       (if (tokenize B line_).2 then []
        else [NewParseError ErrorTypeTokenization (str "could not lex line")
                (Path d) (getPositionFromToken (tokenize B line_).1)
                (tokenize B line_).1 (Errorf (str "no lexer matched: %q"))]).
Proof.
  unfold retokenize. destruct (tokenize B line_) as [tok ok]. simpl.
  intros H. apply bind_Done_inv in H as (a & d2 & H1 & H2).
  apply assignToken_Done in H1 as [-> Hsome].
  destruct Hsome as [t0 Ht0].
  assert (Hrange : (Z.to_nat i < length (toks d))%nat).
  { unfold tokAt in Ht0. destruct (i <? 0); [discriminate|].
    apply lookup_lt_Some in Ht0. exact Ht0. }
  destruct ok; simpl in H2.
  - inversion H2. subst. rewrite app_nil_r. split; [eauto|].
    repeat split; reflexivity.
  - apply bind_Done_inv in H2 as (t & d3 & H3 & H4).
    apply tokenAt_Done in H3 as [-> H3].
    unfold tokAt in H3. destruct (i <? 0) eqn:Hi.
    { unfold tokAt in Ht0. rewrite Hi in Ht0. discriminate. }
    unfold setTok, toks in H3. simpl in H3.
    rewrite list_lookup_insert_eq in H3 by exact Hrange.
    injection H3 as <-.
    inversion H4. subst. split; [eauto|]. repeat split; reflexivity.
Qed.

(** ** List items and [baseLvl] *)

Lemma nth_lookup_Some {A} (l : list A) k a dflt :
  l !! k = Some a -> nth k l dflt = a.
Proof.
  revert k. induction l as [|x l IH]; intros [|k] H; simpl in *;
    try discriminate; [congruence|auto].
Qed.

Lemma parseListItem_enter_Done B l_Kind i d bullet minIndent dterm status
    value orig d1 :
  parseListItem_enter B l_Kind i d
  = Done (bullet, minIndent, dterm, status, value, orig) d1 ->
  exists t, tokAt d i = Some t
    /\ matches t !! 2%nat = Some bullet
    /\ minIndent = lvl t + Z.of_nat (length bullet)
    /\ orig = baseLvl d
    /\ baseLvl d1 = bodyBaseLvl l_Kind t.
Proof.
  unfold parseListItem_enter. intros H.
  apply bind_Done_inv in H as (t & d2 & Ht & H).
  apply tokenAt_Done in Ht as [-> Ht].
  apply bind_Done_inv in H as (b & d2 & Hb & H).
  apply index_Done in Hb as [-> Hb].
  apply bind_Done_inv in H as (d0 & d2 & Hg & H).
  inversion Hg; subst d0 d2; clear Hg.
  apply bind_Done_inv in H as (u & d2 & Hm & H).
  inversion Hm; subst d2; clear Hm.
  exists t. split; [exact Ht|].
  unfold bodyBaseLvl, itemContent. unfold sub in *.
  rewrite (nth_lookup_Some _ _ _ [] Hb).
  destruct (listItemValueRegexp (content t)) as [mv|];
    [destruct (bool_decide (l_Kind = OrderedList))|];
    cbv beta iota zeta in H |- *.
  all: match type of H with
       | context [listItemStatusRegexp ?c] =>
         destruct (listItemStatusRegexp c) as [ms|]
       end; cbv beta iota zeta in H |- *.
  all: destruct (bool_decide (l_Kind = DescriptiveList)); simpl andb.
  all: try match type of H with
       | context [descriptiveListItemRegexp ?c] =>
         try match goal with
             | |- context [descriptiveListItemRegexp ?c'] =>
               change (descriptiveListItemRegexp c')
                 with (descriptiveListItemRegexp c)
             end;
         destruct (descriptiveListItemRegexp c) as [[m0 m1]|]
       end; cbv beta iota zeta in H |- *.
  all: apply bind_Done_inv in H as (p & d2 & Hd & H).
  all: try (apply bind_Done_inv in Hd as (l0 & d3 & Hl0 & Hd);
            apply index_Done in Hl0 as [-> Hl0];
            apply bind_Done_inv in Hd as (u1 & d4 & Hm1 & Hd);
            inversion Hm1; subst d4; clear Hm1;
            rewrite (nth_lookup_Some _ _ _ [] Hl0)).
  all: inversion Hd; subst p d2; clear Hd.
  all: apply bind_Done_inv in H as (u2 & d2 & Hneg & H).
  all: destruct (lvl t + Z.of_nat (length b) <? 0); [discriminate Hneg|].
  all: inversion Hneg; subst d2; clear Hneg.
  all: apply bind_Done_inv in H as (u3 & d2 & Hre & H).
  all: apply retokenize_Done in Hre as (_ & Hbl & _).
  all: inversion H; subst; clear H.
  all: rewrite Hbl; simpl; repeat split; try assumption; reflexivity.
Qed.




(** ** Emphasis *)

Lemma newlines_nonneg s : 0 <= newlines s.
Proof. induction s as [|c s IH]; simpl; [lia|]. destruct (byte_eqb c nl); lia. Qed.

Lemma drop_cons_lookup {A} (l : list A) i c rest :
  drop i l = c :: rest -> l !! i = Some c /\ drop (S i) l = rest.
Proof.
  revert i. induction l as [|x l IH]; intros [|i] H; simpl in *;
    try discriminate.
  - injection H as -> ->. split; [reflexivity|apply drop_0].
  - apply IH in H. exact H.
Qed.

Lemma slice_cons (input : gostring) i j c :
  input !! i = Some c -> (i < j)%nat ->
  slice input i j = c :: slice input (S i) j.
Proof.
  intros Hc Hlt. unfold slice.
  rewrite (drop_S _ _ _ Hc).
  replace (j - i)%nat with (S (j - S i)) by lia. reflexivity.
Qed.

Lemma slice_empty (input : gostring) i : slice input i i = [].
Proof. unfold slice. rewrite Nat.sub_diag. reflexivity. Qed.

(** What the search loop returns is a closing position. *)
Lemma parseEmphasis_loop_sound maxNL input start marker :
  forall rest i n j,
    drop i input = rest ->
    parseEmphasis_loop maxNL input start marker rest i n = Some j ->
    (i <= j)%nat
    /\ input !! j = Some marker
    /\ j <> (start + 1)%nat
    /\ hasValidPostAndBorderChars input j = true
    /\ n + newlines (slice input i j) <= maxNL.
Proof.
  induction rest as [|c rest IH]; intros i n j Hdrop H; simpl in H;
    [discriminate|].
  apply drop_cons_lookup in Hdrop as [Hc Hrest].
  destruct (n <=? maxNL) eqn:Hn; [|discriminate].
  apply Z.leb_le in Hn.
  destruct (byte_eqb c marker && negb (i =? start + 1)%nat
            && hasValidPostAndBorderChars input i) eqn:Hhit.
  - injection H as <-.
    apply andb_true_iff in Hhit as [Hhit Hpost].
    apply andb_true_iff in Hhit as [Hm Hne].
    apply byte_eqb_eq in Hm. subst c.
    apply negb_true_iff, Nat.eqb_neq in Hne.
    rewrite slice_empty. simpl. repeat split; auto; lia.
  - apply IH in H; [|exact Hrest].
    destruct H as (Hle & Hj & Hne & Hpost & Hnl).
    repeat split; auto; [lia|].
    rewrite (slice_cons _ _ _ _ Hc) by lia. simpl.
    destruct (byte_eqb c nl); lia.
Qed.

(** The search loop finds the first closing position, if there is one. *)
Lemma parseEmphasis_loop_complete maxNL input start marker :
  forall rest i n j,
    drop i input = rest ->
    (i <= j)%nat ->
    input !! j = Some marker ->
    j <> (start + 1)%nat ->
    hasValidPostAndBorderChars input j = true ->
    n + newlines (slice input i j) <= maxNL ->
    exists j', parseEmphasis_loop maxNL input start marker rest i n = Some j'
               /\ (j' <= j)%nat.
Proof.
  induction rest as [|c rest IH]; intros i n j Hdrop Hle Hj Hne Hpost Hnl.
  - exfalso. apply lookup_lt_Some in Hj.
    assert (length (drop i input) = 0%nat) by (rewrite Hdrop; reflexivity).
    rewrite length_drop in H. lia.
  - apply drop_cons_lookup in Hdrop as [Hc Hrest]. simpl.
    pose proof (newlines_nonneg (slice input i j)) as Hnn.
    destruct (n <=? maxNL) eqn:Hn; [|apply Z.leb_gt in Hn; lia].
    destruct (byte_eqb c marker && negb (i =? start + 1)%nat
              && hasValidPostAndBorderChars input i) eqn:Hhit.
    + exists i. split; [reflexivity|exact Hle].
    + destruct (decide (i = j)) as [->|Hij].
      * exfalso. rewrite Hc in Hj. injection Hj as ->.
        assert (Hmm : byte_eqb marker marker = true)
          by (apply byte_eqb_eq; reflexivity).
        apply Nat.eqb_neq in Hne.
        rewrite Hmm, Hpost, Hne in Hhit. discriminate.
      * rewrite (slice_cons _ _ _ _ Hc) in Hnl by lia. simpl in Hnl.
        destruct (IH (S i) (if byte_eqb c nl then n + 1 else n) j Hrest)
          as (j' & Hj' & Hle'); auto; try lia.
        { destruct (byte_eqb c nl); lia. }
        exists j'. split; [exact Hj'|lia].
Qed.

Lemma parseEmphasis_loop_closes maxNL input start marker j :
  input !! start = Some marker ->
  parseEmphasis_loop maxNL input start marker (drop (start + 1) input)
    (start + 1) 0 = Some j ->
  closesAt maxNL input start j
  /\ forall j', closesAt maxNL input start j' -> (j <= j')%nat.
Proof.
  intros Hm Hloop.
  pose proof (parseEmphasis_loop_sound _ _ _ _ _ _ _ _ eq_refl Hloop)
    as (Hle & Hj & Hne & Hpost & Hnl).
  unfold hasValidPostAndBorderChars in Hpost.
  apply andb_true_iff in Hpost as [Hpost Hborder].
  split.
  - unfold closesAt. rewrite Hj, Hm. repeat split; eauto; lia.
  - intros j' (Hlt' & _ & Hj' & Hborder' & Hpost' & Hnl').
    rewrite Hm in Hj'.
    destruct (parseEmphasis_loop_complete maxNL input start marker
                (drop (start + 1) input) (start + 1) 0 j' eq_refl)
      as (j'' & Hloop'' & Hle''); try assumption; try lia.
    + unfold hasValidPostAndBorderChars. rewrite Hpost', Hborder'. reflexivity.
    + congruence.
Qed.

Lemma parseEmphasis_loop_none maxNL input start marker :
  input !! start = Some marker ->
  parseEmphasis_loop maxNL input start marker (drop (start + 1) input)
    (start + 1) 0 = None ->
  forall j, ~ closesAt maxNL input start j.
Proof.
  intros Hm Hloop j (Hlt & _ & Hj & Hborder & Hpost & Hnl).
  rewrite Hm in Hj.
  destruct (parseEmphasis_loop_complete maxNL input start marker
              (drop (start + 1) input) (start + 1) 0 j eq_refl)
    as (j' & Hloop' & _); try assumption; try lia.
  - unfold hasValidPostAndBorderChars. rewrite Hpost, Hborder. reflexivity.
  - congruence.
Qed.

(** C4, as the code has it. For a marker at [start], the emphasis scanner
    reports no match (consumed 0, no node) exactly when the conditions
    fail: the character before the marker is a valid pre-character, the
    one after it is no white space, and some later byte closes the
    emphasis within the newline bound ([closesAt]). When they hold, the
    scanner takes the first closing position [j], parses the content
    between the markers, and returns consumed [j + 1 - start] with an
    [Emphasis] node of the marker's kind. Too many newlines make the
    conditions fail, which is a failed match and not an error. *)
Theorem parseEmphasis_match_iff
    (d : Document) (rec : gostring -> Z -> Z -> Result (list Node))
    (input : gostring) (start : nat) (isRaw : bool) (sl sc : Z)
    (Hstart : (start < length input)%nat) :
  let maxNL := MaxEmphasisNewLines (Config d) in
  let result := parseEmphasisWithPos d rec input start isRaw sl sc in
  (result = ROk (O, None) <-> ~ emphasisConds maxNL input start)
  /\ (emphasisConds maxNL input start ->
      exists j,
        closesAt maxNL input start j
        /\ (forall j', closesAt maxNL input start j' -> (j <= j')%nat)
        /\ result
           = (content ← emphasisContent rec input start j isRaw sl sc;
              ROk ((j + 1 - start)%nat,
                   Some (Emphasis (slice input start (start + 1)) content
                           (positionFromChars input sl sc start (j + 1))))))
  /\ (forall consumed node,
        result = ROk (consumed, node) ->
        (consumed <> O <-> emphasisConds maxNL input start)
        /\ (node = None <-> consumed = O)).
Proof.
  intros maxNL result.
  destruct (lookup_lt_is_Some_2 _ _ Hstart) as [marker Hm].
  assert (Hres :
    (~ emphasisConds maxNL input start /\ result = ROk (O, None))
    \/ (emphasisConds maxNL input start /\
        exists j,
          closesAt maxNL input start j
          /\ (forall j', closesAt maxNL input start j' -> (j <= j')%nat)
          /\ result
             = (content ← emphasisContent rec input start j isRaw sl sc;
                ROk ((j + 1 - start)%nat,
                     Some (Emphasis (slice input start (start + 1)) content
                             (positionFromChars input sl sc start (j + 1))))))).
  { unfold result, parseEmphasisWithPos. rewrite Hm. simpl default.
    fold maxNL.
    destruct (hasValidPreAndBorderChars input start) eqn:Hpre; simpl negb;
      cbv iota.
    - unfold hasValidPreAndBorderChars in Hpre.
      apply andb_true_iff in Hpre as [Hborder Hprec].
      destruct (parseEmphasis_loop maxNL input start marker
                  (drop (start + 1) input) (start + 1) 0) as [j|] eqn:Hloop.
      + right.
        destruct (parseEmphasis_loop_closes _ _ _ _ _ Hm Hloop)
          as [Hclose Hleast].
        split; [unfold emphasisConds; eauto|].
        exists j. split; [exact Hclose|]. split; [exact Hleast|].
        unfold emphasisContent. destruct isRaw; reflexivity.
      + left. split; [|reflexivity].
        intros (_ & _ & j & Hc).
        exact (parseEmphasis_loop_none _ _ _ _ Hm Hloop j Hc).
    - left. split; [|reflexivity].
      intros (Hprec & Hborder & _).
      unfold hasValidPreAndBorderChars in Hpre.
      rewrite Hprec, Hborder in Hpre. discriminate. }
  assert (Hpos : forall j, closesAt maxNL input start j ->
                           (j + 1 - start <> 0)%nat).
  { intros j (Hlt & _). lia. }
  destruct Hres as [[Hn Hr]|(Hc & j & Hclose & Hleast & Hr)].
  - split; [|split].
    + split; [intros _; exact Hn|intros _; exact Hr].
    + intros Hc. contradiction.
    + intros consumed node Hok. rewrite Hr in Hok.
      injection Hok as <- <-.
      split; split; try tauto; try congruence.
  - split; [|split].
    + split; [|intros Hn; contradiction].
      rewrite Hr. intros Hz. exfalso.
      destruct (emphasisContent rec input start j isRaw sl sc);
        simpl in Hz; discriminate.
    + intros _. exists j. auto.
    + intros consumed node Hok. rewrite Hr in Hok.
      destruct (emphasisContent rec input start j isRaw sl sc);
        simpl in Hok; try discriminate.
      injection Hok as <- <-.
      pose proof (Hpos j Hclose).
      split; split; try tauto; try congruence.
Qed.

(** The valid pre-characters: whatever decodes to [RuneError], which is
    U+FFFD (the start of the text, bytes that are not UTF-8, and the
    replacement character itself), white space, and the five punctuation
    marks. *)
Lemma isValidPreChar_spec r :
  isValidPreChar r = true
  <-> r = utf8.RuneError \/ unicode.IsSpace r = true
      \/ r = 45 \/ r = 40 \/ r = 123 \/ r = 39 \/ r = 34.
Proof.
  unfold isValidPreChar, ContainsRune.
  change (existsb (fun c => byteZ c =? r) preChars)
    with ((45 =? r) || ((40 =? r) || ((123 =? r) || ((39 =? r)
          || ((34 =? r) || false))))).
  rewrite !orb_true_iff, !andb_true_iff, !orb_true_iff, !Z.eqb_eq,
    Z.leb_le, Z.ltb_lt.
  intuition (try lia; try discriminate).
Qed.

Lemma prevRune_start input : prevRune input 0 = utf8.RuneError.
Proof. reflexivity. Qed.

(** The theorem at the text ["*bold*"], quotes included, and at [a*b*c]:
    the marker after the opening quote opens an emphasis that closes
    before the closing quote, and the marker after the letter "a" opens
    none. With two newlines inside and a bound of one, there is no
    match. *)
Lemma parseEmphasis_match_iff_witness :
  let d := newDocument New [] in
  let rec := parseInlineWithPos 5 noExternals d in
  parseEmphasisWithPos d rec (dquote :: str "*bold*" ++ [dquote]) 1 false 0 0
  = ROk (6%nat,
         Some (Emphasis (str "*")
                 [Text (str "bold") false (mkPosition 0 2 0 6)]
                 (mkPosition 0 1 0 7)))
  /\ emphasisConds 1 (dquote :: str "*bold*" ++ [dquote]) 1
  /\ parseEmphasisWithPos d rec (str "a*b*c") 1 false 0 0 = ROk (O, None)
  /\ ~ emphasisConds 1 (str "a*b*c") 1
  /\ ~ emphasisConds 1 ("*"%char :: "a"%char :: nl :: nl :: str "b*") 0.
Proof.
  cbv zeta.
  set (d := newDocument New []).
  set (rec := parseInlineWithPos 5 noExternals d).
  assert (H1 : (1 < length (dquote :: str "*bold*" ++ [dquote]))%nat)
    by (vm_compute; lia).
  assert (H2 : (1 < length (str "a*b*c"))%nat) by (vm_compute; lia).
  assert (H3 : (0 < length ("*"%char :: "a"%char :: nl :: nl :: str "b*"))%nat)
    by (vm_compute; lia).
  pose proof (parseEmphasis_match_iff d rec _ 1%nat false 0 0 H1)
    as (_ & _ & Hok1).
  pose proof (parseEmphasis_match_iff d rec _ 1%nat false 0 0 H2)
    as (Hno2 & _ & _).
  pose proof (parseEmphasis_match_iff d rec _ 0%nat false 0 0 H3)
    as (Hno3 & _ & _).
  split; [vm_compute; reflexivity|].
  split.
  { apply (Hok1 6%nat
             (Some (Emphasis (str "*")
                      [Text (str "bold") false (mkPosition 0 2 0 6)]
                      (mkPosition 0 1 0 7)))).
    - vm_compute. reflexivity.
    - discriminate. }
  split; [vm_compute; reflexivity|].
  split; [apply Hno2; vm_compute; reflexivity|].
  apply Hno3. vm_compute. reflexivity.
Defined.

(** C4, where it fails, twice. The text ["quoted*bold*text"] of the
    claim, with or without its quotes: the character before the first
    marker is the letter "d", which is no valid pre-character, so the
    scanner reports no match and the inline parser returns the whole text
    as one [Text] node. And the pre-characters are more than the claim
    lists: after the replacement character U+FFFD (the bytes EF BF BD),
    which is not the start of the text, no white space and none of the
    five punctuation marks, the marker opens an emphasis. *)
Lemma emphasis_pre_character_counterexample :
  let d := newDocument New [] in
  let rec := parseInlineWithPos 5 noExternals d in
  let quoted := dquote :: str "quoted*bold*text" ++ [dquote] in
  let replaced := ["239"%char; "191"%char; "189"%char] ++ str "*b*" in
  (parseEmphasisWithPos d rec quoted 7 false 0 0 = ROk (O, None)
   /\ parseInline 5 noExternals d quoted
      = ROk [Text quoted false (mkPosition 0 0 0 18)]
   /\ parseEmphasisWithPos d rec (str "quoted*bold*text") 6 false 0 0
      = ROk (O, None)
   /\ parseInline 5 noExternals d (str "quoted*bold*text")
      = ROk [Text (str "quoted*bold*text") false (mkPosition 0 0 0 16)])
  /\ (utf8.DecodeLastRuneInString (take 3 replaced) = (utf8.RuneError, 3%nat)
      /\ unicode.IsSpace (prevRune replaced 3) = false
      /\ ContainsRune preChars (prevRune replaced 3) = false
      /\ parseEmphasisWithPos d rec replaced 3 false 0 0
         = ROk (3%nat,
                Some (Emphasis (str "*")
                        [Text (str "b") false (mkPosition 0 4 0 5)]
                        (mkPosition 0 3 0 6)))).
Proof.
  repeat split; vm_compute; reflexivity.
Qed.

(** ** The plain-text coercion of parseOne *)

Lemma spaceRun_le s : (spaceRun s <= length s)%nat.
Proof. induction s as [|c s IH]; simpl; [lia|]. destruct (isReSpace c); simpl; lia. Qed.

Lemma dotRun_le s : (dotRun s <= length s)%nat.
Proof. induction s as [|c s IH]; simpl; [lia|]. destruct (byte_eqb c nl); simpl; lia. Qed.








Lemma bind_Done_l {A B} (m : M A) (k : A -> M B) d a d1 :
  m d = Done a d1 -> (x ← m; k x) d = k a d1.
Proof. unfold mbind, M_bind, bind. intros ->. reflexivity. Qed.

Lemma tokenAt_Some i d t : tokAt d i = Some t -> tokenAt i d = Done t d.
Proof. unfold tokenAt. intros ->. reflexivity. Qed.

Lemma index_Some {A} (s : list A) k a d : s !! k = Some a -> index s k d = Done a d.
Proof. unfold index. intros ->. reflexivity. Qed.

Lemma tokAt_range d i t :
  tokAt d i = Some t -> 0 <= i /\ (Z.to_nat i < length (toks d))%nat.
Proof.
  unfold tokAt. destruct (i <? 0) eqn:Hi; [discriminate|].
  apply Z.ltb_ge in Hi. intros H. apply lookup_lt_Some in H. auto.
Qed.

Lemma toks_setTok d i t : toks (setTok d i t) = <[Z.to_nat i := t]> (toks d).
Proof. reflexivity. Qed.

Lemma tokAt_setTok d i t t0 :
  tokAt d i = Some t0 -> tokAt (setTok d i t) i = Some t.
Proof.
  intros H. apply tokAt_range in H as [Hi Hr].
  unfold tokAt. destruct (i <? 0) eqn:Hn; [apply Z.ltb_lt in Hn; lia|].
  rewrite toks_setTok. apply list_lookup_insert_eq. exact Hr.
Qed.

Lemma coerceToText_returns B i d t line0 :
  plainTextRegexp B = plainTextRegexp_spec ->
  tokAt d i = Some t ->
  matches t !! 0%nat = Some line0 ->
  coerceToText B i d = Done tt (coerced d i t line0).
Proof.
  intros HB Ht Hl.
  assert (Ht' : forall typ message pos tok cause,
            tokenAt i (AddError d typ message pos tok cause)
            = Done t (AddError d typ message pos tok cause)).
  { intros. apply tokenAt_Some. rewrite <- Ht. reflexivity. }
  unfold coerceToText.
  erewrite bind_Done_l; [|apply tokenAt_Some; exact Ht].
  erewrite bind_Done_l; [|reflexivity].
  erewrite bind_Done_l; [|apply index_Some; exact Hl].
  rewrite HB.
  erewrite bind_Done_l; [|reflexivity].
  erewrite bind_Done_l; [|reflexivity].
  unfold assignToken.
  erewrite bind_Done_l; [|apply Ht']. reflexivity.
Qed.

(** ** The inline parser returns *)

Lemma newlineRun_pos input current :
  input !! current = Some nl -> (1 <= newlineRun (drop current input))%nat.
Proof.
  intros H. rewrite (drop_S _ _ _ H).
  change (1 <= S (newlineRun (drop (S current) input)))%nat. lia.
Qed.

Lemma parseRawInline_loop_total input sl sc :
  forall steps previous current nodes,
    (length input - current <= steps)%nat ->
    exists ns, parseRawInline_loop steps input sl sc previous current nodes
               = ROk ns.
Proof.
  induction steps as [|steps IH]; intros previous current nodes Hsteps;
    simpl; destruct (current <? length input)%nat eqn:Hlt;
    try (eexists; reflexivity).
  - apply Nat.ltb_lt in Hlt. lia.
  - apply Nat.ltb_lt in Hlt.
    destruct (lookup_lt_is_Some_2 _ _ Hlt) as [c Hc]. rewrite Hc.
    destruct (byte_eqb c nl) eqn:Hnl.
    + apply byte_eqb_eq in Hnl. subst c.
      pose proof (newlineRun_pos _ _ Hc) as Hrun.
      unfold parseLineBreakWithPos. cbv zeta.
      apply IH. lia.
    + apply IH. lia.
Qed.

Lemma parseRawInline_total input :
  exists ns, parseRawInline input = ROk ns.
Proof.
  unfold parseRawInline, parseRawInlineWithPos.
  apply parseRawInline_loop_total. lia.
Qed.

Lemma length_slice_le (input : gostring) lo hi :
  (length (slice input lo hi) <= length input - lo)%nat.
Proof. unfold slice. rewrite length_take, length_drop. lia. Qed.

Lemma Split_loop_cons c s sep skip cur :
  Split_loop (c :: s) sep skip cur
  = match skip with
    | S k => Split_loop s sep k cur
    | O => if hasPrefix (c :: s) sep
           then rev cur :: Split_loop s sep (length sep - 1) []
           else Split_loop s sep O (c :: cur)
    end.
Proof. reflexivity. Qed.

(** The parts [strings.Split] returns are no longer than the string. *)
Lemma Split_loop_length sep : forall s skip cur,
  Forall (fun p => (length p <= length s + length cur)%nat)
         (Split_loop s sep skip cur).
Proof.
  induction s as [|c s IH]; intros skip cur.
  - constructor; [rewrite length_rev; simpl; lia|constructor].
  - rewrite Split_loop_cons. destruct skip as [|k].
    + destruct (hasPrefix (c :: s) sep).
      * constructor; [rewrite length_rev; simpl; lia|].
        eapply Forall_impl; [apply IH|]. simpl. intros; lia.
      * eapply Forall_impl; [apply IH|]. simpl. intros; lia.
    + eapply Forall_impl; [apply IH|]. simpl. intros; lia.
Qed.

Lemma Split_part_length s sep k :
  (length (sub (Split s sep) k) <= length s)%nat.
Proof.
  pose proof (Split_loop_length sep s 0 []) as H. fold (Split s sep) in H.
  unfold sub. destruct (nth_in_or_default k (Split s sep) []) as [Hin|Hd];
    [|rewrite Hd; simpl; lia].
  rewrite Forall_forall in H. apply list_elem_of_In in Hin.
  specialize (H _ Hin). simpl in H. lia.
Qed.

Lemma closingBracket_le s k : closingBracket s = Some k -> (k < length s)%nat.
Proof.
  revert k. induction s as [|c s IH]; intros k H; simpl in *; [discriminate|].
  destruct (byte_eqb c "]"%char); [injection H as <-; lia|].
  destruct (byte_eqb c nl); [discriminate|].
  destruct (closingBracket s) as [k'|]; [|discriminate].
  injection H as <-. specialize (IH _ eq_refl). lia.
Qed.

(** The inline definition of a footnote reference is shorter than the
    text the pattern was matched on. *)
Lemma footnoteRegexp_definition_length s m :
  footnoteRegexp s = Some m -> (length (sub m 3) < length s)%nat.
Proof.
  unfold footnoteRegexp.
  destruct (hasPrefix s (str "[fn:")) eqn:Hp; [|discriminate].
  assert (Hlen : (4 <= length s)%nat).
  { destruct s as [|? [|? [|? [|? ?]]]]; simpl in Hp;
      rewrite ?andb_false_r in Hp; try discriminate; simpl; lia. }
  destruct (drop (nameRun (drop 4 s)) (drop 4 s)) as [|c r'] eqn:Hd;
    [discriminate|].
  destruct (byte_eqb c "]"%char); [intros H; injection H as <-; simpl; lia|].
  destruct (byte_eqb c ":"%char); [|discriminate].
  destruct (closingBracket r') as [k|] eqn:Hk; [|discriminate].
  intros H. injection H as <-. unfold sub. simpl nth.
  rewrite length_take.
  assert (Hr : (length r' < length s)%nat).
  { assert (length (c :: r') <= length s)%nat as Hx
      by (rewrite <- Hd, !length_drop; lia).
    simpl in Hx. lia. }
  lia.
Qed.

Section InlineTotal.

Variable X : Externals.
Variable d : Document.
(** The link resolver of the configuration returns, and a match of the
    inline source-block pattern is longer than the three bytes "src" that
    the scanner rewinds over. *)
Hypothesis HRL : forall p ds l, is_Some (ResolveLink (Config d) p ds l).
Hypothesis HIB : forall s m,
  inlineBlockRegexp X s = Some m -> (3 < length (sub m 0))%nat.

Variable rec : gostring -> Z -> Z -> Result (list Node).
Variable input : gostring.
Hypothesis Hne : (0 < length input)%nat.
Hypothesis Hrec : forall s sl sc,
  (length s < length input)%nat -> exists ns, rec s sl sc = ROk ns.

(** A scanner returns, and what it claims moves the cursor forward. *)
Definition returns2 (r : Result (nat * option Node)) : Prop :=
  exists consumed node, r = ROk (consumed, node).

Definition advances (r : Result (nat * nat * option Node)) : Prop :=
  exists rewind consumed node,
    r = ROk (rewind, consumed, node)
    /\ (consumed = O -> rewind = O)
    /\ (consumed <> O -> (rewind < consumed)%nat).

Ltac raw_total s :=
  let ns := fresh "ns" in
  let E := fresh "E" in
  destruct (parseRawInline_total s) as [ns E]; rewrite E; simpl.

Ltac ret2 := eexists _, _; reflexivity.

Lemma noMatch_returns2 : returns2 noMatch.
Proof. ret2. Qed.

Lemma noMatch3_advances : advances noMatch3.
Proof. exists O, O, None. repeat split; auto; congruence. Qed.

Lemma parseInlineBlock_advances start sl sc :
  advances (parseInlineBlockWithPos X input start sl sc).
Proof.
  unfold parseInlineBlockWithPos.
  destruct (negb _); [apply noMatch3_advances|].
  destruct (inlineBlockRegexp X (drop (start - 3) input)) as [m|] eqn:Hm;
    [|apply noMatch3_advances].
  specialize (HIB _ _ Hm). raw_total (sub m 4).
  eexists _, _, _. split; [reflexivity|]. split; lia.
Qed.

Lemma parseInlineExportBlock_returns start sl sc :
  returns2 (parseInlineExportBlockWithPos X input start sl sc).
Proof.
  unfold parseInlineExportBlockWithPos.
  destruct (inlineExportBlockRegexp X (drop start input)) as [m|];
    [|apply noMatch_returns2].
  raw_total (sub m 2). ret2.
Qed.

Lemma parseLatexFragment_returns start pairLength sl sc :
  returns2 (parseLatexFragmentWithPos input start pairLength sl sc).
Proof.
  unfold parseLatexFragmentWithPos.
  destruct (length input <=? start + 2)%nat; [apply noMatch_returns2|].
  cbv zeta.
  match goal with |- context [Index ?a ?b =? -1] =>
    destruct (Index a b =? -1) end; [apply noMatch_returns2|].
  match goal with |- context [parseRawInline ?s] => raw_total s end.
  ret2.
Qed.

Lemma parseExplicitLineBreakOrLatexFragment_returns start sl sc :
  returns2 (parseExplicitLineBreakOrLatexFragmentWithPos X input start sl sc).
Proof.
  unfold parseExplicitLineBreakOrLatexFragmentWithPos.
  destruct (length input <=? start + 2)%nat; [apply noMatch_returns2|].
  cbv zeta.
  destruct (_ && _ && _).
  { destruct (explicitLineBreak_loop _ _); [ret2|apply noMatch_returns2]. }
  destruct (_ || _); [apply parseLatexFragment_returns|].
  destruct (Index _ _ =? 0); [|apply noMatch_returns2].
  destruct (latexFragmentRegexp X (drop start input)) as [m|];
    [|apply noMatch_returns2].
  cbv beta iota zeta.
  destruct (str_eqb (sub m 1) (sub m 3)); [|apply noMatch_returns2].
  raw_total (sub m 2). ret2.
Qed.

Lemma parseSubOrSuperScript_returns start sl sc :
  returns2 (parseSubOrSuperScriptWithPos X input start sl sc).
Proof.
  unfold parseSubOrSuperScriptWithPos.
  destruct (subScriptSuperScriptRegexp X (drop start input));
    [ret2|apply noMatch_returns2].
Qed.

Lemma parseEmphasis_returns start isRaw sl sc :
  returns2 (parseEmphasisWithPos d rec input start isRaw sl sc).
Proof.
  unfold parseEmphasisWithPos. cbv zeta.
  destruct (negb _); [apply noMatch_returns2|].
  destruct (parseEmphasis_loop _ _ _ _ _ _ _) as [i|];
    [|apply noMatch_returns2].
  destruct isRaw.
  - raw_total (slice input (start + 1) i). ret2.
  - destruct (Hrec (slice input (start + 1) i) sl
                (sc + Z.of_nat start + 1)) as [ns E].
    { pose proof (length_slice_le input (start + 1) i). lia. }
    rewrite E. simpl. ret2.
Qed.

Lemma parseMacro_returns start sl sc :
  returns2 (parseMacroWithPos X input start sl sc).
Proof.
  unfold parseMacroWithPos.
  destruct (macroRegexp X (drop start input)); [ret2|apply noMatch_returns2].
Qed.

Lemma parseFootnoteReference_returns start sl sc :
  returns2 (parseFootnoteReferenceWithPos rec input start sl sc).
Proof.
  unfold parseFootnoteReferenceWithPos.
  destruct (footnoteRegexp (drop start input)) as [m|] eqn:Hm;
    [|apply noMatch_returns2].
  cbv beta iota zeta.
  destruct (_ && _); [apply noMatch_returns2|].
  destruct (negb (str_eqb (sub m 3) [])); [|simpl; ret2].
  destruct (Hrec (sub m 3) sl
              (sc + Z.of_nat start + Z.of_nat (length (sub m 1)) + 5))
    as [ns E].
  { apply footnoteRegexp_definition_length in Hm.
    rewrite length_drop in Hm. lia. }
  rewrite E. simpl. ret2.
Qed.

Lemma parseStatisticToken_returns start sl sc :
  returns2 (parseStatisticTokenWithPos X input start sl sc).
Proof.
  unfold parseStatisticTokenWithPos.
  destruct (statisticsTokenRegexp X (drop start input));
    [ret2|apply noMatch_returns2].
Qed.

Lemma parseTimestamp_returns start sl sc :
  returns2 (parseTimestampWithPos X input start sl sc).
Proof.
  unfold parseTimestampWithPos.
  destruct (timestampRegexp X (drop start input)) as [m|];
    [|apply noMatch_returns2].
  cbv beta iota zeta.
  destruct (str_eqb (sub m 3) []); cbv beta iota zeta;
    destruct (time_Parse X _ _); try ret2; apply noMatch_returns2.
Qed.

Lemma parseRegularLink_returns start sl sc :
  returns2 (parseRegularLinkWithPos d rec input start sl sc).
Proof.
  unfold parseRegularLinkWithPos. cbv zeta.
  destruct (_ || _ || _) eqn:Hshort; [apply noMatch_returns2|].
  destruct (Index (drop start input) (str "]]") =? -1);
    [apply noMatch_returns2|].
  apply orb_false_iff in Hshort as [Hshort _].
  apply orb_false_iff in Hshort as [Hshort _].
  apply Nat.ltb_ge in Hshort. rewrite length_drop in Hshort.
  match goal with |- context [Split ?s ?sep] =>
    pose proof (Split_part_length s sep 1) as Hpart;
    pose proof (length_slice_le (drop start input) 2
                  (Z.to_nat (Index (drop start input) (str "]]")))) as Hsl
  end.
  rewrite length_drop in Hsl.
  match goal with |- returns2 (mbind ?k ?m) =>
    assert (Hd : exists ns, m = ROk ns) end.
  { match goal with |- context [(length ?l =? 2)%nat] =>
      destruct (length l =? 2)%nat end;
      [apply Hrec; lia|eexists; reflexivity]. }
  destruct Hd as [ns ->].
  unfold mbind at 1, Result_bind at 1. cbv beta iota.
  destruct (ContainsRune _ 10); [apply noMatch_returns2|].
  match goal with |- context [ResolveLink ?c ?p ?a ?l] =>
    destruct (HRL p a l) as [n E'] end.
  rewrite E'. unfold callResolveLink, mbind, Result_bind.
  destruct n; ret2.
Qed.

Lemma parseOpeningBracket_returns start sl sc :
  returns2 (parseOpeningBracketWithPos X d rec input start sl sc).
Proof.
  unfold parseOpeningBracketWithPos.
  destruct (_ && _ && _); [apply parseRegularLink_returns|].
  destruct (bool_decide _); [apply parseFootnoteReference_returns|].
  destruct (bool_decide _); [apply parseStatisticToken_returns|].
  apply noMatch_returns2.
Qed.

Lemma urlRun_colon r : (1 <= urlRun (":"%char :: r))%nat.
Proof.
  change (urlRun (":"%char :: r))
    with (if ContainsRune validURLCharacters (byteZ ":"%char)
          then S (urlRun r) else O).
  assert (ContainsRune validURLCharacters (byteZ ":"%char) = true) as ->
    by (vm_compute; reflexivity).
  lia.
Qed.

Lemma parseAutoLink_advances start sl sc :
  advances (parseAutoLinkWithPos d input start sl sc).
Proof.
  unfold parseAutoLinkWithPos.
  destruct (_ || _ || _ || _) eqn:Hg; [apply noMatch3_advances|].
  apply orb_false_iff in Hg as [_ Hsl].
  apply negb_false_iff, str_eqb_eq in Hsl.
  destruct (autolinkProtocols _) as [m|]; [|apply noMatch3_advances].
  cbv zeta.
  destruct (str_eqb _ (str "://")); [apply noMatch3_advances|].
  eexists _, _, _. split; [reflexivity|].
  assert (Hpath : (1 <= length (slice input start
                                  (start + urlRun (drop start input))))%nat).
  { unfold slice in *.
    replace (start + urlRun (drop start input) - start)%nat
      with (urlRun (drop start input)) by lia.
    replace (start + 3 - start)%nat with 3%nat in Hsl by lia.
    destruct (drop start input) as [|a r]; [discriminate Hsl|].
    injection Hsl as -> _.
    pose proof (urlRun_colon r) as Hrun.
    destruct (urlRun (":"%char :: r)); [lia|]. simpl. lia. }
  rewrite length_app. split; lia.
Qed.

Lemma two_advances (r : Result (nat * option Node)) :
  returns2 r ->
  advances ('(consumed, node) ← r; ROk (O, consumed, node)).
Proof.
  intros (consumed & node & ->). exists O, consumed, node.
  split; [reflexivity|]. split; lia.
Qed.

Lemma parseSubScriptOrEmphasisOrInlineBlock_advances start sl sc :
  advances (parseSubScriptOrEmphasisOrInlineBlockWithPos X d rec input start
              sl sc).
Proof.
  unfold parseSubScriptOrEmphasisOrInlineBlockWithPos.
  destruct (parseInlineBlock_advances start sl sc)
    as (rw & c & n & -> & Hz & Hnz).
  unfold mbind at 1, Result_bind at 1. cbv beta iota.
  destruct (negb (c =? 0)%nat) eqn:Hc.
  { exists rw, c, n. auto. }
  destruct (parseSubOrSuperScript_returns start sl sc) as (c2 & n2 & ->).
  unfold mbind at 1, Result_bind at 1. cbv beta iota.
  destruct (negb (c2 =? 0)%nat) eqn:Hc2.
  { exists O, c2, n2. split; [reflexivity|]. split; lia. }
  destruct (parseEmphasis_returns start false sl sc) as (c3 & n3 & ->).
  exists O, c3, n3. split; [reflexivity|]. split; lia.
Qed.

Lemma dispatch_advances c current sl sc :
  advances (dispatch X d rec input c current sl sc).
Proof.
  unfold dispatch.
  repeat match goal with
         | |- advances (if ?b then _ else _) => destruct b
         end.
  all: first
    [ apply two_advances;
      first [ apply parseSubOrSuperScript_returns
            | apply parseInlineExportBlock_returns
            | apply parseEmphasis_returns
            | apply parseOpeningBracket_returns
            | apply parseMacro_returns
            | apply parseTimestamp_returns
            | apply parseExplicitLineBreakOrLatexFragment_returns
            | apply parseLatexFragment_returns ]
    | apply parseSubScriptOrEmphasisOrInlineBlock_advances
    | apply parseAutoLink_advances
    | apply noMatch3_advances
    | idtac ].
  (* the newline case *)
  unfold parseLineBreakWithPos. cbv zeta.
  eexists _, _, _. split; [reflexivity|]. split; lia.
Qed.

Lemma parseInline_loop_total sl sc :
  forall steps previous current nodes,
    (length input - current <= steps)%nat ->
    exists ns, parseInline_loop X d rec steps input sl sc previous current
                 nodes = ROk ns.
Proof.
  induction steps as [|steps IH]; intros previous current nodes Hsteps;
    simpl; destruct (current <? length input)%nat eqn:Hlt;
    try (eexists; reflexivity).
  - apply Nat.ltb_lt in Hlt. lia.
  - apply Nat.ltb_lt in Hlt.
    destruct (lookup_lt_is_Some_2 _ _ Hlt) as [c Hc].
    unfold byteAt. rewrite Hc.
    unfold mbind at 1, Result_bind at 1. cbv beta iota.
    destruct (dispatch_advances c current sl sc)
      as (rw & consumed & node & -> & Hz & Hnz).
    unfold mbind at 1, Result_bind at 1. cbv beta iota zeta.
    destruct (negb (consumed =? 0)%nat) eqn:Hc0.
    + apply negb_true_iff, Nat.eqb_neq in Hc0. specialize (Hnz Hc0).
      apply IH. lia.
    + apply negb_false_iff, Nat.eqb_eq in Hc0. rewrite (Hz Hc0).
      apply IH. lia.
Qed.

End InlineTotal.

Lemma parseInlineWithPos_returns (X : Externals) (d : Document) :
  (forall p ds l, is_Some (ResolveLink (Config d) p ds l)) ->
  (forall s m, inlineBlockRegexp X s = Some m -> (3 < length (sub m 0))%nat) ->
  forall fuel input sl sc,
    (length input < fuel)%nat ->
    exists ns, parseInlineWithPos fuel X d input sl sc = ROk ns.
Proof.
  intros HRL HIB. induction fuel as [|fuel IH]; intros input sl sc Hlen;
    [lia|].
  cbn [parseInlineWithPos].
  destruct input as [|c input'] eqn:Hin; [eexists; reflexivity|].
  rewrite <- Hin in *.
  apply parseInline_loop_total; try assumption.
  - subst input. simpl. lia.
  - intros s sl' sc' Hs. apply IH. lia.
  - lia.
Qed.

(** X1. The inline parser returns on every text, given fuel beyond the
    length of the text, when the ResolveLink callback returns and a match
    of the inline source block pattern is longer than three bytes: each
    nested call works on a strictly shorter text and each turn of the loop
    moves the cursor forward. *)
Theorem parseInlineWithPos_total (X : Externals) (d : Document) :
  (forall p ds l, is_Some (ResolveLink (Config d) p ds l)) ->
  (forall s m, inlineBlockRegexp X s = Some m -> (3 < length (sub m 0))%nat) ->
  forall fuel input sl sc,
    (length input < fuel)%nat ->
    exists ns, parseInlineWithPos fuel X d input sl sc = ROk ns.
Proof.
  intros HRL HIB. induction fuel as [|fuel IH]; intros input sl sc Hlen;
    [lia|].
  cbn [parseInlineWithPos].
  destruct input as [|c input'] eqn:Hin; [eexists; reflexivity|].
  rewrite <- Hin in *.
  apply parseInline_loop_total; try assumption.
  - subst input. simpl. lia.
  - intros s sl' sc' Hs. apply IH. lia.
  - lia.
Qed.

(** ** The block parser returns and consumes every token *)

Lemma sameFrom_refl i d : sameFrom i d d.
Proof. reflexivity. Qed.

Lemma drop_eq_mono {A} (l l' : list A) j j' :
  (j <= j')%nat -> drop j l' = drop j l -> drop j' l' = drop j' l.
Proof.
  intros Hle H. replace j' with (j + (j' - j))%nat by lia.
  rewrite <- !drop_drop, H. reflexivity.
Qed.

Lemma sameFrom_mono i j d d' :
  0 <= i <= j -> sameFrom i d d' -> sameFrom j d d'.
Proof. unfold sameFrom. intros Hle. apply drop_eq_mono. lia. Qed.

Lemma sameFrom_trans i j d d' d'' :
  0 <= i <= j -> sameFrom i d d' -> sameFrom j d' d'' -> sameFrom j d d''.
Proof.
  intros Hle H1 H2. unfold sameFrom in *.
  rewrite H2. apply (drop_eq_mono _ _ (Z.to_nat i)); [lia|exact H1].
Qed.

Lemma sameFrom_length i d d' :
  0 <= i <= Z.of_nat (length (toks d)) ->
  length (toks d') = length (toks d) ->
  sameFrom i d d' -> True.
Proof. auto. Qed.

Lemma drop_insert_gt' {A} (l : list A) i j x :
  (i < j)%nat -> drop j (<[i := x]> l) = drop j l.
Proof. intros. apply drop_insert_lt. lia. Qed.

Lemma sameFrom_setTok i j d t :
  0 <= i < j -> sameFrom j d (setTok d i t).
Proof.
  intros H. unfold sameFrom. rewrite toks_setTok.
  apply drop_insert_gt'. lia.
Qed.

Lemma potAt_sameFrom mu i d d' : sameFrom i d d' -> potAt mu d' i = potAt mu d i.
Proof. unfold sameFrom, potAt. intros ->. reflexivity. Qed.

Lemma tokAt_lookup d i :
  0 <= i -> tokAt d i = toks d !! Z.to_nat i.
Proof. intros H. unfold tokAt. destruct (i <? 0) eqn:E; [lia|reflexivity]. Qed.

Lemma potAt_cons mu d i t :
  tokAt d i = Some t ->
  potAt mu d i = (mu t + 2 + potAt mu d (i + 1))%nat.
Proof.
  intros H. pose proof (tokAt_range _ _ _ H) as [Hi _].
  rewrite tokAt_lookup in H by exact Hi.
  unfold potAt. rewrite (drop_S _ _ _ H).
  replace (Z.to_nat (i + 1)) with (S (Z.to_nat i)) by lia. reflexivity.
Qed.

Lemma pot_drop_le mu (l : list token) j j' :
  (j <= j')%nat -> (pot mu (drop j' l) <= pot mu (drop j l))%nat.
Proof.
  intros Hle. replace j' with (j + (j' - j))%nat by lia.
  rewrite <- drop_drop. generalize (drop j l). clear.
  intros l. generalize (j' - j)%nat. clear. intros k. revert l.
  induction k as [|k IH]; intros l; [rewrite drop_0; lia|].
  destruct l as [|t l]; [simpl; lia|]. simpl. specialize (IH l). lia.
Qed.

Lemma potAt_mono mu d i j : 0 <= i <= j -> (potAt mu d j <= potAt mu d i)%nat.
Proof. intros H. unfold potAt. apply pot_drop_le. lia. Qed.

Lemma potAt_step mu d i c t :
  tokAt d i = Some t -> 1 <= c ->
  (potAt mu d (i + c) + 2 <= potAt mu d i)%nat.
Proof.
  intros Ht Hc. rewrite (potAt_cons _ _ _ _ Ht).
  pose proof (tokAt_range _ _ _ Ht) as [Hi _].
  pose proof (potAt_mono mu d (i + 1) (i + c)). lia.
Qed.

Section BlockTotal.

Variable X : Externals.
Variable B : BlockExternals.
Variable cfg : Configuration.
(** The tokens the matchers produce, and a bound on how often the line of
    a token can be re-tokenized. *)
Variable TokOK : token -> Prop.
Variable mu : token -> nat.

(** What is taken for granted of the parts that are outside the files at
    hand. *)
Hypothesis HB : plainTextRegexp B = plainTextRegexp_spec.
Hypothesis Hblank : forall m d i,
  Inv TokOK cfg m d -> 0 <= i < Z.of_nat m ->
  is_Some (isSecondBlankLine B d i).
Hypothesis HRL : forall p ds l, is_Some (ResolveLink cfg p ds l).
Hypothesis HIB : forall s m,
  inlineBlockRegexp X s = Some m -> (3 < length (sub m 0))%nat.
Hypothesis Hok_matches : forall t, TokOK t -> is_Some (matches t !! 0%nat).
Hypothesis Hok_list : forall t,
  TokOK t -> isListToken t = true -> is_Some (listKind t) /\ 0 <= lvl t.
Hypothesis Hok_foot : forall t,
  TokOK t -> str_eqb (kind t) (str "footnoteDefinition") = true ->
  is_Some (matches t !! 2%nat).
Hypothesis Hok_content : forall t, TokOK t -> (length (content t) <= mu t)%nat.
Hypothesis Hok_text : forall line_, TokOK (textTokenOf line_).
Hypothesis Hrelex_item : forall t k,
  TokOK t -> isListToken t = true ->
  let t' := (tokenize B (itemLine k t)).1 in
  TokOK t' /\ (mu t' < mu t)%nat
  /\ (lvl t + Z.of_nat (length (sub (matches t) 2)) <= lvl t'
      \/ isBlankText t' = true)
  /\ str_eqb (kind t') (str "headline") = false
  /\ str_eqb (kind t') (str "footnoteDefinition") = false.
Hypothesis Hrelex_foot : forall t l,
  TokOK t -> str_eqb (kind t) (str "footnoteDefinition") = true ->
  matches t !! 2%nat = Some l ->
  let t' := (tokenize B l).1 in TokOK t' /\ (mu t' < mu t)%nat.
Hypothesis Habsent :
  Forall (fun kp => WellBehaved TokOK cfg kp.1 kp.2) (absentParsers B).
Hypothesis Hpara : forall m i stop d t,
  Guarded TokOK cfg m stop -> Inv TokOK cfg m d ->
  tokAt d i = Some t -> str_eqb (kind t) (str "text") = true ->
  stepOK TokOK cfg m 1 i d (parseParagraph B i stop d).

Abbreviation Inv' := (Inv TokOK cfg).
Abbreviation Good := (GoodStop TokOK cfg).
Abbreviation stepOK' := (stepOK TokOK cfg).

Lemma Inv_tokAt m d i :
  Inv' m d -> 0 <= i < Z.of_nat m -> exists t, tokAt d i = Some t /\ TokOK t.
Proof.
  intros (Hlen & _ & Hall) Hi.
  rewrite tokAt_lookup by lia.
  destruct (lookup_lt_is_Some_2 (toks d) (Z.to_nat i)) as [t Ht]; [lia|].
  exists t. split; [exact Ht|].
  rewrite Forall_lookup in Hall. eapply Hall; eauto.
Qed.

Lemma Inv_tokAt_OK m d i t : Inv' m d -> tokAt d i = Some t -> TokOK t.
Proof.
  intros (_ & _ & Hall) Ht. pose proof (tokAt_range _ _ _ Ht) as [Hi _].
  rewrite tokAt_lookup in Ht by exact Hi.
  rewrite Forall_lookup in Hall. eapply Hall; eauto.
Qed.

Lemma Inv_tokAt_lt m d i t : Inv' m d -> tokAt d i = Some t -> 0 <= i < Z.of_nat m.
Proof.
  intros (Hlen & _) Ht. pose proof (tokAt_range _ _ _ Ht). lia.
Qed.

Lemma Inv_setTok m d i t : Inv' m d -> TokOK t -> Inv' m (setTok d i t).
Proof.
  intros (Hlen & Hcfg & Hall) Ht. split; [|split].
  - rewrite toks_setTok, length_insert. exact Hlen.
  - exact Hcfg.
  - rewrite toks_setTok. apply Forall_insert; assumption.
Qed.

Lemma Inv_AddError m d typ msg pos tok cause :
  Inv' m d -> Inv' m (AddError d typ msg pos tok cause).
Proof. intros H. exact H. Qed.

Lemma Inv_set_baseLvl m d b : Inv' m d -> Inv' m (set_baseLvl d b).
Proof. intros H. exact H. Qed.

Lemma potAt_setTok d i t t' :
  tokAt d i = Some t ->
  potAt mu (setTok d i t') i = (mu t' + 2 + potAt mu d (i + 1))%nat.
Proof.
  intros Ht. pose proof (tokAt_range _ _ _ Ht) as [Hi Hr].
  rewrite (potAt_cons mu _ _ t') by (eapply tokAt_setTok; eauto).
  f_equal. apply potAt_sameFrom. apply sameFrom_setTok. lia.
Qed.


Lemma Good_topStop m : Good m topStop.
Proof.
  split.
  - intros d i (Hlen & _) Hi. unfold topStop, ntokens. eexists.
    split; [reflexivity|]. rewrite Hlen. intros H. apply Z.leb_gt in H. lia.
  - intros d d1 t t' (Hlen & _) (Hlen1 & _) _ _ H _ _ _ _.
    unfold topStop, ntokens in *. rewrite Hlen1, <- Hlen. exact H.
Qed.

Lemma Good_listItemStop m stop minIndent :
  Good m stop -> Good m (listItemStop stop minIndent).
Proof.
  intros [Hg Hs]. split.
  - intros d i HI Hi. unfold listItemStop.
    destruct (Hg d i HI Hi) as (b & -> & Hb). simpl.
    destruct b; [eexists; split; [reflexivity|discriminate]|].
    specialize (Hb eq_refl).
    destruct (Inv_tokAt m d i HI) as (t & -> & _); [lia|]. simpl.
    eexists. split; [reflexivity|]. intros _. exact Hb.
  - intros d d1 t t' HI HI1 Ht Hnb H Ht' Hlvl Hh Hf.
    unfold listItemStop in *.
    destruct (stop d 0) as [[|]|] eqn:Hp; simpl in H; try discriminate.
    rewrite (Hs d d1 t t' HI HI1 Ht Hnb Hp Ht' Hlvl Hh Hf). simpl.
    rewrite Ht in H. rewrite Ht'. simpl in *.
    rewrite Hnb in H. simpl in H. injection H as H.
    rewrite andb_true_r in H. apply Z.ltb_ge in H.
    f_equal. destruct Hlvl as [Hl|Hbl].
    + apply andb_false_iff. left. apply Z.ltb_ge. lia.
    + rewrite Hbl. apply andb_false_r.
Qed.

Lemma Good_footnoteStop m stop start :
  Good m stop -> 0 <= start -> Good m (footnoteStop B stop start).
Proof.
  intros [Hg Hs] Hstart. split.
  - intros d i HI Hi. unfold footnoteStop.
    destruct (Hg d i HI Hi) as (b & -> & Hb). simpl.
    destruct b; [eexists; split; [reflexivity|discriminate]|].
    specialize (Hb eq_refl).
    destruct (Hblank m d i HI ltac:(lia)) as [b2 ->]. simpl.
    destruct (b2 && (start + 1 <? i));
      [eexists; split; [reflexivity|discriminate]|].
    destruct (Inv_tokAt m d i HI) as (t & -> & _); [lia|]. simpl.
    eexists. split; [reflexivity|]. intros _. exact Hb.
  - intros d d1 t t' HI HI1 Ht Hnb H Ht' Hlvl Hh Hf.
    unfold footnoteStop in *.
    destruct (stop d 0) as [[|]|] eqn:Hp; simpl in H; try discriminate.
    rewrite (Hs d d1 t t' HI HI1 Ht Hnb Hp Ht' Hlvl Hh Hf). simpl.
    destruct (Hblank m d1 0 HI1 (Inv_tokAt_lt _ _ _ _ HI1 Ht'))
      as [b2 ->]. simpl.
    assert ((start + 1 <? 0) = false) as -> by (apply Z.ltb_ge; lia).
    rewrite andb_false_r. rewrite Ht'. cbn [mbind option_bind].
    rewrite Hh, Hf. reflexivity.
Qed.

Lemma isListToken_not_blank t : isListToken t = true -> isBlankText t = false.
Proof.
  unfold isListToken, isBlankText. intros H.
  apply orb_true_iff in H as [H|H]; apply str_eqb_eq in H; rewrite H;
    reflexivity.
Qed.

Lemma callStop_Guarded m stop d i :
  Guarded TokOK cfg m stop -> Inv' m d -> 0 <= i ->
  exists b, callStop stop i d = Done b d /\ stop d i = Some b
            /\ (b = false -> i < Z.of_nat m).
Proof.
  intros Hg HI Hi. destruct (Hg d i HI Hi) as (b & Hb & Hlt).
  exists b. unfold callStop. rewrite Hb. auto.
Qed.


(** Running a computation of the block parser step by step. *)

Lemma get_bind {A} (k : Document -> M A) d : (x ← get; k x) d = k d d.
Proof. reflexivity. Qed.

Lemma modify_bind {A} f (k : unit -> M A) d :
  (x ← modify f; k x) d = k tt (f d).
Proof. reflexivity. Qed.

Lemma ret_bind {A C} (a : A) (k : A -> M C) d : (x ← ret a; k x) d = k a d.
Proof. reflexivity. Qed.

Lemma tokenAt_bind {A} i (k : token -> M A) d t :
  tokAt d i = Some t -> (x ← tokenAt i; k x) d = k t d.
Proof. intros H. apply bind_Done_l, tokenAt_Some, H. Qed.

Lemma index_bind {A C} (s : list A) n (k : A -> M C) d a :
  s !! n = Some a -> (x ← index s n; k x) d = k a d.
Proof. intros H. apply bind_Done_l, index_Some, H. Qed.

Lemma callStop_bind {A} stop i (k : bool -> M A) d b :
  stop d i = Some b -> (x ← callStop stop i; k x) d = k b d.
Proof.
  intros H. apply bind_Done_l. unfold callStop. rewrite H. reflexivity.
Qed.

Lemma liftInline_bind {A C} (r : Result A) (k : A -> M C) d a :
  r = ROk a -> (x ← liftInline r; k x) d = k a d.
Proof. intros ->. reflexivity. Qed.

Lemma retokenize_returns i line_ d t0 :
  tokAt d i = Some t0 ->
  exists d',
    retokenize B i line_ d = Done tt d'
    /\ toks d' = <[Z.to_nat i := (tokenize B line_).1]> (toks d)
    /\ Config d' = Config d
    /\ baseLvl d' = baseLvl d.
Proof.
  intros Ht. unfold retokenize.
  destruct (tokenize B line_) as [tok ok]. unfold assignToken.
  destruct ok; cbn [negb].
  - eexists. split.
    + erewrite bind_Done_l;
        [|erewrite tokenAt_bind by exact Ht; reflexivity].
      reflexivity.
    + repeat split.
  - eexists. split.
    + erewrite bind_Done_l;
        [|erewrite tokenAt_bind by exact Ht; reflexivity].
      erewrite tokenAt_bind by (eapply tokAt_setTok; exact Ht).
      reflexivity.
    + repeat split.
Qed.

Lemma parseListItem_enter_returns k i d t bullet :
  tokAt d i = Some t ->
  matches t !! 2%nat = Some bullet ->
  0 <= lvl t ->
  is_Some (matches t !! 0%nat) ->
  exists status value d1,
    parseListItem_enter B k i d
    = Done (bullet, lvl t + Z.of_nat (length bullet), itemTerm k (content t),
            status, value, baseLvl d) d1
    /\ toks d1 = <[Z.to_nat i := (tokenize B (itemLine k t)).1]> (toks d)
    /\ Config d1 = Config d.
Proof.
  intros Ht Hb Hlvl [line0 Hl0]. unfold parseListItem_enter.
  rewrite (tokenAt_bind _ _ _ _ Ht), (index_bind _ _ _ _ _ Hb).
  rewrite get_bind, modify_bind.
  assert (Hline : itemLine k t
                  = spaces (Z.to_nat (lvl t + Z.of_nat (length bullet)))
                    ++ itemBody k (content t)).
  { unfold itemLine, sub. rewrite (nth_lookup_Some _ _ _ _ Hb). reflexivity. }
  assert (Hneg : (lvl t + Z.of_nat (length bullet) <? 0) = false)
    by (apply Z.ltb_ge; lia).
  unfold itemTerm, itemBody, itemContent in *.
  destruct (listItemValueRegexp (content t)) as [mv|];
    [destruct (bool_decide (k = OrderedList))|];
    match goal with
    | |- context [listItemStatusRegexp ?c] =>
      destruct (listItemStatusRegexp c) as [ms|]
    end;
    cbv beta iota zeta;
    (destruct (bool_decide (k = DescriptiveList));
     [match goal with
      | |- context [descriptiveListItemRegexp ?c] =>
        destruct (descriptiveListItemRegexp c) as [[m0 m1]|]
      end|]);
    cbv beta iota zeta;
    first [ erewrite bind_Done_l;
            [|rewrite (index_bind _ _ _ _ _ Hl0), modify_bind; reflexivity]
          | rewrite ret_bind ];
    cbv beta iota zeta;
    rewrite Hneg; rewrite ret_bind;
    match goal with
    | |- context [(retokenize B i ?l ≫= _) ?d0] =>
      destruct (retokenize_returns i l d0 t Ht) as (d1 & Hr & Ht1 & Hc1 & _)
    end;
    (erewrite bind_Done_l; [|exact Hr]);
    eexists _, _, d1; (split; [reflexivity|]);
    (split; [rewrite Ht1, Hline; reflexivity|exact Hc1]).
Qed.

Lemma parseMany_loop_eq rec n i stop nodes :
  parseMany_loop rec n i stop nodes
  = (d ← get;
     if negb (i <? ntokens d) then ret (i, nodes) else
     stopped ← callStop stop i;
     if (stopped : bool) then ret (i, nodes) else
     match n with
     | O => outOfFuel
     | S n' =>
       '(consumed, node) ← rec i stop;
       parseMany_loop rec n' (i + consumed) stop
         (match node with Some x => nodes ++ [x] | None => nodes end)
     end).
Proof. destruct n; reflexivity. Qed.


(** The frame of a parser: from index [i] on, the cost of the tokens has
    not grown. *)
Definition potFrame (i : Z) (d d' : Document) : Prop :=
  forall j, i <= j -> (potAt mu d' j <= potAt mu d j)%nat.

(** The contract of a parser started at token [i]. *)
Definition stepOK2 (m : nat) (minc : Z) (i : Z) (d : Document)
    (r : Outcome (Z * option Node)) : Prop :=
  exists c node d',
    r = Done (c, node) d'
    /\ minc <= c /\ i + c <= Z.of_nat m
    /\ Inv' m d'
    /\ potFrame (i + Z.max c 1) d d'.

(** The contract of parseOne, for sessions whose cost from [i] on lies
    below [P]. *)
Definition recOK (rec : parseFn) (P : nat) : Prop :=
  forall m i stop d,
    Good m stop -> Inv' m d -> 0 <= i < Z.of_nat m ->
    (i = 0 -> stop d 0 = Some false) ->
    (potAt mu d i < P)%nat ->
    stepOK2 m 1 i d (rec i stop d).

Lemma potFrame_refl i d : potFrame i d d.
Proof. intros j _. lia. Qed.

Lemma potFrame_mono i j d d' : i <= j -> potFrame i d d' -> potFrame j d d'.
Proof. intros Hij H k Hk. apply H. lia. Qed.

Lemma potFrame_trans i d d' d'' :
  potFrame i d d' -> potFrame i d' d'' -> potFrame i d d''.
Proof. intros H1 H2 j Hj. specialize (H1 j Hj). specialize (H2 j Hj). lia. Qed.

Lemma sameFrom_potFrame i d d' : 0 <= i -> sameFrom i d d' -> potFrame i d d'.
Proof.
  intros Hi H j Hj.
  rewrite (potAt_sameFrom mu j d d'); [lia|].
  eapply sameFrom_mono; [|exact H]. lia.
Qed.

Lemma stepOK_stepOK2 m minc i d r :
  0 <= i -> stepOK' m minc i d r -> stepOK2 m minc i d r.
Proof.
  intros Hi (c & node & d' & -> & Hc & Hm & HI & Hs).
  exists c, node, d'.
  refine (conj eq_refl (conj Hc (conj Hm (conj HI _)))).
  apply sameFrom_potFrame; [lia|exact Hs].
Qed.

Lemma sameFrom_insert d d1 i j t' :
  toks d1 = <[Z.to_nat i := t']> (toks d) -> 0 <= i < j -> sameFrom j d d1.
Proof.
  intros Ht Hij. unfold sameFrom. rewrite Ht.
  apply drop_insert_gt'. lia.
Qed.

Lemma Inv_insert m d d1 i t' :
  Inv' m d -> toks d1 = <[Z.to_nat i := t']> (toks d) ->
  Config d1 = Config d -> TokOK t' -> Inv' m d1.
Proof.
  intros (Hlen & Hcfg & Hall) Ht Hc Hok. split; [|split].
  - rewrite Ht, length_insert. exact Hlen.
  - congruence.
  - rewrite Ht. apply Forall_insert; assumption.
Qed.

Lemma tokAt_insert d d1 i t t' :
  tokAt d i = Some t -> toks d1 = <[Z.to_nat i := t']> (toks d) ->
  tokAt d1 i = Some t'.
Proof.
  intros Hti Ht. pose proof (tokAt_range _ _ _ Hti) as [Hi Hr].
  rewrite tokAt_lookup by exact Hi. rewrite Ht.
  apply list_lookup_insert_eq. exact Hr.
Qed.

Lemma potAt_insert d d1 i t t' :
  tokAt d i = Some t -> toks d1 = <[Z.to_nat i := t']> (toks d) ->
  potAt mu d1 i = (mu t' + 2 + potAt mu d (i + 1))%nat.
Proof.
  intros Hti Ht. pose proof (tokAt_range _ _ _ Hti) as [Hi Hr].
  rewrite (potAt_cons mu d1 i t') by (eapply tokAt_insert; eauto).
  f_equal. apply potAt_sameFrom. eapply sameFrom_insert; [exact Ht|lia].
Qed.

Lemma potAt_ge m d i :
  Inv' m d -> 0 <= i <= Z.of_nat m ->
  (2 * Z.to_nat (Z.of_nat m - i) <= potAt mu d i)%nat.
Proof.
  intros (Hlen & _) Hi. unfold potAt.
  assert (Hd : length (drop (Z.to_nat i) (toks d))
               = Z.to_nat (Z.of_nat m - i)).
  { rewrite length_drop, Hlen. lia. }
  rewrite <- Hd. generalize (drop (Z.to_nat i) (toks d)) as l.
  induction l as [|t l IH]; simpl; lia.
Qed.

Lemma Inv_ntokens m d : Inv' m d -> ntokens d = Z.of_nat m.
Proof. intros (Hlen & _). unfold ntokens. rewrite Hlen. reflexivity. Qed.

(** The loop of parseMany. *)
Lemma parseMany_loop_ok rec P m stop :
  recOK rec P -> Good m stop ->
  forall n i nodes d,
    Inv' m d -> 0 <= i <= Z.of_nat m ->
    (potAt mu d i < P)%nat ->
    (Z.to_nat (Z.of_nat m - i) <= n)%nat ->
    exists i' nodes' d',
      parseMany_loop rec n i stop nodes d = Done (i', nodes') d'
      /\ i <= i' <= Z.of_nat m /\ Inv' m d' /\ potFrame i' d d'.
Proof.
  intros Hrec Hgood.
  induction n as [|n IH]; intros i nodes d HI Hi Hpot Hn;
    rewrite parseMany_loop_eq, get_bind, (Inv_ntokens _ _ HI).
  - replace (i <? Z.of_nat m) with false by (symmetry; apply Z.ltb_ge; lia).
    exists i, nodes, d.
    refine (conj eq_refl (conj _ (conj HI (potFrame_refl _ _)))). lia.
  - destruct (i <? Z.of_nat m) eqn:Hlt; cbn [negb].
    2:{ exists i, nodes, d.
        refine (conj eq_refl (conj _ (conj HI (potFrame_refl _ _)))). lia. }
    apply Z.ltb_lt in Hlt.
    destruct (proj1 Hgood d i HI ltac:(lia)) as (b & Hb & _).
    rewrite (callStop_bind _ _ _ _ _ Hb).
    destruct b.
    { exists i, nodes, d.
      refine (conj eq_refl (conj _ (conj HI (potFrame_refl _ _)))). lia. }
    destruct (Hrec m i stop d Hgood HI ltac:(lia)
                ltac:(intros ->; exact Hb) Hpot)
      as (c & node & d1 & Hr & Hc & Hm & HI1 & Hf).
    erewrite bind_Done_l; [|exact Hr]. cbv beta iota.
    replace (Z.max c 1) with c in Hf by lia.
    destruct (IH (i + c)
                (match node with Some x => nodes ++ [x] | None => nodes end)
                d1 HI1 ltac:(lia))
      as (i' & nodes' & d' & Hl & Hi' & HI' & Hf').
    + specialize (Hf (i + c) ltac:(lia)).
      pose proof (potAt_mono mu d i (i + c) ltac:(lia)). lia.
    + lia.
    + exists i', nodes', d'.
      refine (conj Hl (conj _ (conj HI' _))); [lia|].
      eapply potFrame_trans; [eapply potFrame_mono; [|exact Hf]; lia|exact Hf'].
Qed.

Lemma parseListItem_loop_eq rec n start i stop nodes :
  parseListItem_loop B rec n start i stop nodes
  = (stopped ← callStop stop i;
     if (stopped : bool) then ret (i, nodes) else
     continue ←
       (if i <=? start + 1 then ret true
        else d ← get;
             match isSecondBlankLine B d i with
             | Some b => ret (negb b)
             | None => panic indexOutOfRange
             end);
     if negb (continue : bool) then ret (i, nodes) else
     match n with
     | O => outOfFuel
     | S n' =>
       '(consumed, node) ← rec i stop;
       parseListItem_loop B rec n' start (i + consumed) stop (nodes ++ [node])
     end).
Proof. destruct n; reflexivity. Qed.

(** The loop of parseListItem: it returns inside the buffer, and it takes
    at least one token when the stop predicate lets it start. *)
Lemma parseListItem_loop_ok rec P m stop start :
  recOK rec P -> Good m stop ->
  forall n i nodes d,
    Inv' m d -> 0 <= start <= i -> i <= Z.of_nat m ->
    (potAt mu d i < P)%nat ->
    (Z.to_nat (Z.of_nat m - i) <= n)%nat ->
    exists i' nodes' d',
      parseListItem_loop B rec n start i stop nodes d = Done (i', nodes') d'
      /\ i <= i' <= Z.of_nat m /\ Inv' m d' /\ potFrame i' d d'
      /\ (i = start -> stop d i = Some false -> i < i').
Proof.
  intros Hrec Hgood.
  induction n as [|n IH]; intros i nodes d HI Hs Hi Hpot Hn;
    rewrite parseListItem_loop_eq;
    destruct (proj1 Hgood d i HI ltac:(lia)) as (b & Hb & Hlt);
    rewrite (callStop_bind _ _ _ _ _ Hb);
    (destruct b;
     [exists i, nodes, d;
      refine (conj eq_refl (conj _ (conj HI (conj (potFrame_refl _ _) _))));
      [lia|intros _ Hx; congruence]|]);
    specialize (Hlt eq_refl).
  - lia.
  - assert (Hcont : exists b2,
              (if i <=? start + 1 then ret true
               else d0 ← get;
                    match isSecondBlankLine B d0 i with
                    | Some b => ret (negb b)
                    | None => panic indexOutOfRange
                    end) d = Done b2 d
              /\ (i = start -> b2 = true)).
    { destruct (i <=? start + 1) eqn:Hle.
      - exists true. split; [reflexivity|auto].
      - apply Z.leb_gt in Hle. rewrite get_bind.
        destruct (Hblank m d i HI ltac:(lia)) as [b2 ->]. exists (negb b2).
        split; [reflexivity|lia]. }
    destruct Hcont as (b2 & Hcont & Hfirst).
    erewrite bind_Done_l; [|exact Hcont].
    destruct b2; cbn [negb].
    2:{ exists i, nodes, d.
        refine (conj eq_refl (conj _ (conj HI (conj (potFrame_refl _ _) _))));
          [lia|].
        intros Hx _. specialize (Hfirst Hx). discriminate Hfirst. }
    destruct (Hrec m i stop d Hgood HI ltac:(lia)
                ltac:(intros ->; exact Hb) Hpot)
      as (c & node & d1 & Hr & Hc & Hm & HI1 & Hf).
    erewrite bind_Done_l; [|exact Hr]. cbv beta iota.
    replace (Z.max c 1) with c in Hf by lia.
    destruct (IH (i + c) (nodes ++ [node]) d1 HI1 ltac:(lia) ltac:(lia))
      as (i' & nodes' & d' & Hl & Hi' & HI' & Hf' & _).
    + specialize (Hf (i + c) ltac:(lia)).
      pose proof (potAt_mono mu d i (i + c) ltac:(lia)). lia.
    + lia.
    + exists i', nodes', d'.
      refine (conj Hl (conj _ (conj HI' (conj _ _)))); [lia| |intros; lia].
      eapply potFrame_trans; [eapply potFrame_mono; [|exact Hf]; lia|exact Hf'].
Qed.

Lemma listKind_bullet t : is_Some (listKind t) -> is_Some (matches t !! 2%nat).
Proof.
  unfold listKind. intros [r Hr].
  destruct (matches t !! 2%nat) as [b|]; [eauto|discriminate Hr].
Qed.

Lemma itemTerm_length k c : (length (itemTerm k c) <= length c)%nat.
Proof.
  assert (Hic : (length (itemContent k c) <= length c)%nat).
  { unfold itemContent.
    destruct (listItemValueRegexp c) as [mv|];
      [destruct (bool_decide (k = OrderedList))|];
      match goal with
      | |- context [listItemStatusRegexp ?x] =>
        destruct (listItemStatusRegexp x)
      end; rewrite ?length_drop; lia. }
  unfold itemTerm. destruct (bool_decide (k = DescriptiveList)); [|simpl; lia].
  destruct (descriptiveListItemRegexp (itemContent k c)) as [[m0 m1]|];
    [|simpl; lia].
  rewrite length_take. lia.
Qed.

(** parseListItem returns. It can return without having taken a token,
    but not at the start of the buffer, and then the token it was called
    on has become cheaper. *)
Lemma parseListItem_ok rec P steps m parentStop k i d t :
  recOK rec P -> Good m parentStop -> Inv' m d ->
  tokAt d i = Some t -> isListToken t = true ->
  (i = 0 -> parentStop d 0 = Some false) ->
  (potAt mu d i <= P)%nat -> (potAt mu d i <= steps)%nat ->
  exists c node d',
    parseListItem X B rec steps k i parentStop d = Done (c, node) d'
    /\ 0 <= c /\ i + c <= Z.of_nat m
    /\ Inv' m d'
    /\ potFrame (i + c) d d'
    /\ (c = 0 -> (potAt mu d' i < potAt mu d i)%nat)
    /\ (i = 0 -> 1 <= c).
Proof.
  intros Hrec Hgood HI Ht Hlist Hp0 HP Hsteps.
  pose proof (Inv_tokAt_OK _ _ _ _ HI Ht) as Hok.
  pose proof (Inv_tokAt_lt _ _ _ _ HI Ht) as Hrange.
  destruct (Hok_list t Hok Hlist) as [Hk Hlvl].
  destruct (listKind_bullet t Hk) as [bullet Hb].
  destruct (parseListItem_enter_returns k i d t bullet Ht Hb Hlvl
              (Hok_matches t Hok))
    as (status & value & d1 & Henter & Ht1 & Hc1).
  destruct (Hrelex_item t k Hok Hlist) as (Hok' & Hmu & Hlvl' & Hh & Hf).
  cbv zeta in *.
  unfold sub in Hlvl'. rewrite (nth_lookup_Some _ _ _ _ Hb) in Hlvl'.
  set (t' := (tokenize B (itemLine k t)).1) in *.
  set (minIndent := lvl t + Z.of_nat (length bullet)) in *.
  assert (HI1 : Inv' m d1) by (eapply Inv_insert; eauto).
  assert (Ht1' : tokAt d1 i = Some t') by (eapply tokAt_insert; eauto).
  pose proof (potAt_insert d d1 i t t' Ht Ht1) as Hpot1.
  pose proof (potAt_cons mu d i t Ht) as Hpot0.
  pose proof (potAt_ge m d i HI ltac:(lia)) as Hge.
  pose proof (Good_listItemStop m parentStop minIndent Hgood) as Hgood'.
  unfold parseListItem.
  erewrite bind_Done_l; [|exact Henter]. cbv beta iota.
  destruct (parseListItem_loop_ok rec P m (listItemStop parentStop minIndent)
              i Hrec Hgood' steps i [] d1 HI1 ltac:(lia) ltac:(lia)
              ltac:(lia) ltac:(lia))
    as (i' & nodes & d2 & Hloop & Hi' & HI2 & Hf2 & Hfirst).
  erewrite bind_Done_l; [|exact Hloop]. cbv beta iota.
  (* at the start of the buffer the loop takes a token *)
  assert (Hpos : 1 <= i' /\ (i = 0 -> i < i')).
  { destruct (Z.eq_dec i 0) as [->|Hne]; [|lia].
    assert (Hstop : listItemStop parentStop minIndent d1 0 = Some false).
    { unfold listItemStop.
      rewrite (proj2 Hgood d d1 t t' HI HI1 Ht
                 (isListToken_not_blank t Hlist) (Hp0 eq_refl) Ht1'
                 ltac:(destruct Hlvl'; [left; lia|right; assumption]) Hh Hf).
      cbn [mbind option_bind]. rewrite Ht1'. cbn [mbind option_bind].
      f_equal. destruct Hlvl' as [Hl|Hbl].
      - apply andb_false_iff. left. apply Z.ltb_ge. exact Hl.
      - rewrite Hbl. apply andb_false_r. }
    specialize (Hfirst eq_refl Hstop). lia. }
  destruct Hpos as [Hpos Hpos0].
  destruct (Inv_tokAt m d2 i HI2 ltac:(lia)) as (tS & HtS & _).
  destruct (Inv_tokAt m d2 (i' - 1) HI2 ltac:(lia)) as (tE & HtE & _).
  assert (Hframe : potFrame (i + (i' - i)) d d2
                   /\ (i' - i = 0 -> (potAt mu d2 i < potAt mu d i)%nat)).
  { replace (i + (i' - i)) with i' by lia. split.
    - intros j Hj. specialize (Hf2 j Hj).
      destruct (Z.eq_dec j i) as [->|Hne].
      + lia.
      + rewrite (potAt_sameFrom mu j d d1) in Hf2; [exact Hf2|].
        eapply sameFrom_insert; [exact Ht1|lia].
    - intros H0. specialize (Hf2 i ltac:(lia)). lia. }
  destruct Hframe as [Hframe Hless].
  assert (HtS' : tokAt (set_baseLvl d2 (baseLvl d)) i = Some tS)
    by exact HtS.
  assert (HtE' : tokAt (set_baseLvl d2 (baseLvl d)) (i' - 1) = Some tE)
    by exact HtE.
  unfold parseListItem_leave. rewrite modify_bind.
  destruct (bool_decide (k = DescriptiveList)).
  - rewrite get_bind.
    assert (HRL2 : forall p ds l,
              is_Some (ResolveLink (Config (set_baseLvl d2 (baseLvl d)))
                         p ds l)).
    { intros p ds l.
      change (Config (set_baseLvl d2 (baseLvl d))) with (Config d2).
      rewrite (proj1 (proj2 HI2)). apply HRL. }
    destruct (parseInlineWithPos_returns X (set_baseLvl d2 (baseLvl d))
                HRL2 HIB steps (itemTerm k (content t)) 0 0)
      as [term Hterm].
    { pose proof (itemTerm_length k (content t)).
      pose proof (Hok_content t Hok). lia. }
    rewrite (liftInline_bind _ _ _ _ Hterm).
    rewrite (tokenAt_bind _ _ _ _ HtS'), (tokenAt_bind _ _ _ _ HtE').
    eexists _, _, _.
    refine (conj eq_refl (conj _ (conj _ (conj HI2 (conj Hframe
              (conj Hless _)))))); lia.
  - rewrite (tokenAt_bind _ _ _ _ HtS'), (tokenAt_bind _ _ _ _ HtE').
    eexists _, _, _.
    refine (conj eq_refl (conj _ (conj _ (conj HI2 (conj Hframe
              (conj Hless _)))))); lia.
Qed.

(** The stop closure of parseList. *)
Lemma listStop_returns m parentStop lvl_ mk i d :
  Guarded TokOK cfg m parentStop -> Inv' m d -> 0 <= i ->
  exists b,
    listStop parentStop lvl_ mk i d = Done b d
    /\ (b = false ->
        parentStop d i = Some false
        /\ exists t, tokAt d i = Some t /\ isListToken t = true).
Proof.
  intros Hg HI Hi. unfold listStop.
  destruct (Hg d i HI Hi) as (p & Hp & Hlt).
  rewrite (callStop_bind _ _ _ _ _ Hp).
  destruct p; [exists true; split; [reflexivity|discriminate]|].
  destruct (Inv_tokAt m d i HI ltac:(specialize (Hlt eq_refl); lia))
    as (t & Ht & Hok).
  rewrite (tokenAt_bind _ _ _ _ Ht).
  destruct (negb (lvl t =? lvl_) || negb (isListToken t)) eqn:Hc;
    [exists true; split; [reflexivity|discriminate]|].
  apply orb_false_iff in Hc as [_ Hl]. apply negb_false_iff in Hl.
  destruct (Hok_list t Hok Hl) as [[[imk ik] Hk] _].
  unfold listKindM. rewrite Hk. rewrite ret_bind.
  eexists. split; [reflexivity|]. intros _. split; [exact Hp|eauto].
Qed.

Lemma listStop_first parentStop i d t mk k :
  parentStop d i = Some false -> tokAt d i = Some t ->
  isListToken t = true -> listKind t = Some (mk, k) ->
  listStop parentStop (lvl t) mk i d = Done false d.
Proof.
  intros Hp Ht Hl Hk. unfold listStop.
  rewrite (callStop_bind _ _ _ _ _ Hp), (tokenAt_bind _ _ _ _ Ht).
  rewrite Z.eqb_refl, Hl. cbn [negb orb].
  unfold listKindM. rewrite Hk, ret_bind.
  rewrite bool_decide_eq_true_2 by reflexivity. reflexivity.
Qed.

Lemma parseList_loop_eq rec steps n parentStop lvl_ mk k i items :
  parseList_loop X B rec steps n parentStop lvl_ mk k i items
  = (stopped ← listStop parentStop lvl_ mk i;
     if (stopped : bool) then ret (i, items) else
     match n with
     | O => outOfFuel
     | S n' =>
       '(consumed, node) ← parseListItem X B rec steps k i parentStop;
       parseList_loop X B rec steps n' parentStop lvl_ mk k (i + consumed)
         (items ++ [node])
     end).
Proof. destruct n; reflexivity. Qed.

(** The loop of parseList: every turn makes the rest of the buffer
    cheaper, by taking tokens or by re-tokenizing one. *)
Lemma parseList_loop_ok rec P steps m parentStop lvl_ mk k :
  recOK rec P -> Good m parentStop ->
  forall n i items d,
    Inv' m d -> 0 <= i <= Z.of_nat m ->
    (potAt mu d i <= P)%nat -> (potAt mu d i <= steps)%nat ->
    (potAt mu d i <= n)%nat ->
    exists i' items' d',
      parseList_loop X B rec steps n parentStop lvl_ mk k i items d
      = Done (i', items') d'
      /\ i <= i' <= Z.of_nat m /\ Inv' m d' /\ potFrame i' d d'
      /\ (i = 0 -> listStop parentStop lvl_ mk i d = Done false d -> 1 <= i').
Proof.
  intros Hrec Hgood.
  induction n as [|n IH]; intros i items d HI Hi HP Hsteps Hn;
    rewrite parseList_loop_eq;
    destruct (listStop_returns m parentStop lvl_ mk i d (proj1 Hgood) HI
                ltac:(lia)) as (b & Hb & Hfalse);
    (erewrite bind_Done_l; [|exact Hb]);
    (destruct b;
     [exists i, items, d;
      refine (conj eq_refl (conj _ (conj HI (conj (potFrame_refl _ _) _))));
      [lia|intros _ Hx; rewrite Hb in Hx; discriminate Hx]|]);
    destruct (Hfalse eq_refl) as (Hp & t & Ht & Hl).
  - pose proof (potAt_cons mu d i t Ht). lia.
  - destruct (parseListItem_ok rec P steps m parentStop k i d t Hrec Hgood HI
                Ht Hl ltac:(intros ->; exact Hp) HP Hsteps)
      as (c & node & d1 & Hr & Hc & Hm & HI1 & Hf & Hless & Hfirst).
    erewrite bind_Done_l; [|exact Hr]. cbv beta iota.
    assert (Hdec : (potAt mu d1 (i + c) < potAt mu d i)%nat).
    { destruct (Z.eq_dec c 0) as [->|Hne].
      - rewrite Z.add_0_r. apply Hless. reflexivity.
      - specialize (Hf (i + c) ltac:(lia)).
        pose proof (potAt_step mu d i c t Ht ltac:(lia)). lia. }
    destruct (IH (i + c) (items ++ [node]) d1 HI1 ltac:(lia) ltac:(lia)
                ltac:(lia) ltac:(lia))
      as (i' & items' & d' & Hloop & Hi' & HI' & Hf' & _).
    exists i', items', d'.
    refine (conj Hloop (conj _ (conj HI' (conj _ _)))).
    + lia.
    + eapply potFrame_trans; [eapply potFrame_mono; [|exact Hf]; lia|exact Hf'].
    + intros H0 _. specialize (Hfirst H0). lia.
Qed.

(** parseList returns. *)
Lemma parseList_ok rec P steps m stop i d t :
  recOK rec P -> Good m stop -> Inv' m d ->
  tokAt d i = Some t -> isListToken t = true ->
  (i = 0 -> stop d 0 = Some false) ->
  (potAt mu d i <= P)%nat -> (potAt mu d i <= steps)%nat ->
  stepOK2 m 0 i d (parseList X B rec steps i stop d).
Proof.
  intros Hrec Hgood HI Ht Hl Hp0 HP Hsteps.
  pose proof (Inv_tokAt_OK _ _ _ _ HI Ht) as Hok.
  pose proof (Inv_tokAt_lt _ _ _ _ HI Ht) as Hrange.
  destruct (Hok_list t Hok Hl) as [[[mk k] Hk] _].
  unfold parseList. rewrite (tokenAt_bind _ _ _ _ Ht). cbv beta iota zeta.
  unfold listKindM. rewrite Hk, ret_bind. cbv beta iota.
  destruct (parseList_loop_ok rec P steps m stop (lvl t) mk k Hrec Hgood
              steps i [] d HI ltac:(lia) HP Hsteps Hsteps)
    as (i' & items & d' & Hloop & Hi' & HI' & Hf & Hfirst).
  erewrite bind_Done_l; [|exact Hloop]. cbv beta iota.
  assert (Hpos : 1 <= i').
  { destruct (Z.eq_dec i 0) as [->|Hne]; [|lia].
    apply Hfirst; [reflexivity|].
    eapply listStop_first; eauto. }
  destruct (Inv_tokAt m d' i HI' ltac:(lia)) as (tS & HtS & _).
  destruct (Inv_tokAt m d' (i' - 1) HI' ltac:(lia)) as (tE & HtE & _).
  rewrite (tokenAt_bind _ _ _ _ HtS), (tokenAt_bind _ _ _ _ HtE).
  eexists _, _, _.
  refine (conj eq_refl (conj _ (conj _ (conj HI' _)))); [lia|lia|].
  eapply potFrame_mono; [|exact Hf]. lia.
Qed.

(** parseFootnoteDefinition returns. *)
Lemma parseFootnoteDefinition_ok rec P steps m stop i d t :
  recOK rec P -> Good m stop -> Inv' m d ->
  tokAt d i = Some t ->
  str_eqb (kind t) (str "footnoteDefinition") = true ->
  (potAt mu d i <= P)%nat -> (potAt mu d i <= steps)%nat ->
  stepOK2 m 0 i d (parseFootnoteDefinition B rec steps i stop d).
Proof.
  intros Hrec Hgood HI Ht Hkind HP Hsteps.
  pose proof (Inv_tokAt_OK _ _ _ _ HI Ht) as Hok.
  pose proof (Inv_tokAt_lt _ _ _ _ HI Ht) as Hrange.
  destruct (Hok_foot t Hok Hkind) as [l Hl].
  destruct (Hrelex_foot t l Hok Hkind Hl) as [Hok' Hmu]. cbv zeta in *.
  unfold parseFootnoteDefinition.
  rewrite (tokenAt_bind _ _ _ _ Ht). cbv beta iota zeta.
  rewrite (tokenAt_bind _ _ _ _ Ht), (index_bind _ _ _ _ _ Hl).
  destruct (retokenize_returns i l d t Ht) as (d1 & Hr & Ht1 & Hc1 & _).
  erewrite bind_Done_l; [|exact Hr].
  assert (HI1 : Inv' m d1) by (eapply Inv_insert; eauto).
  pose proof (potAt_insert d d1 i t _ Ht Ht1) as Hpot1.
  pose proof (potAt_cons mu d i t Ht) as Hpot0.
  pose proof (potAt_ge m d i HI ltac:(lia)) as Hge.
  unfold parseMany.
  destruct (parseMany_loop_ok rec P m (footnoteStop B stop i) Hrec
              (Good_footnoteStop m stop i Hgood ltac:(lia))
              steps i [] d1 HI1 ltac:(lia) ltac:(lia) ltac:(lia))
    as (i' & nodes & d2 & Hloop & Hi' & HI2 & Hf).
  erewrite bind_Done_l;
    [|erewrite bind_Done_l; [|exact Hloop]; reflexivity].
  cbv beta iota.
  assert (Hframe : potFrame (i + Z.max (i' - i) 1) d d2).
  { intros j Hj. specialize (Hf j ltac:(lia)).
    rewrite (potAt_sameFrom mu j d d1) in Hf; [exact Hf|].
    eapply sameFrom_insert; [exact Ht1|lia]. }
  destruct (0 <? i' - i) eqn:Hc.
  - apply Z.ltb_lt in Hc.
    destruct (Inv_tokAt m d2 (i + (i' - i) - 1) HI2 ltac:(lia))
      as (tE & HtE & _).
    erewrite bind_Done_l;
      [|rewrite (tokenAt_bind _ _ _ _ HtE); reflexivity].
    eexists _, _, _.
    refine (conj eq_refl (conj _ (conj _ (conj HI2 Hframe)))); lia.
  - apply Z.ltb_ge in Hc. rewrite ret_bind.
    eexists _, _, _.
    refine (conj eq_refl (conj _ (conj _ (conj HI2 Hframe)))); lia.
Qed.

Lemma stepOK2_weaken m minc minc' i d r :
  minc' <= minc -> stepOK2 m minc i d r -> stepOK2 m minc' i d r.
Proof.
  intros Hle (c & node & d' & Hr & Hc & Hm & HI & Hf).
  exists c, node, d'. refine (conj Hr (conj _ (conj Hm (conj HI Hf)))). lia.
Qed.

(** The paragraph parser modelled from the spec meets what is asked of
    the paragraph parser: its loop stops at the end of the buffer at the
    latest, and the text it has joined is parsed inline. *)
Lemma paragraphStop_Guarded m stop :
  Guarded TokOK cfg m stop -> Guarded TokOK cfg m (paragraphStop stop).
Proof.
  intros Hg d j HI Hj. unfold paragraphStop.
  destruct (Hg d j HI Hj) as (b & -> & Hlt). simpl.
  destruct b; [eexists; split; [reflexivity|discriminate]|].
  specialize (Hlt eq_refl).
  destruct (Inv_tokAt m d j HI) as (t & -> & _); [lia|]. simpl.
  eexists. split; [reflexivity|]. intros _. exact Hlt.
Qed.

Lemma parseParagraph_loop_ok m stop d :
  Guarded TokOK cfg m stop -> Inv' m d ->
  forall n j lines,
    0 <= j <= Z.of_nat m -> (Z.to_nat (Z.of_nat m - j) <= n)%nat ->
    exists j' lines',
      parseParagraph_loop n j stop lines d = Done (j', lines') d
      /\ j <= j' <= Z.of_nat m.
Proof.
  intros Hg HI. induction n as [|n IH]; intros j lines Hj Hn;
    cbn [parseParagraph_loop];
    destruct (callStop_Guarded m stop d j Hg HI ltac:(lia))
      as (b & Hcall & Hb & Hlt);
    rewrite (callStop_bind _ _ _ _ _ Hb);
    (destruct b; [exists j, lines; split; [reflexivity|lia]|]);
    specialize (Hlt eq_refl).
  - lia.
  - destruct (Inv_tokAt m d j HI ltac:(lia)) as (t & Ht & _).
    rewrite (tokenAt_bind _ _ _ _ Ht).
    destruct (IH (j + 1) (lines ++ [content t]) ltac:(lia) ltac:(lia))
      as (j' & lines' & Hr & Hj').
    exists j', lines'. split; [exact Hr|lia].
Qed.

Lemma parseParagraph_spec_returns m i stop d t :
  Guarded TokOK cfg m stop -> Inv' m d -> tokAt d i = Some t ->
  exists c node,
    parseParagraph_spec X i stop d = Done (c, node) d
    /\ 1 <= c /\ i + c <= Z.of_nat m.
Proof.
  intros Hg HI Ht.
  pose proof (Inv_tokAt_lt _ _ _ _ HI Ht) as Hi.
  unfold parseParagraph_spec. cbv zeta.
  rewrite (tokenAt_bind _ _ _ _ Ht), get_bind.
  destruct (parseParagraph_loop_ok m (paragraphStop stop) d
              (paragraphStop_Guarded m stop Hg) HI
              (length (toks d)) (i + 1) [content t] ltac:(lia))
    as (j & lines & Hloop & Hj).
  { destruct HI as (Hlen & _). rewrite Hlen. lia. }
  erewrite bind_Done_l; [|exact Hloop]. cbv beta iota.
  destruct (parseInlineWithPos_returns X d) with
    (fuel := S (length (Join lines [nl]))) (input := Join lines [nl])
    (sl := 0) (sc := 0) as [children Hin].
  { destruct HI as (_ & -> & _). exact HRL. }
  { exact HIB. }
  { lia. }
  unfold parseInline. rewrite (liftInline_bind _ _ _ _ Hin).
  destruct (Inv_tokAt m d (j - 1) HI ltac:(lia)) as (tEnd & HtEnd & _).
  rewrite (tokenAt_bind _ _ _ _ HtEnd).
  eexists (j - i), _. split; [reflexivity|]. lia.
Qed.

Lemma parseParagraph_spec_ok m i stop d t :
  Guarded TokOK cfg m stop -> Inv' m d -> tokAt d i = Some t ->
  stepOK' m 1 i d (parseParagraph_spec X i stop d).
Proof.
  intros Hg HI Ht.
  destruct (parseParagraph_spec_returns m i stop d t Hg HI Ht)
    as (c & node & Hr & Hc & Hm).
  exists c, node, d.
  exact (conj Hr (conj Hc (conj Hm (conj HI (sameFrom_refl _ _))))).
Qed.

(** parseOne on a text token: a blank line is skipped, any other line goes
    to the paragraph parser. *)
Lemma parseOne_text f m i stop d t :
  Guarded TokOK cfg m stop -> Inv' m d ->
  tokAt d i = Some t -> str_eqb (kind t) (str "text") = true ->
  stepOK2 m 1 i d (parseOne (S f) X B i stop d).
Proof.
  intros Hg HI Ht Hkind.
  pose proof (Inv_tokAt_lt _ _ _ _ HI Ht) as Hrange.
  change (parseOne (S f) X B i stop d)
    with (parseOne_body X B (parseOne f X B) f i stop d).
  unfold parseOne_body. rewrite (tokenAt_bind _ _ _ _ Ht).
  destruct (isBlankText t).
  - exists 1, None, d.
    refine (conj eq_refl (conj _ (conj _ (conj HI (potFrame_refl _ _))))); lia.
  - assert (Hsw : parseOne_switch X B (parseOne f X B) f t i stop
                  = parseParagraph B i stop).
    { unfold parseOne_switch. apply str_eqb_eq in Hkind. rewrite Hkind.
      reflexivity. }
    rewrite Hsw.
    destruct (stepOK_stepOK2 m 1 i d _ ltac:(lia)
                (Hpara m i stop d t Hg HI Ht Hkind))
      as (c & node & d' & Hr & Hc & Hm & HI' & Hf).
    erewrite bind_Done_l; [|exact Hr]. cbv beta iota.
    replace (c =? 0) with false by (symmetry; apply Z.eqb_neq; lia).
    cbn [negb].
    exists c, node, d'. exact (conj eq_refl (conj Hc (conj Hm (conj HI' Hf)))).
Qed.

(** The token is of the one kind of the case it was dispatched on. *)
Ltac own_kind E :=
  apply str_eqb_eq in E; rewrite E; simpl; left.

(** The contract of parseOne: with fuel beyond the cost of the tokens from
    [i] on, it returns, takes at least one token and none beyond the end
    of the buffer, and keeps the invariant. *)
Lemma parseOne_ok : forall F, recOK (parseOne F X B) F.
Proof.
  induction F as [|f IH]; intros m i stop d Hgood HI Hi Hp0 Hpot; [lia|].
  destruct (Inv_tokAt m d i HI Hi) as (t & Ht & Hok).
  pose proof (potAt_cons mu d i t Ht) as Hpot0.
  change (parseOne (S f) X B i stop d)
    with (parseOne_body X B (parseOne f X B) f i stop d).
  unfold parseOne_body. rewrite (tokenAt_bind _ _ _ _ Ht).
  destruct (isBlankText t) eqn:Hbl.
  { exists 1, None, d.
    refine (conj eq_refl (conj _ (conj _ (conj HI (potFrame_refl _ _))))); lia. }
  assert (Hsw : stepOK2 m 0 i d
                  (parseOne_switch X B (parseOne f X B) f t i stop d)).
  { pose proof Habsent as Ha. unfold absentParsers in Ha.
    repeat match type of Ha with
           | Forall _ (_ :: _) =>
             let H := fresh "Hwb" in
             apply Forall_cons in Ha as [H Ha]
           end.
    unfold parseOne_switch. cbv zeta.
    destruct (str_eqb (kind t) (str "unorderedList")
              || str_eqb (kind t) (str "orderedList")) eqn:E1.
    { eapply parseList_ok; eauto; lia. }
    destruct (str_eqb (kind t) (str "tableRow")
              || str_eqb (kind t) (str "tableSeparator")) eqn:Etable.
    { apply stepOK_stepOK2; [lia|].
      eapply Hwb; [apply Hgood|exact HI|exact Ht|].
      apply orb_true_iff in Etable as [E|E]; apply str_eqb_eq in E;
        rewrite E; [left|right; left]. }
    destruct (str_eqb (kind t) (str "beginBlock")) eqn:Eblock;
      [apply stepOK_stepOK2; [lia|]; eapply Hwb0;
       [apply Hgood|exact HI|exact Ht|own_kind Eblock]|].
    destruct (str_eqb (kind t) (str "beginLatexBlock")) eqn:Elatex;
      [apply stepOK_stepOK2; [lia|]; eapply Hwb1;
       [apply Hgood|exact HI|exact Ht|own_kind Elatex]|].
    destruct (str_eqb (kind t) (str "result")) eqn:Eresult;
      [apply stepOK_stepOK2; [lia|]; eapply Hwb2;
       [apply Hgood|exact HI|exact Ht|own_kind Eresult]|].
    destruct (str_eqb (kind t) (str "beginDrawer")) eqn:Edrawer;
      [apply stepOK_stepOK2; [lia|]; eapply Hwb3;
       [apply Hgood|exact HI|exact Ht|own_kind Edrawer]|].
    destruct (str_eqb (kind t) (str "text")) eqn:Etext.
    { eapply stepOK2_weaken; [|apply stepOK_stepOK2; [lia|];
                                eapply Hpara; eauto; apply Hgood]. lia. }
    destruct (str_eqb (kind t) (str "example")) eqn:Eexample;
      [apply stepOK_stepOK2; [lia|]; eapply Hwb4;
       [apply Hgood|exact HI|exact Ht|own_kind Eexample]|].
    destruct (str_eqb (kind t) (str "horizontalRule")) eqn:Erule;
      [apply stepOK_stepOK2; [lia|]; eapply Hwb5;
       [apply Hgood|exact HI|exact Ht|own_kind Erule]|].
    destruct (str_eqb (kind t) (str "comment")) eqn:Ecomment;
      [apply stepOK_stepOK2; [lia|]; eapply Hwb6;
       [apply Hgood|exact HI|exact Ht|own_kind Ecomment]|].
    destruct (str_eqb (kind t) (str "keyword")) eqn:Ekeyword;
      [apply stepOK_stepOK2; [lia|]; eapply Hwb7;
       [apply Hgood|exact HI|exact Ht|own_kind Ekeyword]|].
    destruct (str_eqb (kind t) (str "headline")) eqn:Eheadline;
      [apply stepOK_stepOK2; [lia|]; eapply Hwb8;
       [apply Hgood|exact HI|exact Ht|own_kind Eheadline]|].
    destruct (str_eqb (kind t) (str "footnoteDefinition")) eqn:Efoot.
    { eapply parseFootnoteDefinition_ok; eauto; lia. }
    exists 0, None, d.
    refine (conj eq_refl (conj _ (conj _ (conj HI (potFrame_refl _ _))))); lia. }
  destruct Hsw as (c & node & d2 & Hr & Hc & Hm & HI2 & Hf).
  erewrite bind_Done_l; [|exact Hr]. cbv beta iota.
  destruct (c =? 0) eqn:Hz; cbn [negb].
  - apply Z.eqb_eq in Hz. subst c.
    destruct (Inv_tokAt m d2 i HI2 Hi) as (t2 & Ht2 & Hok2).
    destruct (Hok_matches t2 Hok2) as [line0 Hl0].
    erewrite bind_Done_l; [|exact (coerceToText_returns B i d2 t2 line0 HB Ht2 Hl0)].
    destruct f as [|f']; [lia|].
    assert (Htext : tokAt (coerced d2 i t2 line0) i = Some (textTokenOf line0)).
    { unfold coerced. eapply tokAt_setTok. exact Ht2. }
    assert (HI3 : Inv' m (coerced d2 i t2 line0)).
    { unfold coerced. apply Inv_setTok; [apply Inv_AddError; exact HI2|].
      apply Hok_text. }
    destruct (parseOne_text f' m i stop _ _ (proj1 Hgood) HI3 Htext eq_refl)
      as (c' & node' & d4 & Hr' & Hc' & Hm' & HI4 & Hf').
    exists c', node', d4.
    refine (conj Hr' (conj Hc' (conj Hm' (conj HI4 _)))).
    replace (Z.max c' 1) with c' in * by lia.
    eapply potFrame_trans; [|exact Hf'].
    eapply potFrame_trans; [eapply potFrame_mono; [|exact Hf]; lia|].
    apply sameFrom_potFrame; [lia|].
    eapply sameFrom_mono;
      [|exact (sameFrom_insert d2 (coerced d2 i t2 line0) i (i + 1)
                 (textTokenOf line0) eq_refl ltac:(lia))].
    lia.
  - apply Z.eqb_neq in Hz.
    exists c, node, d2.
    refine (conj eq_refl (conj _ (conj Hm (conj HI2 Hf)))). lia.
Qed.

Lemma parseMany_loop_exit rec n : forall i stop nodes d i' nodes' d',
  parseMany_loop rec n i stop nodes d = Done (i', nodes') d' ->
  ntokens d' <= i' \/ stop d' i' = Some true.
Proof.
  induction n as [|n IH]; intros i stop nodes d i' nodes' d' H; simpl in H;
    apply bind_Done_inv in H as (d0 & d1 & Hget & H);
    injection Hget as <- <-;
    (destruct (negb (i <? ntokens d)) eqn:Hi;
     [injection H as <- <- <-; apply negb_true_iff, Z.ltb_ge in Hi; auto|]);
    apply bind_Done_inv in H as (stopped & d2 & Hstop & H);
    apply callStop_Done in Hstop as [-> Hstop];
    (destruct stopped; [injection H as <- <- <-; auto|]).
  - discriminate H.
  - apply bind_Done_inv in H as ([c node] & d3 & _ & H).
    exact (IH _ _ _ _ _ _ _ H).
Qed.

(** The block parser, started on a whole buffer, returns and takes every
    token. *)
Lemma parseManyTop_returns m d fuel :
  Inv' m d -> (potAt mu d 0 < fuel)%nat ->
  exists nodes d',
    parseManyTop fuel X B 0 topStop d = Done (Z.of_nat m, nodes) d'
    /\ Inv' m d'.
Proof.
  intros HI Hpot. unfold parseManyTop, parseMany.
  pose proof (potAt_ge m d 0 HI ltac:(lia)) as Hge.
  destruct (parseMany_loop_ok (parseOne fuel X B) fuel m topStop
              (parseOne_ok fuel) (Good_topStop m) fuel 0 [] d HI
              ltac:(lia) Hpot ltac:(lia))
    as (i' & nodes & d' & Hloop & Hi' & HI' & _).
  assert (Hend : i' = Z.of_nat m).
  { destruct (parseMany_loop_exit _ _ _ _ _ _ _ _ _ Hloop) as [Hx|Hx].
    - rewrite (Inv_ntokens _ _ HI') in Hx. lia.
    - unfold topStop in Hx. rewrite (Inv_ntokens _ _ HI') in Hx.
      injection Hx as Hx. apply Z.leb_le in Hx. lia. }
  subst i'.
  erewrite bind_Done_l; [|exact Hloop].
  exists nodes, d'. split; [|exact HI'].
  cbv beta iota. rewrite Z.sub_0_r. reflexivity.
Qed.

End BlockTotal.
(** ** The body level of a descriptive item *)


(** ** The plain-text fallback of the matcher table *)

Lemma lexText_spec_total line_ : lexText_spec line_ = (textTokenOf line_, true).
Proof. reflexivity. Qed.











(** ** The recovery of parseOne *)




(** * Further properties of the code *)

(** ** The inline parser always returns *)

(** A run of it: a text with nested emphasis, a footnote reference with
    an inline definition and a link, under the default configuration. *)
Lemma parseInlineWithPos_total_witness :
  exists ns,
    parseInlineWithPos 40 noExternals (newDocument New [])
      (str "a *b /c/* [fn:x:y =z=] [[u][v]] d") 0 0 = ROk ns.
Proof.
  apply parseInlineWithPos_total.
  - intros p ds l. eexists. reflexivity.
  - intros s m H. discriminate H.
  - vm_compute. lia.
Defined.

(** ** Raw inline parsing keeps the text *)

Lemma newlineRun_replicate r :
  take (newlineRun r) r = replicate (newlineRun r) nl.
Proof.
  induction r as [|c r IH]; simpl; [reflexivity|].
  destruct (byte_eqb c nl) eqn:Hc; [|reflexivity].
  apply byte_eqb_eq in Hc. subst c. simpl. rewrite IH. reflexivity.
Qed.

Lemma newlineRun_le r : (newlineRun r <= length r)%nat.
Proof.
  induction r as [|c r IH]; simpl; [lia|].
  destruct (byte_eqb c nl); simpl; lia.
Qed.

Lemma newlines_app a b : newlines (a ++ b) = newlines a + newlines b.
Proof. induction a as [|c a IH]; simpl; [lia|]. rewrite IH. lia. Qed.

Lemma slice_snoc (input : gostring) i j c :
  (i <= j)%nat -> input !! j = Some c ->
  slice input i (S j) = slice input i j ++ [c].
Proof.
  intros Hle Hc. unfold slice.
  replace (S j - i)%nat with (S (j - i)) by lia.
  rewrite (take_S_r _ _ c); [reflexivity|].
  rewrite lookup_drop. replace (i + (j - i))%nat with j by lia. exact Hc.
Qed.

Lemma take_slice (input : gostring) i j :
  (i <= j)%nat -> take j input = take i input ++ slice input i j.
Proof.
  intros Hle. unfold slice.
  replace j with (i + (j - i))%nat at 1 by lia.
  rewrite <- take_take_drop. reflexivity.
Qed.

Lemma concat_map_snoc {A B} (f : A -> list B) l x :
  concat (map f (l ++ [x])) = concat (map f l) ++ f x.
Proof. rewrite map_app, concat_app. simpl. rewrite app_nil_r. reflexivity. Qed.

Lemma parseRawInline_loop_keeps input sl sc :
  forall steps previous current nodes ns,
    (previous <= current)%nat -> (current <= length input)%nat ->
    concat (map rawText nodes) = take previous input ->
    newlines (slice input previous current) = 0 ->
    Forall isRawNode nodes ->
    parseRawInline_loop steps input sl sc previous current nodes = ROk ns ->
    concat (map rawText ns) = input /\ Forall isRawNode ns.
Proof.
  induction steps as [|steps IH];
    intros previous current nodes ns Hpc Hcl Hcat Hnl Hall H; simpl in H;
    destruct (current <? length input)%nat eqn:Hlt; try discriminate.
  - (* the loop is over *)
    apply Nat.ltb_ge in Hlt. assert (current = length input) as -> by lia.
    injection H as <-.
    destruct (previous <? length input)%nat eqn:Hp.
    + apply Nat.ltb_lt in Hp. unfold textBetween. split.
      * rewrite concat_map_snoc, Hcat. simpl.
        rewrite <- (take_slice input previous (length input)) by lia.
        apply firstn_all.
      * apply Forall_app. split; [exact Hall|].
        constructor; [|constructor]. simpl. split; [|exact Hnl].
        intros Hnil. apply (f_equal length) in Hnil.
        unfold slice in Hnil. rewrite length_take, length_drop in Hnil.
        simpl in Hnil. lia.
    + apply Nat.ltb_ge in Hp. split; [|exact Hall].
      rewrite Hcat. apply take_ge. lia.
  - apply Nat.ltb_lt in Hlt.
    destruct (input !! current) as [c|] eqn:Hc; [|discriminate].
    destruct (byte_eqb c nl) eqn:Hcnl.
    + apply byte_eqb_eq in Hcnl. subst c.
      unfold parseLineBreakWithPos in H. cbv zeta in H.
      pose proof (newlineRun_pos _ _ Hc) as Hrun.
      pose proof (newlineRun_le (drop current input)) as Hrle.
      rewrite length_drop in Hrle.
      set (k := newlineRun (drop current input)) in *.
      replace (current + k - current)%nat with k in H by lia.
      eapply IH in H; [exact H|lia|lia| |rewrite slice_empty; reflexivity|].
      * (* the text again *)
        rewrite concat_map_snoc.
        assert (Hrun_text : slice input current (current + k)
                            = replicate k nl).
        { unfold slice. replace (current + k - current)%nat with k by lia.
          apply newlineRun_replicate. }
        simpl rawText. rewrite Nat2Z.id, <- Hrun_text.
        rewrite (take_slice input current (current + k)) by lia.
        rewrite (take_slice input previous current) by lia.
        f_equal.
        destruct (previous <? current)%nat eqn:Hp.
        -- rewrite concat_map_snoc, Hcat. reflexivity.
        -- apply Nat.ltb_ge in Hp. assert (previous = current) as -> by lia.
           rewrite slice_empty, app_nil_r. exact Hcat.
      * apply Forall_app. split.
        -- destruct (previous <? current)%nat eqn:Hp; [|exact Hall].
           apply Nat.ltb_lt in Hp. apply Forall_app. split; [exact Hall|].
           constructor; [|constructor]. simpl. split; [|exact Hnl].
           intros Hnil. apply (f_equal length) in Hnil.
           unfold slice in Hnil. rewrite length_take, length_drop in Hnil.
           simpl in Hnil. lia.
        -- constructor; [|constructor]. simpl. lia.
    + eapply IH in H; [exact H|lia|lia|exact Hcat| |exact Hall].
      rewrite (slice_snoc _ _ _ c) by (try lia; exact Hc).
      rewrite newlines_app, Hnl. simpl. rewrite Hcnl. reflexivity.
  - apply Nat.ltb_ge in Hlt. assert (current = length input) as -> by lia.
    injection H as <-.
    destruct (previous <? length input)%nat eqn:Hp.
    + apply Nat.ltb_lt in Hp. unfold textBetween. split.
      * rewrite concat_map_snoc, Hcat. simpl.
        rewrite <- (take_slice input previous (length input)) by lia.
        apply firstn_all.
      * apply Forall_app. split; [exact Hall|].
        constructor; [|constructor]. simpl. split; [|exact Hnl].
        intros Hnil. apply (f_equal length) in Hnil.
        unfold slice in Hnil. rewrite length_take, length_drop in Hnil.
        simpl in Hnil. lia.
    + apply Nat.ltb_ge in Hp. split; [|exact Hall].
      rewrite Hcat. apply take_ge. lia.
Qed.

(** X2. Raw inline parsing, used for verbatim emphasis, inline blocks and
    LaTeX fragments, returns on every text, and its nodes are the text cut
    at the runs of newlines: raw [Text] nodes that are not empty and hold
    no newline alternate with [LineBreak] nodes that count their
    newlines, and writing the nodes out one after the other gives the
    input back, byte for byte. *)
Theorem parseRawInline_keeps_text (input : gostring) (sl sc : Z) :
  exists ns,
    parseRawInlineWithPos input sl sc = ROk ns
    /\ concat (map rawText ns) = input
    /\ Forall isRawNode ns.
Proof.
  destruct (parseRawInline_loop_total input sl sc (length input) 0 0 [])
    as [ns Hns]; [lia|].
  exists ns. split; [exact Hns|].
  eapply parseRawInline_loop_keeps; [| | | | |exact Hns]; try lia;
    try reflexivity; constructor.
Qed.

(** ** Positions of inline nodes *)

Lemma tailLength_app a b acc :
  tailLength (a ++ b) acc = tailLength b (tailLength a acc).
Proof.
  revert acc. induction a as [|c a IH]; intros acc; simpl; [reflexivity|].
  destruct (byte_eqb c nl); apply IH.
Qed.

Lemma tailLength_no_newline s : forall acc,
  newlines s = 0 -> tailLength s acc = (acc + length s)%nat.
Proof.
  induction s as [|c s IH]; intros acc H; simpl in *; [lia|].
  pose proof (newlines_nonneg s).
  destruct (byte_eqb c nl); [lia|]. rewrite IH by lia. lia.
Qed.

Lemma tailLength_newline s : forall acc,
  newlines s <> 0 -> tailLength s acc = tailLength s O.
Proof.
  induction s as [|c s IH]; intros acc H; simpl in *; [lia|].
  destruct (byte_eqb c nl); [reflexivity|].
  destruct (Z.eq_dec (newlines s) 0) as [H0|H0].
  - rewrite !tailLength_no_newline by exact H0. lia.
  - rewrite (IH (S acc)), (IH 1%nat) by exact H0. reflexivity.
Qed.

Lemma calculatePosition_loop_spec : forall input n line col,
  calculatePosition_loop input n line col
  = (line + newlines (take n input),
     if newlines (take n input) =? 0
     then col + Z.of_nat (length (take n input))
     else 1 + Z.of_nat (tailLength (take n input) O)).
Proof.
  induction input as [|c input IH]; intros n line col.
  - destruct n; simpl; f_equal; lia.
  - destruct n as [|n]; [simpl; f_equal; lia|].
    simpl. pose proof (newlines_nonneg (take n input)) as Hnn.
    destruct (byte_eqb c nl) eqn:Hc; rewrite IH.
    + destruct (newlines (take n input) =? 0) eqn:H0.
      * apply Z.eqb_eq in H0. rewrite H0. simpl.
        rewrite tailLength_no_newline by exact H0. f_equal; lia.
      * apply Z.eqb_neq in H0.
        replace (1 + newlines (take n input) =? 0) with false
          by (symmetry; apply Z.eqb_neq; lia).
        f_equal; lia.
    + replace (0 + newlines (take n input)) with (newlines (take n input))
        by lia.
      destruct (newlines (take n input) =? 0) eqn:H0.
      * f_equal; lia.
      * apply Z.eqb_neq in H0.
        rewrite (tailLength_newline _ 1%nat) by exact H0. f_equal; lia.
Qed.

(** X3. calculatePosition turns a byte offset into a line and a column:
    the line is the start line plus the number of newlines before the
    offset; the column is the start column plus the offset as long as no
    newline comes before the offset, and one plus the number of bytes since
    the last newline after that. Columns count bytes, whatever the
    encoding, and an offset beyond the end of the text stands for the end
    of the text. *)
Theorem calculatePosition_line_column
    (input : gostring) (startLine startColumn : Z) (charOffset : nat) :
  let before := take charOffset input in
  let line := startLine + newlines before in
  let col :=
    if newlines before =? 0
    then startColumn + Z.of_nat (length before)
    else 1 + Z.of_nat (tailLength before O) in
  calculatePosition input startLine startColumn charOffset
  = mkPosition line col line col
  /\ (forall beyond, (length input <= beyond)%nat ->
        calculatePosition input startLine startColumn beyond
        = calculatePosition input startLine startColumn (length input)).
Proof.
  cbv zeta. split.
  - unfold calculatePosition. rewrite calculatePosition_loop_spec.
    reflexivity.
  - intros beyond Hb. unfold calculatePosition.
    rewrite !calculatePosition_loop_spec.
    rewrite (take_ge input beyond), (take_ge input (length input)) by lia.
    reflexivity.
Qed.

(** X4. The range positionFromChars gives to the bytes from [startOffset]
    to [endOffset] is well ordered when the offsets are: it does not end
    on an earlier line than it starts on, and when it starts and ends on
    the same line it does not end on an earlier column. *)
Theorem positionFromChars_ordered
    (input : gostring) (startLine startColumn : Z)
    (startOffset endOffset : nat) :
  (startOffset <= endOffset)%nat ->
  let p := positionFromChars input startLine startColumn
             startOffset endOffset in
  StartLine p <= EndLine p
  /\ (StartLine p = EndLine p -> StartColumn p <= EndColumn p).
Proof.
  intros Hle. cbv zeta. unfold positionFromChars, calculatePosition.
  rewrite !calculatePosition_loop_spec. simpl.
  rewrite (take_slice input startOffset endOffset Hle).
  set (a := take startOffset input).
  set (b := slice input startOffset endOffset).
  rewrite newlines_app, length_app, tailLength_app.
  pose proof (newlines_nonneg a). pose proof (newlines_nonneg b).
  split; [lia|]. intros Hsame. assert (Hb : newlines b = 0) by lia.
  rewrite Hb, Z.add_0_r.
  destruct (newlines a =? 0); [lia|].
  rewrite (tailLength_no_newline b) by exact Hb. lia.
Qed.

Lemma positionFromChars_ordered_witness :
  let p := positionFromChars (str ("ab" ++ String nl "cd")) 3 7 1 4 in
  StartLine p <= EndLine p
  /\ (StartLine p = EndLine p -> StartColumn p <= EndColumn p).
Proof. apply positionFromChars_ordered. lia. Defined.

(** ** Anatomy of an automatic link *)

Lemma slice_app (input : gostring) a b c :
  (a <= b)%nat -> (b <= c)%nat ->
  slice input a c = slice input a b ++ slice input b c.
Proof.
  intros Hab Hbc. unfold slice.
  replace (c - a)%nat with ((b - a) + (c - b))%nat by lia.
  rewrite <- take_take_drop, drop_drop.
  replace (a + (b - a))%nat with b by lia. reflexivity.
Qed.

Lemma urlRun_le r : (urlRun r <= length r)%nat.
Proof.
  induction r as [|c r IH]; simpl; [lia|].
  destruct (ContainsRune _ _); simpl; lia.
Qed.

Lemma urlRun_spec r :
  Forall (fun c => isURLByte c = true) (take (urlRun r) r)
  /\ (forall c, r !! urlRun r = Some c -> isURLByte c = false).
Proof.
  induction r as [|c r [IH1 IH2]]; simpl.
  - split; [constructor|discriminate].
  - destruct (ContainsRune validURLCharacters (byteZ c)) eqn:Hc; simpl.
    + split; [constructor; assumption|exact IH2].
    + split; [constructor|]. intros c' [= <-]. exact Hc.
Qed.

Lemma protocolStart_loop_le input : forall p,
  (protocolStart_loop input p <= S p)%nat.
Proof.
  induction p as [|p IH]; simpl; [lia|].
  destruct (input !! S p) as [c|]; [|lia].
  destruct (negb (unicode.IsLetter c)); lia.
Qed.

Lemma autolinkProtocols_Some s m :
  autolinkProtocols s = Some m -> m = [s; s] /\ s ∈ autolinkSchemes.
Proof.
  unfold autolinkProtocols, autolinkSchemes. intros H.
  destruct (str_eqb s (str "http")) eqn:H1;
    [apply str_eqb_eq in H1; injection H as <-; split;
       [reflexivity|rewrite H1; set_solver]|].
  destruct (str_eqb s (str "https")) eqn:H2;
    [apply str_eqb_eq in H2; injection H as <-; split;
       [reflexivity|rewrite H2; set_solver]|].
  destruct (str_eqb s (str "ftp")) eqn:H3;
    [apply str_eqb_eq in H3; injection H as <-; split;
       [reflexivity|rewrite H3; set_solver]|].
  destruct (str_eqb s (str "file")) eqn:H4;
    [apply str_eqb_eq in H4; injection H as <-; split;
       [reflexivity|rewrite H4; set_solver]|].
  discriminate H.
Qed.

(** X5. What an automatic link is made of. When parseAutoLinkWithPos, called
    at the colon at [start], returns a node, automatic links are enabled and
    the node is a [RegularLink], marked automatic and without description,
    whose protocol is one of http, https, ftp and file and stands in the
    input right before the colon, and whose URL is the protocol followed by
    the path: the longest run of URL bytes from the colon on, which starts
    with the colon and two slashes and goes on after them. The URL is one
    stretch of the input; the call asks the caller to go back by the
    length of the protocol and to consume the length of the URL from
    there. *)
Theorem parseAutoLink_anatomy
    (d : Document) (input : gostring) (start : nat) (sl sc : Z)
    (rewind consumed : nat) (node : Node) :
  parseAutoLinkWithPos d input start sl sc = ROk (rewind, consumed, Some node) ->
  AutoLink (Config d) = true
  /\ exists protocol path,
       node = RegularLink protocol [] (protocol ++ path) true
                (positionFromChars input sl sc (start - rewind)
                   (start - rewind + consumed))
       /\ protocol ∈ autolinkSchemes
       /\ rewind = length protocol
       /\ consumed = (length protocol + length path)%nat
       /\ slice input (start - rewind) (start - rewind + consumed)
          = protocol ++ path
       /\ slice input (start - rewind) start = protocol
       /\ take 3 path = str "://" /\ (3 < length path)%nat
       /\ Forall (fun c => isURLByte c = true) path
       /\ (forall c, input !! (start + length path)%nat = Some c ->
             isURLByte c = false).
Proof.
  unfold parseAutoLinkWithPos. intros H.
  destruct (_ || _ || _ || _) eqn:Hg; [discriminate H|].
  apply orb_false_iff in Hg as [Hg Hsl].
  apply orb_false_iff in Hg as [Hg Hlen].
  apply orb_false_iff in Hg as [Hauto Hstart].
  apply negb_false_iff in Hauto. apply negb_false_iff, str_eqb_eq in Hsl.
  apply Nat.eqb_neq in Hstart. apply Nat.ltb_ge in Hlen.
  rewrite length_drop in Hlen.
  destruct (autolinkProtocols _) as [m|] eqn:Hm; [|discriminate H].
  apply autolinkProtocols_Some in Hm as [-> Hscheme].
  cbv zeta in H. unfold sub in H. simpl nth in H.
  pose proof (protocolStart_loop_le input (start - 1)) as Hps.
  set (ps := protocolStart_loop input (start - 1)) in *.
  set (r := drop start input) in *.
  pose proof (urlRun_le r) as Hrle. unfold r in Hrle at 2.
  rewrite length_drop in Hrle.
  pose proof (urlRun_spec r) as [Hall Hnext].
  assert (Hpath : slice input start (start + urlRun r) = take (urlRun r) r).
  { unfold slice, r. f_equal. lia. }
  rewrite Hpath in H.
  assert (Hplen : length (take (urlRun r) r) = urlRun r).
  { rewrite length_take. unfold r at 2. rewrite length_drop. lia. }
  assert (Hslen : length (slice input ps start) = (start - ps)%nat).
  { unfold slice. rewrite length_take, length_drop. lia. }
  destruct (str_eqb (take (urlRun r) r) (str "://")) eqn:Hne;
    [discriminate H|].
  rewrite length_app, Hplen, Hslen in H.
  injection H as <- <- <-.
  split; [exact Hauto|].
  exists (slice input ps start), (take (urlRun r) r).
  replace (start - (start - ps))%nat with ps by lia.
  rewrite Hplen.
  assert (Hthree : take 3 (take (urlRun r) r) = str "://"
                   /\ (3 < urlRun r)%nat).
  { unfold slice in Hsl.
    replace (start + 3 - start)%nat with 3%nat in Hsl by lia.
    fold r in Hsl.
    destruct r as [|c1 [|c2 [|c3 r']]]; try discriminate Hsl.
    injection Hsl as -> -> ->.
    change (urlRun (":"%char :: "/"%char :: "/"%char :: r'))
      with (S (S (S (urlRun r')))) in *.
    split; [reflexivity|].
    destruct (urlRun r') eqn:Hzero; [|lia].
    exfalso. revert Hne. vm_compute. discriminate. }
  destruct Hthree as [Htake Hgt].
  repeat split.
  - do 2 f_equal. lia.
  - exact Hscheme.
  - exact (eq_sym Hslen).
  - lia.
  - replace (ps + (urlRun r + (start - ps)))%nat with (start + urlRun r)%nat
      by lia.
    rewrite (slice_app input ps start (start + urlRun r)) by lia.
    rewrite Hpath. reflexivity.
  - exact Htake.
  - exact Hgt.
  - exact Hall.
  - intros c Hc. apply Hnext. unfold r. rewrite lookup_drop. exact Hc.
Qed.

Lemma parseAutoLink_anatomy_witness :
  AutoLink (Config (newDocument New [])) = true
  /\ exists protocol path,
       RegularLink (str "ftp") [] (str "ftp://h/x") true (mkPosition 0 3 0 12)
       = RegularLink protocol [] (protocol ++ path) true
           (positionFromChars (str "to ftp://h/x now") 0 0 (6 - 3)
              (6 - 3 + 9))
       /\ protocol ∈ autolinkSchemes
       /\ 3%nat = length protocol
       /\ 9%nat = (length protocol + length path)%nat
       /\ slice (str "to ftp://h/x now") (6 - 3) (6 - 3 + 9)
          = protocol ++ path
       /\ slice (str "to ftp://h/x now") (6 - 3) 6 = protocol
       /\ take 3 path = str "://" /\ (3 < length path)%nat
       /\ Forall (fun c => isURLByte c = true) path
       /\ (forall c,
             str "to ftp://h/x now" !! (6 + length path)%nat = Some c ->
             isURLByte c = false).
Proof.
  apply (parseAutoLink_anatomy (newDocument New []) (str "to ftp://h/x now")
           6 0 0 3 9).
  vm_compute. reflexivity.
Defined.

(** ** Text without markup *)

Lemma dispatch_plain X d rec input c current sl sc :
  isTrigger c = false ->
  dispatch X d rec input c current sl sc = noMatch3.
Proof.
  unfold isTrigger. intros H.
  repeat (apply orb_false_iff in H as [H ?]).
  unfold dispatch.
  repeat match goal with
         | E : byte_eqb c _ = false |- _ => rewrite E; clear E
         end.
  reflexivity.
Qed.

Lemma isTrigger_newlines input :
  forallb (fun c => negb (isTrigger c)) input = true -> newlines input = 0.
Proof.
  induction input as [|c input IH]; simpl; [reflexivity|].
  intros H. apply andb_true_iff in H as [Hc H]. rewrite (IH H).
  apply negb_true_iff in Hc. unfold isTrigger in Hc.
  repeat (apply orb_false_iff in Hc as [Hc ?]).
  replace (byte_eqb c nl) with false by (symmetry; assumption). reflexivity.
Qed.

Lemma parseInline_loop_plain X d rec input sl sc :
  forallb (fun c => negb (isTrigger c)) input = true ->
  forall steps current,
    (length input - current <= steps)%nat ->
    parseInline_loop X d rec steps input sl sc 0 current []
    = ROk (if (0 <? length input)%nat
           then [textBetween input sl sc 0 (length input) false] else []).
Proof.
  intros Hplain.
  induction steps as [|steps IH]; intros current Hsteps; simpl;
    destruct (current <? length input)%nat eqn:Hlt; try reflexivity.
  - apply Nat.ltb_lt in Hlt. lia.
  - apply Nat.ltb_lt in Hlt.
    destruct (lookup_lt_is_Some_2 _ _ Hlt) as [c Hc].
    unfold byteAt. rewrite Hc.
    assert (Hnt : isTrigger c = false).
    { rewrite forallb_forall in Hplain.
      apply negb_true_iff, Hplain. apply list_elem_of_In.
      eapply list_elem_of_lookup_2. exact Hc. }
    unfold mbind at 1, Result_bind at 1. cbv beta iota.
    rewrite (dispatch_plain _ _ _ _ _ _ _ _ Hnt).
    unfold noMatch3, mbind, Result_bind. cbv beta iota.
    simpl negb. cbv iota. rewrite Nat.sub_0_r. apply IH. lia.
Qed.

(** X6. A text that holds none of the bytes on which the inline parser
    tries a scanner (the markers of emphasis, scripts, links, macros,
    timestamps, LaTeX, the colon and the newline) parses into one [Text]
    node that holds the whole text, not raw, placed on the start line from
    the start column to the start column plus the length of the text in
    bytes. No pattern, callback or setting has a say in it. *)
Theorem parseInline_plain_text
    (fuel : nat) (X : Externals) (d : Document) (input : gostring)
    (sl sc : Z) :
  (0 < length input)%nat ->
  forallb (fun c => negb (isTrigger c)) input = true ->
  parseInlineWithPos (S fuel) X d input sl sc
  = ROk [Text input false
           (mkPosition sl sc sl (sc + Z.of_nat (length input)))].
Proof.
  intros Hlen Hplain. simpl.
  rewrite parseInline_loop_plain by (try exact Hplain; lia).
  apply Nat.ltb_lt in Hlen. rewrite Hlen. unfold textBetween.
  assert (slice input 0 (length input) = input) as ->.
  { unfold slice. rewrite drop_0, Nat.sub_0_r. apply firstn_all. }
  assert (positionFromChars input sl sc 0 (length input)
          = mkPosition sl sc sl (sc + Z.of_nat (length input))) as ->;
    [|reflexivity].
  unfold positionFromChars, calculatePosition.
  rewrite !calculatePosition_loop_spec. rewrite take_0.
  rewrite (take_ge input (length input)) by lia.
  rewrite (isTrigger_newlines _ Hplain). simpl. f_equal; lia.
Qed.

Lemma parseInline_plain_text_witness :
  parseInlineWithPos 1 noExternals (newDocument New [])
    (str "plain words, no markup") 2 5
  = ROk [Text (str "plain words, no markup") false
           (mkPosition 2 5 2
              (5 + Z.of_nat (length (str "plain words, no markup"))))].
Proof.
  apply parseInline_plain_text; [vm_compute; lia|vm_compute; reflexivity].
Defined.

(** ** Diagnostics: how they print *)

Lemma Itoa_nonempty n : Itoa n <> [].
Proof.
  unfold Itoa, str. destruct (Z.to_int n) as [u|u]; simpl.
  - destruct u; simpl; discriminate.
  - discriminate.
Qed.

Lemma app_nonempty_l {A} (a b : list A) : a <> [] -> a ++ b <> [].
Proof. destruct a; [congruence|discriminate]. Qed.

Lemma app_nonempty_r {A} (a b : list A) : b <> [] -> a ++ b <> [].
Proof. destruct a, b; simpl; congruence. Qed.

Lemma locationString_nonempty e : locationString e <> [].
Proof.
  unfold locationString.
  destruct (peStartLine e =? peEndLine e);
    [destruct (peStartCol e =? peEndCol e)|];
    apply app_nonempty_r, app_nonempty_l, Itoa_nonempty.
Qed.

Lemma Error_with_location (e : ParseError) :
  Error e
  = locationString e ++ str ": " ++ Message e
    ++ (if str_eqb (Context e) [] then []
        else str " (hint: " ++ Context e ++ str ")").
Proof.
  pose proof (locationString_nonempty e) as Hloc.
  unfold Error. cbv zeta.
  apply str_eqb_nil_false in Hloc. rewrite Hloc. simpl negb. cbv iota.
  destruct (str_eqb (Context e) []); simpl negb; cbv iota.
  - rewrite app_nil_r. reflexivity.
  - rewrite <- !app_assoc. reflexivity.
Qed.

(** X7. The message of a diagnostic always starts with its location: the
    location is never the empty string, whatever the fields hold (a
    diagnostic without file, at line 0 and column 0, is located "0:0"), so
    [Error] gives the location, a colon and a blank, the message, and then
    the hint in brackets when there is one. *)
Theorem Error_always_located (e : ParseError) :
  locationString e <> []
  /\ Error e
     = locationString e ++ str ": " ++ Message e
       ++ (if str_eqb (Context e) [] then []
           else str " (hint: " ++ Context e ++ str ")").
Proof.
  pose proof (locationString_nonempty e) as Hloc.
  split; [exact Hloc|]. unfold Error. cbv zeta.
  apply str_eqb_nil_false in Hloc. rewrite Hloc. simpl negb. cbv iota.
  destruct (str_eqb (Context e) []); simpl negb; cbv iota.
  - rewrite app_nil_r. reflexivity.
  - rewrite <- !app_assoc. reflexivity.
Qed.

(** X8. How a diagnostic recorded through [NewParseError] (so through
    AddError and AddFatalError) prints: the file and a colon when the file
    is named, the start line, a colon, the columns, a colon and a blank, and
    the message; there is never a hint. The columns of a range within one
    line are what [formatRange] gives for them; a range over several lines
    prints the start column, a dash, the end line, a colon and the end
    column. *)
Theorem Error_of_recorded
    (typ : ErrorType) (message file : gostring) (pos : Position)
    (tok : token) (cause : option gostring) :
  Error (NewParseError typ message file pos tok cause)
  = (if str_eqb file [] then [] else file ++ str ":")
    ++ Itoa (StartLine pos) ++ str ":"
    ++ (if StartLine pos =? EndLine pos
        then formatRange (StartColumn pos) (EndColumn pos)
        else Itoa (StartColumn pos) ++ str "-" ++ Itoa (EndLine pos)
             ++ str ":" ++ Itoa (EndColumn pos))
    ++ str ": " ++ message.
Proof.
  rewrite Error_with_location.
  unfold locationString, formatRange, NewParseError. simpl.
  rewrite app_nil_r.
  destruct (str_eqb file []); simpl negb; cbv iota;
    destruct (StartLine pos =? EndLine pos);
    try destruct (StartColumn pos =? EndColumn pos);
    repeat (progress (simpl; rewrite <- ?app_assoc)); reflexivity.
Qed.

(** ** Diagnostics: writing them out *)

Lemma WriteErrors_loop_app {W} (write : io_Writer W) l1 : forall w l2,
  WriteErrors_loop write w (l1 ++ l2)
  = match WriteErrors_loop write w l1 with
    | (w1, None) => WriteErrors_loop write w1 l2
    | failed => failed
    end.
Proof.
  induction l1 as [|e l1 IH]; intros w l2; simpl; [reflexivity|].
  destruct (write w (Error e ++ [nl])) as [w' [err|]]; [reflexivity|].
  apply IH.
Qed.

(** X9. Written to a writer that never fails, the diagnostics of a session
    come out in the order they were recorded, each as its message followed
    by a newline, after what the writer already held, and WriteErrors
    reports no error. *)
Theorem WriteErrors_to_buffer (d : Document) (w : gostring) :
  WriteErrors d bufferWriter w
  = (w ++ concat (map (fun e => Error e ++ [nl]) (Errors d)), None).
Proof.
  unfold WriteErrors. generalize (Errors d) as errs. intros errs. revert w.
  induction errs as [|e errs IH]; intros w; simpl.
  - rewrite app_nil_r. reflexivity.
  - rewrite IH, <- !app_assoc. reflexivity.
Qed.

(** X10. WriteErrors stops at the first write that fails: when the
    diagnostics before one were written and the write of that one fails,
    WriteErrors returns the error of that write, and the writer is left as
    that write left it: no later diagnostic is handed to it. *)
Theorem WriteErrors_stops_at_failure {W}
    (d : Document) (write : io_Writer W) (w w1 w2 : W)
    (before after : list ParseError) (e : ParseError) (err : gostring) :
  Errors d = before ++ e :: after ->
  WriteErrors_loop write w before = (w1, None) ->
  write w1 (Error e ++ [nl]) = (w2, Some err) ->
  WriteErrors d write w = (w2, Some err).
Proof.
  intros HE Hbefore Hfail. unfold WriteErrors.
  rewrite HE, WriteErrors_loop_app, Hbefore. simpl. rewrite Hfail.
  reflexivity.
Qed.

Lemma WriteErrors_stops_at_failure_witness :
  let d := AddError (AddError (AddError (newDocument New (str "f.org"))
                       ErrorTypeTokenization (str "could not lex line")
                       (mkPosition 1 1 1 4) token0 None)
                       ErrorTypeIO (str "tokenization failed")
                       (mkPosition 2 0 2 0) token0 None)
             ErrorTypeValidation (str "third") (mkPosition 3 0 4 1) token0
             None in
  WriteErrors d (limitedWriter 40) []
  = (str "f.org:1:1-4: could not lex line" ++ [nl], Some (str "short write")).
Proof.
  cbv zeta.
  eapply (WriteErrors_stops_at_failure _ (limitedWriter 40) [] _ _
            [_] [_] _ (str "short write")).
  - vm_compute. reflexivity.
  - vm_compute. reflexivity.
  - vm_compute. reflexivity.
Defined.

(** ** The collector of diagnostics *)

Lemma length_filter_type (t : ErrorType) e (l : list ParseError) :
  length (filter (fun e => Type_ e = t) (e :: l))
  = ((if decide (Type_ e = t) then 1 else 0)
     + length (filter (fun e => Type_ e = t) l))%nat.
Proof. rewrite filter_cons. destruct (decide (Type_ e = t)); reflexivity. Qed.

Lemma count_type_NoDup (x : ErrorType) (ts : list ErrorType) :
  NoDup ts ->
  sum_list (map (fun t => if decide (x = t) then 1%nat else 0%nat) ts)
  = if decide (x ∈ ts) then 1%nat else 0%nat.
Proof.
  induction 1 as [|t ts Hnotin Hnd IH]; [reflexivity|].
  cbn [map]. change (sum_list (?a :: ?l)) with (a + sum_list l)%nat.
  rewrite IH.
  destruct (decide (x = t)) as [->|Hne].
  - destruct (decide (t ∈ ts)); [contradiction|].
    destruct (decide (t ∈ t :: ts)) as [|Hn]; [reflexivity|].
    exfalso. apply Hn. left.
  - destruct (decide (x ∈ ts)) as [Hin|Hnin];
      destruct (decide (x ∈ t :: ts)) as [Hin'|Hnin']; try reflexivity.
    + exfalso. apply Hnin'. right. exact Hin.
    + exfalso. apply elem_of_cons in Hin' as [?|?]; contradiction.
Qed.

Lemma sum_by_type_cons e (l : list ParseError) (ts : list ErrorType) :
  sum_list (map (fun t => length (filter (fun e0 => Type_ e0 = t) (e :: l))) ts)
  = (sum_list (map (fun t => if decide (Type_ e = t) then 1%nat else 0%nat) ts)
     + sum_list (map (fun t => length (filter (fun e0 => Type_ e0 = t) l)) ts))%nat.
Proof.
  induction ts as [|t ts IH]; [reflexivity|].
  cbn [map]. change (sum_list (?a :: ?l0)) with (a + sum_list l0)%nat.
  rewrite IH, length_filter_type. lia.
Qed.

Lemma sum_by_type (l : list ParseError) (ts : list ErrorType) :
  NoDup ts ->
  sum_list (map (fun t => length (filter (fun e => Type_ e = t) l)) ts)
  = length (filter (fun e => Type_ e ∈ ts) l).
Proof.
  intros Hnd. induction l as [|e l IH].
  - induction ts as [|t ts IHts]; [reflexivity|].
    apply NoDup_cons in Hnd as [_ Hnd].
    cbn [map]. change (sum_list (?a :: ?l0)) with (a + sum_list l0)%nat.
    rewrite (IHts Hnd). reflexivity.
  - rewrite sum_by_type_cons, IH, (count_type_NoDup _ _ Hnd), filter_cons.
    destruct (decide (Type_ e ∈ ts)); reflexivity.
Qed.

Lemma allErrorTypes_NoDup : NoDup allErrorTypes.
Proof.
  unfold allErrorTypes.
  repeat (apply NoDup_cons_2;
          [rewrite ?elem_of_cons, elem_of_nil;
           intros H; repeat destruct H as [H|H];
           try (vm_compute in H; discriminate H); try contradiction|]).
  apply NoDup_nil_2.
Qed.

(** X11. GetErrorByType sorts the diagnostics of a session by type without
    losing or repeating any. What it returns for one type are the
    diagnostics of that type, in the order they were recorded. The type
    of a diagnostic is any string: for every list of types without
    repetition, the numbers of diagnostics returned for its members add
    up to the number of diagnostics whose type is in the list; so they add
    up to ErrorCount over the eight declared types when every diagnostic
    has one of these. *)
Theorem GetErrorByType_partitions (d : Document) :
  (forall t e, e ∈ GetErrorByType d t <-> e ∈ Errors d /\ Type_ e = t)
  /\ (forall t, sublist (GetErrorByType d t) (Errors d))
  /\ (forall ts, NoDup ts ->
        sum_list (map (fun t => length (GetErrorByType d t)) ts)
        = length (filter (fun e => Type_ e ∈ ts) (Errors d)))
  /\ ((forall e, e ∈ Errors d -> Type_ e ∈ allErrorTypes) ->
        Z.of_nat (sum_list (map (fun t => length (GetErrorByType d t))
                              allErrorTypes))
        = ErrorCount d).
Proof.
  split; [|split; [|split]].
  - intros t e. unfold GetErrorByType. rewrite list_elem_of_filter. tauto.
  - intros t. unfold GetErrorByType. apply sublist_filter.
  - intros ts Hnd. unfold GetErrorByType. apply sum_by_type, Hnd.
  - intros Hall. unfold ErrorCount, GetErrorByType. f_equal.
    rewrite (sum_by_type _ _ allErrorTypes_NoDup).
    f_equal. clear -Hall.
    induction (Errors d) as [|e l IH]; [reflexivity|].
    rewrite filter_cons.
    destruct (decide (Type_ e ∈ allErrorTypes)) as [_|Hn].
    + f_equal. apply IH. intros e0 He0. apply Hall. right. exact He0.
    + exfalso. apply Hn, Hall. left.
Qed.

(** X12. What holds of every session the collector has worked on, from one
    without diagnostics through any sequence of AddError and AddFatalError:
    the fatal error, when there is one, is among the diagnostics, so
    HasFatalError implies HasErrors; every diagnostic names the path of the
    session as its file and carries no hint; and AddError leaves the fatal
    error as it is. *)
Theorem collected_invariant (d : Document) :
  collected d ->
  (forall e, FatalError d = Some e -> e ∈ Errors d)
  /\ (HasFatalError d = true -> HasErrors d = true)
  /\ (forall e, e ∈ Errors d -> File e = Path d /\ Context e = [])
  /\ (forall typ message pos tok cause,
        FatalError (AddError d typ message pos tok cause) = FatalError d).
Proof.
  intros Hc.
  assert (Hinv : (forall e, FatalError d = Some e -> e ∈ Errors d)
                 /\ (forall e, e ∈ Errors d ->
                       File e = Path d /\ Context e = [])).
  { induction Hc as [d HE HF|d typ message pos tok cause Hc [IH1 IH2]
                    |d typ message pos tok cause Hc [IH1 IH2]].
    - rewrite HE, HF. split; [discriminate|]. intros e He. inversion He.
    - rewrite AddError_Errors, AddError_FatalError. split.
      + intros e He. apply elem_of_app. left. apply IH1, He.
      + intros e He. apply elem_of_app in He as [He|He].
        * apply IH2, He.
        * apply list_elem_of_singleton in He. subst e. split; reflexivity.
    - unfold AddFatalError. simpl. split.
      + intros e [= <-]. apply elem_of_app. right.
        apply list_elem_of_singleton. reflexivity.
      + intros e He. apply elem_of_app in He as [He|He].
        * apply IH2, He.
        * apply list_elem_of_singleton in He. subst e. split; reflexivity. }
  destruct Hinv as [H1 H2]. repeat split.
  - exact H1.
  - unfold HasFatalError, HasErrors.
    destruct (FatalError d) as [e|] eqn:HF; [|discriminate].
    intros _. specialize (H1 e eq_refl).
    destruct (Errors d); [inversion H1|reflexivity].
  - apply H2, H.
  - apply H2, H.
Qed.

Lemma collected_invariant_witness :
  let d := AddError (AddFatalError (newDocument New (str "a.org"))
                       ErrorTypeInvalidStructure (str "fatal")
                       (mkPosition 1 0 1 0) token0 None)
             ErrorTypeValidation (str "later") (mkPosition 2 0 2 0) token0
             None in
  (forall e, FatalError d = Some e -> e ∈ Errors d)
  /\ (HasFatalError d = true -> HasErrors d = true)
  /\ (forall e, e ∈ Errors d -> File e = Path d /\ Context e = [])
  /\ (forall typ message pos tok cause,
        FatalError (AddError d typ message pos tok cause) = FatalError d).
Proof.
  cbv zeta. apply collected_invariant.
  apply collected_AddError, collected_AddFatalError, collected_start;
    reflexivity.
Defined.

(** ** Exporting a session *)

Lemma Write_guards_first {W} (d : Document) (wr : Writer W) (w : W) e rest :
  Errors d = e :: rest -> Write d wr w = ROk ([], Some (ErrParse e)).
Proof. intros HE. unfold Write, HasErrors. rewrite HE. reflexivity. Qed.

(** X13. Write never panics, whatever the writer does, and it never gives
    output together with an error: when it reports an error the output is
    empty, and when it reports none the session holds no diagnostic and its
    nodes are set. A session with diagnostics is refused with the first one
    recorded, before the writer is called at all. *)
Theorem Write_guards {W} (d : Document) (wr : Writer W) (w : W) :
  (forall msg, Write d wr w <> RPanic msg)
  /\ (forall out err, Write d wr w = ROk (out, Some err) -> out = [])
  /\ (forall out, Write d wr w = ROk (out, None) ->
        Errors d = [] /\ is_Some (Nodes d))
  /\ (forall e rest, Errors d = e :: rest ->
        Write d wr w = ROk ([], Some (ErrParse e))).
Proof.
  unfold Write, HasErrors.
  destruct (Errors d) as [|e rest] eqn:HE; simpl.
  - destruct (Nodes d) as [nodes|].
    + destruct (_ ← Before wr d w; _) as [out|msg|];
        repeat split; intros; try congruence; eauto.
    + repeat split; intros; try congruence.
  - repeat split; intros; congruence.
Qed.

Lemma Parse_body_Done fuel X B input d b d' :
  Parse_body fuel X B input d = Done b d' ->
  b = true -> is_Some (Nodes d').
Proof.
  unfold Parse_body. intros H ->.
  apply bind_Done_inv in H as (d0 & d1 & Hget & H).
  injection Hget as <- <-.
  destruct (tokens d).
  - apply bind_Done_inv in H as (u & d2 & _ & H). discriminate H.
  - apply bind_Done_inv in H as (u & d2 & _ & H).
    apply bind_Done_inv in H as ([c nodes] & d3 & _ & H).
    apply bind_Done_inv in H as (u' & d4 & Hm & H).
    injection H as <-. injection Hm as _ <-. simpl. eauto.
Qed.

(** X14. Parse and then Write. The session Parse returns either holds a
    diagnostic, and then Write gives no output and returns the first
    diagnostic recorded, whatever the writer; or it holds none, and then
    its nodes are set and Write is the writer's pass over them. Write
    never answers "parse was not called" for a session that Parse
    returned. A panic during parsing falls under the first case. *)
Theorem Parse_then_Write
    (fuel : nat) (X : Externals) (B : BlockExternals) (c : Configuration)
    (input : Reader) (path : gostring) (d : Document) :
  Parse fuel X B c input path = Some (Some d) ->
  (exists e rest,
      Errors d = e :: rest
      /\ forall W (wr : Writer W) w,
           Write d wr w = ROk ([], Some (ErrParse e)))
  \/ (Errors d = []
      /\ exists nodes,
           Nodes d = Some nodes
           /\ forall W (wr : Writer W) w,
                Write d wr w
                = match (w ← Before wr d w;
                         w ← WriteNodes wr nodes w;
                         w ← After wr d w;
                         Writer_String wr w) with
                  | ROk out => ROk (out, None)
                  | RPanic msg =>
                    ROk ([], Some (ErrText (str "could not write output: "
                                            ++ msg)))
                  | ROutOfFuel => ROutOfFuel
                  end).
Proof.
  unfold Parse. intros H.
  destruct (Parse_body fuel X B input (newDocument c path))
    as [b d'|msg d'|] eqn:Hbody; [| |discriminate H].
  - destruct b; [|discriminate H]. injection H as <-.
    destruct (Parse_body_Done _ _ _ _ _ _ _ Hbody eq_refl) as [nodes Hn].
    destruct (Errors d') as [|e rest] eqn:HE.
    + right. split; [reflexivity|]. exists nodes. split; [exact Hn|].
      intros W wr w. unfold Write, HasErrors. rewrite HE, Hn. reflexivity.
    + left. exists e, rest. split; [reflexivity|]. intros W wr w.
      eapply Write_guards_first. exact HE.
  - injection H as <-. left.
    pose proof (Parse_recover_Errors msg d') as HE.
    destruct (Errors (Parse_recover msg d')) as [|e rest] eqn:HE'.
    + destruct (Errors d'); discriminate HE.
    + exists e, rest. split; [reflexivity|]. intros W wr w.
      eapply Write_guards_first. exact HE'.
Qed.

Lemma Parse_then_Write_witness :
  exists d,
    Parse 10 noExternals (sampleBlock sampleLexFns) New
      (reader ["- one"; "two"]) [] = Some (Some d)
    /\ ((exists e rest,
           Errors d = e :: rest
           /\ forall W (wr : Writer W) w,
                Write d wr w = ROk ([], Some (ErrParse e)))
        \/ (Errors d = []
            /\ exists nodes,
                 Nodes d = Some nodes
                 /\ forall W (wr : Writer W) w,
                      Write d wr w
                      = match (w ← Before wr d w;
                               w ← WriteNodes wr nodes w;
                               w ← After wr d w;
                               Writer_String wr w) with
                        | ROk out => ROk (out, None)
                        | RPanic msg =>
                          ROk ([], Some (ErrText
                                          (str "could not write output: "
                                           ++ msg)))
                        | ROutOfFuel => ROutOfFuel
                        end)).
Proof.
  destruct (Parse 10 noExternals (sampleBlock sampleLexFns) New
              (reader ["- one"; "two"]) []) as [[d|]|] eqn:E;
    try (vm_compute in E; discriminate).
  exists d. split; [reflexivity|].
  exact (Parse_then_Write _ _ _ _ _ _ _ E).
Defined.

(** ** Tokenizing *)

Lemma tokenize_loop_spec fns line_ :
  match tokenize_loop fns line_ with
  | (tok, true) =>
    exists before f after,
      fns = before ++ f :: after
      /\ f line_ = (tok, true)
      /\ Forall (fun g => snd (g line_) = false) before
  | (tok, false) =>
    tok = nilToken /\ Forall (fun g => snd (g line_) = false) fns
  end.
Proof.
  induction fns as [|f fns IH]; simpl.
  - split; [reflexivity|constructor].
  - destruct (f line_) as [tok ok] eqn:Hf. destruct ok.
    + exists [], f, fns. repeat split; [exact Hf|constructor].
    + destruct (tokenize_loop fns line_) as [tok' [|]].
      * destruct IH as (before & g & after & -> & Hg & Hall).
        exists (f :: before), g, after. repeat split; [exact Hg|].
        constructor; [rewrite Hf; reflexivity|exact Hall].
      * destruct IH as [-> Hall]. split; [reflexivity|].
        constructor; [rewrite Hf; reflexivity|exact Hall].
Qed.

(** X15. The first matcher wins. tokenize accepts a line exactly when some
    matcher of the table accepts it, and the token is the one of the first
    matcher in the table that accepts the line: what later matchers would
    say is not asked. When no matcher accepts the line, the token is
    [nilToken], whatever tokens the matchers returned with their
    refusals. *)
Theorem tokenize_first_match_wins (B : BlockExternals) (line_ : gostring) :
  (forall tok,
     tokenize B line_ = (tok, true) <->
     exists before f after,
       lexFns B = before ++ f :: after
       /\ f line_ = (tok, true)
       /\ Forall (fun g => snd (g line_) = false) before)
  /\ (snd (tokenize B line_) = false <->
      Forall (fun g => snd (g line_) = false) (lexFns B))
  /\ (snd (tokenize B line_) = false -> fst (tokenize B line_) = nilToken).
Proof.
  unfold tokenize. pose proof (tokenize_loop_spec (lexFns B) line_) as H.
  assert (Hfirst : forall before f after tok,
            Forall (fun g => snd (g line_) = false) before ->
            f line_ = (tok, true) ->
            tokenize_loop (before ++ f :: after) line_ = (tok, true)).
  { induction before as [|g before IH]; intros f after tok Hall Hf; simpl.
    - rewrite Hf. reflexivity.
    - inversion Hall as [|? ? Hg Hall']; subst.
      destruct (g line_) as [t ok]. simpl in Hg. subst ok.
      apply IH; assumption. }
  destruct (tokenize_loop (lexFns B) line_) as [tok0 ok] eqn:Ht.
  split; [|split].
  - intros tok. split.
    + intros [= -> ->]. exact H.
    + intros (before & f & after & Hfns & Hf & Hall).
      rewrite Hfns in Ht. rewrite (Hfirst _ _ _ _ Hall Hf) in Ht.
      injection Ht as <- <-. reflexivity.
  - simpl. split.
    + intros ->. apply H.
    + intros Hall. destruct ok; [|reflexivity].
      destruct H as (before & f & after & Hfns & Hf & _).
      rewrite Hfns in Hall. apply Forall_app in Hall as [_ Hall].
      inversion Hall as [|? ? Hx _]; subst. rewrite Hf in Hx.
      discriminate Hx.
  - simpl. intros ->. apply H.
Qed.

Lemma lineTokens_length B : forall lines n path,
  (length (lineTokens B n lines) + length (lineErrors B path n lines)
   = length lines)%nat.
Proof.
  induction lines as [|l lines IH]; intros n path; simpl; [reflexivity|].
  destruct (tokenize B l) as [tok ok]. rewrite !length_app.
  specialize (IH (n + 1) path). destruct ok; simpl; lia.
Qed.

Lemma lineTokens_lines B : forall lines n,
  Forall (fun t =>
            n <= line t
            /\ exists l tok,
                 lines !! Z.to_nat (line t - n) = Some l
                 /\ tokenize B l = (tok, true)
                 /\ t = stamped tok (line t) l)
         (lineTokens B n lines).
Proof.
  induction lines as [|l lines IH]; intros n; simpl; [constructor|].
  destruct (tokenize B l) as [tok ok] eqn:Ht.
  apply Forall_app. split.
  - destruct ok; constructor; [|constructor]. simpl. split; [lia|].
    exists l, tok. rewrite Z.sub_diag. simpl. rewrite Ht. auto.
  - eapply Forall_impl; [apply (IH (n + 1))|].
    intros t (Hle & l' & tok' & Hl & Htok & Hst). split; [lia|].
    exists l', tok'. split; [|split; assumption].
    replace (Z.to_nat (line t - n)) with (S (Z.to_nat (line t - (n + 1))))
      by lia.
    exact Hl.
Qed.

Lemma lineTokens_sorted B : forall lines n,
  StronglySorted Z.lt (map line (lineTokens B n lines)).
Proof.
  induction lines as [|l lines IH]; intros n; simpl; [constructor|].
  destruct (tokenize B l) as [tok ok]. destruct ok; simpl; [|apply IH].
  constructor; [apply IH|].
  apply Forall_map. eapply Forall_impl; [apply (lineTokens_lines B lines)|].
  simpl. intros t [Hle _]. lia.
Qed.

Lemma tokenize_line_tokens B l n d :
  is_Some (tokens d) -> is_Some (tokens (tokenize_line B l n d)).
Proof.
  intros Hd. unfold tokenize_line.
  destruct (tokenize B l) as [tok ok]. destruct ok; simpl; eauto.
Qed.

Lemma tokenize_lines_tokens B : forall lines n d,
  is_Some (tokens d) -> is_Some (tokens (tokenize_lines B lines n d).2).
Proof.
  induction lines as [|l lines IH]; intros n d Hd; simpl; [exact Hd|].
  apply IH, tokenize_line_tokens, Hd.
Qed.

Lemma Document_tokenize_toks B input d :
  toks (Document_tokenize B input d) = lineTokens B 0 (rLines input)
  /\ is_Some (tokens (Document_tokenize B input d)).
Proof.
  unfold Document_tokenize.
  pose proof (tokenize_lines_spec B (rLines input) 0
                (set_tokens d (Some []))) as Hspec.
  pose proof (tokenize_lines_tokens B (rLines input) 0
                (set_tokens d (Some []))) as Hsome.
  destruct (tokenize_lines B (rLines input) 0 (set_tokens d (Some [])))
    as [n d1].
  destruct Hspec as (_ & Ht & _ & _). simpl in Ht, Hsome.
  specialize (Hsome ltac:(eauto)).
  destruct (rErr input); [rewrite AddError_toks|]; split; assumption.
Qed.

(** X16. What Document.tokenize leaves in the token buffer. Every line read
    either becomes one token or one tokenization diagnostic, so the tokens
    and the diagnostics of the lines add up to the lines. Every token is
    what the matcher table made of one line of the input, stamped with the
    index of that line, start column 0 and the length of the line in bytes
    as end column; the tokens come in the order of their lines. What the
    buffer held before is dropped, and the buffer is never nil
    afterwards. *)
Theorem Document_tokenize_accounts
    (B : BlockExternals) (input : Reader) (d : Document) :
  let d' := Document_tokenize B input d in
  (length (toks d')
   + length (lineErrors B (Path d) 0 (rLines input)))%nat
  = length (rLines input)
  /\ Forall (fun t =>
               exists l tok,
                 rLines input !! Z.to_nat (line t) = Some l
                 /\ 0 <= line t
                 /\ tokenize B l = (tok, true)
                 /\ t = stamped tok (line t) l)
            (toks d')
  /\ StronglySorted Z.lt (map line (toks d'))
  /\ is_Some (tokens d').
Proof.
  cbv zeta. destruct (Document_tokenize_toks B input d) as [Ht Hsome].
  rewrite Ht.
  split; [apply lineTokens_length|].
  split.
  - eapply Forall_impl; [apply (lineTokens_lines B (rLines input) 0)|].
    simpl. intros t (Hle & l & tok & Hl & Htok & Hst).
    exists l, tok. rewrite Z.sub_0_r in Hl. auto.
  - split; [apply lineTokens_sorted|exact Hsome].
Qed.

(** ** The list matcher and the kind of a list *)

Lemma listKind_of_bullet (t : token) (bullet : gostring) (mk : ListKind) :
  matches t !! 2%nat = Some bullet ->
  (if str_eqb bullet (str "*") || str_eqb bullet (str "+")
      || str_eqb bullet (str "-")
   then Some UnorderedList
   else
     b0 ← bullet !! 0%nat;
     if unicode.IsLetter b0 || unicode.IsDigit b0 then Some OrderedList
     else None) = Some mk ->
  exists k, listKind t = Some (mk, k) /\ (k = mk \/ k = DescriptiveList).
Proof.
  intros Hm Hk. unfold listKind. rewrite Hm. cbn [mbind option_bind].
  rewrite Hk. cbn [mbind option_bind].
  destruct (bool_decide _); eauto.
Qed.

Lemma listTail_spec r g3 g4 :
  listTail r = Some (g3, g4) ->
  (length g3 <= length r)%nat
  /\ (g4 = [] \/ (1 + length g4 <= length g3)%nat).
Proof.
  unfold listTail. pose proof (spaceRun_le r) as Hw.
  destruct (0 <? spaceRun r)%nat eqn:Hpos.
  - apply Nat.ltb_lt in Hpos. intros [= <- <-].
    pose proof (dotRun_le (drop (spaceRun r) r)) as Hd.
    rewrite length_drop in Hd.
    rewrite length_app, !length_take, length_drop. split; [lia|].
    right. lia.
  - destruct r; [|discriminate]. intros [= <- <-]. split; [simpl; lia|auto].
Qed.

(** The shape of a token of the list matcher. *)
Lemma lexList_shape (line_ : gostring) (t : token) :
  lexList line_ = (t, true) ->
  isListToken t = true
  /\ lvl t = Z.of_nat (spaceRun line_)
  /\ exists bullet m0 mainKind kind_,
       matches t !! 0%nat = Some m0
       /\ matches t !! 2%nat = Some bullet
       /\ bullet <> []
       /\ (length m0 <= length line_)%nat
       /\ (spaceRun line_ + length bullet <= length m0)%nat
       /\ (content t = []
           \/ (spaceRun line_ + length bullet + 1 + length (content t)
               <= length m0)%nat)
       /\ listKind t = Some (mainKind, kind_)
       /\ mainKind = (if str_eqb (kind t) (str "unorderedList")
                      then UnorderedList else OrderedList)
       /\ (kind_ = mainKind \/ kind_ = DescriptiveList).
Proof.
  unfold lexList. intros H.
  pose proof (spaceRun_le line_) as Hw.
  destruct (unorderedListRegexp line_) as [m|] eqn:Hu.
  - injection H as <-. unfold unorderedListRegexp in Hu. cbv zeta in Hu.
    destruct (drop (spaceRun line_) line_) as [|b r] eqn:Hdrop0;
      [discriminate Hu|].
    destruct (byte_eqb b "+"%char || byte_eqb b "*"%char
              || byte_eqb b "-"%char) eqn:Hb; [|discriminate Hu].
    destruct (listTail r) as [[g3 g4]|] eqn:Htail; [|discriminate Hu].
    simpl in Hu. injection Hu as <-.
    apply listTail_spec in Htail as [Hg3 Hg4].
    assert (Hlen : length line_ = (spaceRun line_ + S (length r))%nat).
    { rewrite <- (take_drop (spaceRun line_) line_) at 1.
      rewrite Hdrop0, length_app, length_take. simpl. lia. }
    split; [reflexivity|]. split.
    { unfold sub. simpl. rewrite length_take. f_equal. lia. }
    assert (Hbullet :
              str_eqb [b] (str "*") || str_eqb [b] (str "+")
              || str_eqb [b] (str "-") = true).
    { apply orb_true_iff in Hb as [Hb|Hb];
        [apply orb_true_iff in Hb as [Hb|Hb]|];
        apply byte_eqb_eq in Hb; subst b; reflexivity. }
    edestruct (listKind_of_bullet) as (k & Hk & Hor);
      [| |exists [b], (take (spaceRun line_) line_ ++ [b] ++ g3),
            UnorderedList, k;
          refine (conj eq_refl (conj eq_refl (conj _ (conj _ (conj _
                   (conj _ (conj Hk (conj eq_refl Hor))))))))].
    + reflexivity.
    + rewrite Hbullet. reflexivity.
    + discriminate.
    + rewrite !length_app, length_take. simpl. lia.
    + rewrite !length_app, length_take. simpl. lia.
    + unfold sub. simpl. rewrite !length_app, length_take. simpl.
      destruct Hg4 as [->|Hg4]; [left; reflexivity|right; lia].
  - destruct (orderedListRegexp line_) as [m|] eqn:Ho; [|discriminate H].
    injection H as <-. unfold orderedListRegexp in Ho. cbv zeta in Ho.
    set (r := drop (spaceRun line_) line_) in *.
    set (n := if (0 <? digitRun r)%nat then digitRun r
              else match r with
                   | c :: _ =>
                     if ((65 <=? byteZ c) && (byteZ c <=? 90))
                        || ((97 <=? byteZ c) && (byteZ c <=? 122))
                     then 1%nat else O
                   | [] => O
                   end) in *.
    destruct (n =? 0)%nat eqn:Hn; [discriminate Ho|].
    apply Nat.eqb_neq in Hn.
    destruct (drop n r) as [|p r'] eqn:Hdrop; [discriminate Ho|].
    destruct (byte_eqb p "."%char || byte_eqb p ")"%char); [|discriminate Ho].
    destruct (listTail r') as [[g4 g5]|] eqn:Htail; [|discriminate Ho].
    simpl in Ho. injection Ho as <-.
    apply listTail_spec in Htail as [Hg4 Hg5].
    assert (Hlenr : length r = (n + S (length r'))%nat).
    { assert (Hd : length (drop n r) = S (length r'))
        by (rewrite Hdrop; reflexivity).
      rewrite length_drop in Hd. lia. }
    assert (Hlen : length line_ = (spaceRun line_ + length r)%nat).
    { unfold r. rewrite length_drop. lia. }
    assert (Htn : length (take n r) = n) by (rewrite length_take; lia).
    split; [reflexivity|]. split.
    { unfold sub. simpl. rewrite length_take. f_equal. lia. }
    (* the first byte of the bullet is a digit or a letter *)
    assert (Hfirst : exists c rest,
              r = c :: rest
              /\ unicode.IsLetter c || unicode.IsDigit c = true).
    { clear Hlenr Hlen Htn Hdrop.
      destruct r as [|c rest]; [unfold n in Hn; simpl in Hn; lia|].
      exists c, rest. split; [reflexivity|].
      unfold n in Hn. simpl in Hn.
      destruct (unicode.IsDigit c) eqn:Hd; [apply orb_true_r|].
      simpl in Hn. rewrite orb_false_r. unfold unicode.IsLetter. cbv zeta.
      destruct (((65 <=? byteZ c) && (byteZ c <=? 90))
                || ((97 <=? byteZ c) && (byteZ c <=? 122))); [|lia].
      reflexivity. }
    destruct Hfirst as (c0 & r0 & Hr & Hc).
    assert (Hbullet : exists rest', take n r ++ [p] = c0 :: rest'
                                    /\ rest' <> []).
    { rewrite Hr. destruct n as [|n']; [lia|]. simpl.
      exists (take n' r0 ++ [p]). split; [reflexivity|].
      apply app_nonempty_r. discriminate. }
    destruct Hbullet as (rest' & Hbl & Hne).
    assert (Hnot : str_eqb (c0 :: rest') (str "*")
                   || str_eqb (c0 :: rest') (str "+")
                   || str_eqb (c0 :: rest') (str "-") = false).
    { destruct rest'; [congruence|]. unfold str. simpl.
      rewrite !andb_false_r. reflexivity. }
    edestruct (listKind_of_bullet) as (k & Hk & Hor);
      [| |exists (take n r ++ [p]),
            (take (spaceRun line_) line_ ++ take n r ++ [p] ++ g4),
            OrderedList, k;
          refine (conj eq_refl (conj eq_refl (conj _ (conj _ (conj _
                   (conj _ (conj Hk (conj eq_refl Hor))))))))].
    + simpl. rewrite Hbl. reflexivity.
    + rewrite Hnot. simpl. rewrite Hc. reflexivity.
    + apply app_nonempty_r. discriminate.
    + rewrite !length_app, Htn, length_take. simpl. lia.
    + rewrite !length_app, Htn, length_take. simpl. lia.
    + unfold sub. simpl. rewrite !length_app, Htn, length_take. simpl.
      destruct Hg5 as [->|Hg5]; [left; reflexivity|right; lia].
Qed.

(** X17. Every token the list matcher makes is one listKind can classify:
    listKind does not panic on it. The token is a list token, its level is
    the number of white-space bytes the line starts with, its main kind is
    unordered for a bullet "+", "*" or "-" and ordered for a number or
    letter followed by "." or ")", in step with the kind the matcher wrote
    into the token, and the kind of the list is the main kind or
    descriptive. *)
Theorem lexList_listKind (line_ : gostring) (t : token) :
  lexList line_ = (t, true) ->
  isListToken t = true
  /\ lvl t = Z.of_nat (spaceRun line_)
  /\ exists mainKind kind_,
       listKind t = Some (mainKind, kind_)
       /\ mainKind = (if str_eqb (kind t) (str "unorderedList")
                      then UnorderedList else OrderedList)
       /\ (kind_ = mainKind \/ kind_ = DescriptiveList).
Proof.
  intros H.
  destruct (lexList_shape line_ t H)
    as (Hlist & Hlvl & bullet & m0 & mk & k & _ & _ & _ & _ & _ & _
        & Hk & Hmk & Hor).
  split; [exact Hlist|]. split; [exact Hlvl|].
  exists mk, k. split; [exact Hk|]. split; [exact Hmk|exact Hor].
Qed.

Lemma lexList_listKind_witness :
  exists t,
    lexList (str "  12) item :: note") = (t, true)
    /\ isListToken t = true
    /\ lvl t = Z.of_nat (spaceRun (str "  12) item :: note"))
    /\ exists mainKind kind_,
         listKind t = Some (mainKind, kind_)
         /\ mainKind = (if str_eqb (kind t) (str "unorderedList")
                        then UnorderedList else OrderedList)
         /\ (kind_ = mainKind \/ kind_ = DescriptiveList).
Proof.
  destruct (lexList (str "  12) item :: note")) as [t [|]] eqn:E;
    try (vm_compute in E; discriminate).
  exists t. split; [reflexivity|]. exact (lexList_listKind _ _ E).
Defined.

(** ** The block parser: progress and what parseMany returns *)

(** X18. parseOne never reports that it consumed nothing: whenever it
    returns, the count is not zero, whatever the parsers it dispatches to
    do. A parser that consumes nothing makes parseOne record a diagnostic,
    turn the token into a text token and try again, and that repeats until
    a count other than zero comes back. *)
Theorem parseOne_never_zero
    (fuel : nat) (X : Externals) (B : BlockExternals) (i : Z) (stop : stopFn)
    (d d' : Document) (consumed : Z) (node : option Node) :
  parseOne fuel X B i stop d = Done (consumed, node) d' ->
  consumed <> 0.
Proof.
  revert d. induction fuel as [|fuel IH]; intros d H; [discriminate H|].
  simpl in H. unfold parseOne_body in H.
  apply bind_Done_inv in H as (t & d1 & Ht & H).
  destruct (isBlankText t).
  - injection H as <- _ _. lia.
  - apply bind_Done_inv in H as ([c n] & d2 & Hs & H).
    destruct (negb (c =? 0)) eqn:Hc.
    + injection H as <- _ _. apply negb_true_iff, Z.eqb_neq in Hc. exact Hc.
    + apply bind_Done_inv in H as (u & d3 & _ & H). exact (IH _ H).
Qed.

Lemma parseOne_never_zero_witness :
  exists r d',
    parseOne 5 noExternals (sampleBlock sampleLexFns) 0 topStop
      (Document_tokenize (sampleBlock sampleLexFns) (reader ["- a"; "b"])
         (newDocument New [])) = Done r d'
    /\ r.1 <> 0.
Proof.
  destruct (parseOne 5 noExternals (sampleBlock sampleLexFns) 0 topStop
              (Document_tokenize (sampleBlock sampleLexFns)
                 (reader ["- a"; "b"]) (newDocument New [])))
    as [[c n] d'| |] eqn:E; try (vm_compute in E; discriminate).
  exists (c, n), d'. split; [reflexivity|].
  exact (parseOne_never_zero _ _ _ _ _ _ _ _ _ E).
Defined.

(** X19. Where parseMany stops. When parseMany returns, the token it
    stopped at, the start index plus the count it returns, lies at or
    beyond the end of the token buffer or is one the stop predicate
    accepts, both taken in the session as parseMany leaves it. This holds
    for any parser behind parseOne. *)
Theorem parseMany_stops_where_told
    (rec : parseFn) (steps : nat) (i : Z) (stop : stopFn)
    (d d' : Document) (consumed : Z) (nodes : list Node) :
  parseMany rec steps i stop d = Done (consumed, nodes) d' ->
  ntokens d' <= i + consumed \/ stop d' (i + consumed) = Some true.
Proof.
  unfold parseMany. intros H.
  apply bind_Done_inv in H as ([i' ns] & d1 & Hloop & H).
  injection H as <- <- <-.
  replace (i + (i' - i)) with i' by lia.
  eapply parseMany_loop_exit. exact Hloop.
Qed.

Lemma parseMany_stops_where_told_witness :
  exists r d',
    parseManyTop 6 noExternals (sampleBlock sampleLexFns) 0 topStop
      (Document_tokenize (sampleBlock sampleLexFns) (reader ["a"; "- b"])
         (newDocument New [])) = Done r d'
    /\ (ntokens d' <= 0 + r.1 \/ topStop d' (0 + r.1) = Some true).
Proof.
  destruct (parseManyTop 6 noExternals (sampleBlock sampleLexFns) 0 topStop
              (Document_tokenize (sampleBlock sampleLexFns)
                 (reader ["a"; "- b"]) (newDocument New [])))
    as [[c ns] d'| |] eqn:E; try (vm_compute in E; discriminate).
  exists (c, ns), d'. split; [reflexivity|].
  exact (parseMany_stops_where_told _ _ _ _ _ _ _ _ E).
Defined.

Lemma parseOne_blank fuel X B i stop d t :
  tokAt d i = Some t -> isBlankText t = true ->
  parseOne (S fuel) X B i stop d = Done (1, None) d.
Proof.
  intros Ht Hb. simpl. unfold parseOne_body.
  erewrite bind_Done_l; [|apply tokenAt_Some; exact Ht].
  rewrite Hb. reflexivity.
Qed.

Lemma parseMany_loop_end rec n i stop nodes d :
  ntokens d <= i ->
  parseMany_loop rec n i stop nodes d = Done (i, nodes) d.
Proof.
  intros Hi. rewrite parseMany_loop_eq.
  erewrite bind_Done_l; [|reflexivity].
  replace (i <? ntokens d) with false by (symmetry; apply Z.ltb_ge; lia).
  reflexivity.
Qed.

Lemma parseMany_loop_blank fuel X B d :
  forall n i nodes,
    0 <= i <= ntokens d ->
    (Z.to_nat (ntokens d - i) <= n)%nat ->
    (forall j t, i <= j -> tokAt d j = Some t -> isBlankText t = true) ->
    parseMany_loop (parseOne (S fuel) X B) n i topStop nodes d
    = Done (ntokens d, nodes) d.
Proof.
  induction n as [|n IH]; intros i nodes Hi Hn Hblank.
  - assert (i = ntokens d) as -> by lia. apply parseMany_loop_end. lia.
  - destruct (Z.eq_dec i (ntokens d)) as [->|Hne];
      [apply parseMany_loop_end; lia|].
    rewrite parseMany_loop_eq.
    erewrite bind_Done_l; [|reflexivity].
    replace (i <? ntokens d) with true by (symmetry; apply Z.ltb_lt; lia).
    cbn [negb].
    erewrite bind_Done_l;
      [|unfold callStop, topStop;
        replace (ntokens d <=? i) with false
          by (symmetry; apply Z.leb_gt; lia); reflexivity].
    cbv iota.
    assert (Hsome : is_Some (tokAt d i)).
    { rewrite tokAt_lookup by lia. apply lookup_lt_is_Some_2.
      unfold ntokens in *. lia. }
    destruct Hsome as [t Ht].
    erewrite bind_Done_l;
      [|apply (parseOne_blank _ _ _ _ _ _ t Ht (Hblank i t ltac:(lia) Ht))].
    cbv beta iota. apply IH; [lia|lia|].
    intros j t' Hj. apply Hblank. lia.
Qed.

(** X20. Blank lines give no nodes. When every token from [i] on is a text
    token without content, parseMany, run to the end of the buffer, returns
    the number of those tokens and no node, and leaves the session as it
    was: no diagnostic, no token rewritten, and none of the parsers behind
    parseOne is called. *)
Theorem parseMany_skips_blank_lines
    (fuel : nat) (X : Externals) (B : BlockExternals) (d : Document) (i : Z) :
  0 <= i <= ntokens d ->
  (Z.to_nat (ntokens d - i) <= fuel)%nat ->
  (forall j t, i <= j -> tokAt d j = Some t -> isBlankText t = true) ->
  parseManyTop fuel X B i topStop d = Done (ntokens d - i, []) d.
Proof.
  intros Hi Hfuel Hblank. unfold parseManyTop, parseMany.
  destruct fuel as [|fuel].
  - assert (i = ntokens d) as -> by lia.
    erewrite bind_Done_l; [|apply parseMany_loop_end; lia].
    reflexivity.
  - erewrite bind_Done_l; [|apply parseMany_loop_blank; assumption].
    reflexivity.
Qed.

Lemma parseMany_skips_blank_lines_witness :
  let d := Document_tokenize (sampleBlock sampleLexFns)
             (reader ["x"; ""; "  "; ""]) (newDocument New []) in
  parseManyTop 3 noExternals (sampleBlock sampleLexFns) 1 topStop d
  = Done (ntokens d - 1, []) d.
Proof.
  cbv zeta. apply parseMany_skips_blank_lines.
  - vm_compute. split; discriminate.
  - vm_compute. lia.
  - intros j t Hj Ht.
    assert (Hr := tokAt_range _ _ _ Ht). destruct Hr as [_ Hr].
    change (length (toks (Document_tokenize (sampleBlock sampleLexFns)
                            (reader ["x"; ""; "  "; ""])
                            (newDocument New [])))) with 4%nat in Hr.
    assert (Hcases : j = 1 \/ j = 2 \/ j = 3) by lia.
    destruct Hcases as [Hj1|[Hj1|Hj1]]; rewrite Hj1 in Ht; vm_compute in Ht;
      injection Ht as <-; reflexivity.
Defined.

(** ** Lists: what parseListItem and parseList build *)

Lemma parseListItem_leave_node X steps l_Kind start i bullet dterm status
    value orig nodes d c node d' :
  parseListItem_leave X steps l_Kind start i bullet dterm status value orig
    nodes d = Done (c, node) d' ->
  c = i - start
  /\ toks d' = toks d
  /\ exists tStart tEnd,
       tokAt d start = Some tStart /\ tokAt d (i - 1) = Some tEnd
       /\ ((l_Kind = DescriptiveList
            /\ exists term,
                 node = Some (DescriptiveListItem bullet status term nodes
                                (spanOf tStart tEnd)))
           \/ (l_Kind <> DescriptiveList
               /\ node = Some (ListItem bullet status value nodes
                                 (spanOf tStart tEnd)))).
Proof.
  unfold parseListItem_leave. intros H.
  apply bind_Done_inv in H as (u & d1 & Hm & H). injection Hm as _ <-.
  destruct (bool_decide (l_Kind = DescriptiveList)) eqn:Hk.
  - apply bool_decide_eq_true in Hk.
    apply bind_Done_inv in H as (d2 & d3 & Hget & H).
    injection Hget as <- <-.
    apply bind_Done_inv in H as (term & d4 & Hterm & H).
    apply liftInline_Done in Hterm as [-> _].
    apply bind_Done_inv in H as (tS & d5 & HtS & H).
    apply tokenAt_Done in HtS as [-> HtS].
    apply bind_Done_inv in H as (tE & d6 & HtE & H).
    apply tokenAt_Done in HtE as [-> HtE].
    injection H as <- <- <-.
    split; [reflexivity|]. split; [reflexivity|].
    exists tS, tE. split; [exact HtS|]. split; [exact HtE|].
    left. split; [exact Hk|]. exists term. reflexivity.
  - apply bool_decide_eq_false in Hk.
    apply bind_Done_inv in H as (tS & d5 & HtS & H).
    apply tokenAt_Done in HtS as [-> HtS].
    apply bind_Done_inv in H as (tE & d6 & HtE & H).
    apply tokenAt_Done in HtE as [-> HtE].
    injection H as <- <- <-.
    split; [reflexivity|]. split; [reflexivity|].
    exists tS, tE. split; [exact HtS|]. split; [exact HtE|].
    right. split; [exact Hk|reflexivity].
Qed.

Lemma tokAt_toks d d' i : toks d' = toks d -> tokAt d' i = tokAt d i.
Proof. intros H. unfold tokAt. rewrite H. reflexivity. Qed.

Lemma parseListItem_itemOfKind X B rec steps l_Kind i parentStop d c node d' :
  parseListItem X B rec steps l_Kind i parentStop d = Done (c, node) d' ->
  itemOfKind l_Kind node.
Proof.
  unfold parseListItem. intros H.
  apply bind_Done_inv in H
    as ([[[[[bullet minIndent] dterm] status] value] orig] & d1 & _ & H).
  apply bind_Done_inv in H as ([i' nodes] & d2 & _ & H).
  apply parseListItem_leave_node in H as (_ & _ & tS & tE & _ & _ & Hnode).
  destruct Hnode as [[Hk [term ->]]|[Hk ->]]; exact Hk.
Qed.

(** X21. What parseListItem builds. When it returns, the node is an item of
    the kind the list asks for: a [DescriptiveListItem] for a descriptive
    list and a [ListItem] for any other. Its bullet is the second group of
    the match of the token it was called on. Its position is read from the
    token buffer as the item leaves it: it starts where the token now at
    the item's index says, which is the token made by re-tokenizing the
    item's content, or what the parsers of the body made of it since, and
    not the token the caller saw; and it ends where the last token
    consumed says. *)
Theorem parseListItem_builds
    (X : Externals) (B : BlockExternals) (rec : parseFn) (steps : nat)
    (l_Kind : ListKind) (i : Z) (parentStop : stopFn)
    (d d' : Document) (consumed : Z) (node : option Node) :
  parseListItem X B rec steps l_Kind i parentStop d
  = Done (consumed, node) d' ->
  itemOfKind l_Kind node
  /\ exists t bullet tStart tEnd,
       tokAt d i = Some t
       /\ matches t !! 2%nat = Some bullet
       /\ tokAt d' i = Some tStart
       /\ tokAt d' (i + consumed - 1) = Some tEnd
       /\ ((exists status term details,
              node = Some (DescriptiveListItem bullet status term details
                             (spanOf tStart tEnd)))
           \/ (exists status value children,
                 node = Some (ListItem bullet status value children
                                (spanOf tStart tEnd)))).
Proof.
  unfold parseListItem. intros H.
  apply bind_Done_inv in H
    as ([[[[[bullet minIndent] dterm] status] value] orig] & d1 & Henter & H).
  apply bind_Done_inv in H as ([i' nodes] & d2 & Hloop & H).
  apply parseListItem_enter_Done in Henter as (t & Ht & Hb & _).
  apply parseListItem_leave_node in H
    as (-> & Htoks & tS & tE & HtS & HtE & Hnode).
  replace (i + (i' - i) - 1) with (i' - 1) by lia.
  rewrite !(tokAt_toks _ _ _ Htoks).
  split.
  - destruct Hnode as [[Hk [term ->]]|[Hk ->]]; exact Hk.
  - exists t, bullet, tS, tE. repeat split; try assumption.
    destruct Hnode as [[Hk [term ->]]|[Hk ->]]; [left|right]; eauto.
Qed.

Lemma parseListItem_builds_witness :
  let B := sampleBlock sampleLexFns in
  let d := Document_tokenize B (reader ["para"; "- a :: b"])
             (newDocument New []) in
  exists r d',
    parseListItem noExternals B (parseOne 5 noExternals B) 5 DescriptiveList
      1 topStop d = Done r d'
    /\ itemOfKind DescriptiveList r.2
    /\ (line <$> tokAt d 1) = Some 1
    /\ (line <$> tokAt d' 1) = Some 0.
Proof.
  cbv zeta.
  set (B := sampleBlock sampleLexFns).
  set (d := Document_tokenize B (reader ["para"; "- a :: b"])
              (newDocument New [])).
  destruct (parseListItem noExternals B (parseOne 5 noExternals B) 5
              DescriptiveList 1 topStop d) as [[c n] d'| |] eqn:E;
    try (vm_compute in E; discriminate).
  destruct (parseListItem_builds _ _ _ _ _ _ _ _ _ _ _ E) as [Hk _].
  exists (c, n), d'. split; [reflexivity|]. split; [exact Hk|].
  split; [reflexivity|].
  vm_compute in E. injection E as _ _ <-. reflexivity.
Defined.

Lemma parseList_loop_items X B rec steps n parentStop lvl_ mk k :
  forall i items d i' items' d',
    Forall (itemOfKind k) items ->
    parseList_loop X B rec steps n parentStop lvl_ mk k i items d
    = Done (i', items') d' ->
    Forall (itemOfKind k) items'.
Proof.
  induction n as [|n IH]; intros i items d i' items' d' Hall H; simpl in H;
    apply bind_Done_inv in H as (stopped & d1 & _ & H);
    (destruct stopped; [injection H as _ <- _; exact Hall|]).
  - discriminate H.
  - apply bind_Done_inv in H as ([c node] & d2 & Hitem & H).
    apply parseListItem_itemOfKind in Hitem as Hk.
    eapply IH; [|exact H].
    apply Forall_app. split; [exact Hall|]. constructor; [exact Hk|constructor].
Qed.

(** X22. What parseList builds. When it returns, the node is a [List] whose
    kind is the one listKind gives for the token it was called on, and
    every item of it is of that kind: descriptive items in a descriptive
    list, plain items in any other, and never a nil item. The count is the
    distance the cursor moved, and the position spans the token now at the
    start index and the last token consumed, as the token buffer holds them
    when the list is done. *)
Theorem parseList_builds
    (X : Externals) (B : BlockExternals) (rec : parseFn) (steps : nat)
    (i : Z) (parentStop : stopFn)
    (d d' : Document) (consumed : Z) (node : option Node) :
  parseList X B rec steps i parentStop d = Done (consumed, node) d' ->
  exists t mainKind kind_ items tStart tEnd,
    tokAt d i = Some t
    /\ listKind t = Some (mainKind, kind_)
    /\ node = Some (List kind_ items (spanOf tStart tEnd))
    /\ Forall (itemOfKind kind_) items
    /\ tokAt d' i = Some tStart
    /\ tokAt d' (i + consumed - 1) = Some tEnd.
Proof.
  unfold parseList. intros H.
  apply bind_Done_inv in H as (t & d1 & Ht & H).
  apply tokenAt_Done in Ht as [-> Ht].
  apply bind_Done_inv in H as ([mk k] & d2 & Hk & H).
  unfold listKindM in Hk.
  destruct (listKind t) as [[mk' k']|] eqn:Hlk; [|discriminate Hk].
  injection Hk as <- <- <-.
  apply bind_Done_inv in H as ([i' items] & d3 & Hloop & H).
  apply bind_Done_inv in H as (tS & d4 & HtS & H).
  apply tokenAt_Done in HtS as [-> HtS].
  apply bind_Done_inv in H as (tE & d5 & HtE & H).
  apply tokenAt_Done in HtE as [-> HtE].
  injection H as <- <- <-.
  exists t, mk', k', items, tS, tE.
  replace (i + (i' - i) - 1) with (i' - 1) by lia.
  repeat split; try assumption.
  eapply parseList_loop_items; [|exact Hloop]. constructor.
Qed.

Lemma parseList_builds_witness :
  let B := sampleBlock sampleLexFns in
  let d := Document_tokenize B (reader ["1. a"; "2. b"; "- c"])
             (newDocument New []) in
  exists r d' t mainKind kind_ items tStart tEnd,
    parseList noExternals B (parseOne 6 noExternals B) 6 0 topStop d
    = Done r d'
    /\ tokAt d 0 = Some t
    /\ listKind t = Some (mainKind, kind_)
    /\ r.2 = Some (List kind_ items (spanOf tStart tEnd))
    /\ Forall (itemOfKind kind_) items
    /\ r.1 = 2.
Proof.
  cbv zeta.
  set (B := sampleBlock sampleLexFns).
  set (d := Document_tokenize B (reader ["1. a"; "2. b"; "- c"])
              (newDocument New [])).
  destruct (parseList noExternals B (parseOne 6 noExternals B) 6 0 topStop d)
    as [[c n] d'| |] eqn:E; try (vm_compute in E; discriminate).
  destruct (parseList_builds _ _ _ _ _ _ _ _ _ _ E)
    as (t & mk & k & items & tS & tE & Ht & Hk & Hn & Hall & _ & _).
  exists (c, n), d', t, mk, k, items, tS, tE.
  repeat split; try assumption.
  vm_compute in E. injection E as <- _ _. reflexivity.
Defined.

(** ** Footnote definitions *)

(** X23. What parseFootnoteDefinition builds. When it returns, the node is
    a [FootnoteDefinition] that is not inline, named by the content of the
    token it was called on, which is the name the matcher took from
    between "[fn:" and "]". A definition that consumed tokens starts where
    that token said before its text was re-tokenized, and ends where the
    last token consumed says in the buffer as the definition leaves it; one
    that consumed nothing has the zero position. The body ends at the end
    of the buffer or at a token its stop predicate accepts. *)
Theorem parseFootnoteDefinition_builds
    (B : BlockExternals) (rec : parseFn) (steps : nat)
    (i : Z) (parentStop : stopFn)
    (d d' : Document) (consumed : Z) (node : option Node) :
  parseFootnoteDefinition B rec steps i parentStop d
  = Done (consumed, node) d' ->
  exists t children pos,
    tokAt d i = Some t
    /\ is_Some (matches t !! 2%nat)
    /\ node = Some (FootnoteDefinitionNode
                      (mkFootnoteDefinition (content t) children false pos))
    /\ (consumed <= 0 -> pos = Position0)
    /\ (0 < consumed ->
        exists tEnd, tokAt d' (i + consumed - 1) = Some tEnd
                     /\ pos = spanOf t tEnd)
    /\ (ntokens d' <= i + consumed
        \/ footnoteStop B parentStop i d' (i + consumed) = Some true).
Proof.
  unfold parseFootnoteDefinition. intros H.
  apply bind_Done_inv in H as (t & d1 & Ht & H).
  apply tokenAt_Done in Ht as [-> Ht].
  apply bind_Done_inv in H as (t0 & d2 & Ht0 & H).
  apply tokenAt_Done in Ht0 as [-> Ht0].
  assert (t0 = t) as -> by congruence.
  apply bind_Done_inv in H as (line_ & d3 & Hl & H).
  apply index_Done in Hl as [-> Hl].
  apply bind_Done_inv in H as (u & d4 & _ & H).
  apply bind_Done_inv in H as ([c nodes] & d5 & Hmany & H).
  apply bind_Done_inv in H as (pos & d6 & Hpos & H).
  injection H as <- <- <-.
  assert (Hexit : ntokens d5 <= i + c
                  \/ footnoteStop B parentStop i d5 (i + c) = Some true).
  { unfold parseMany in Hmany.
    apply bind_Done_inv in Hmany as ([i' ns] & d7 & Hloop & Hret).
    injection Hret as <- _ <-.
    replace (i + (i' - i)) with i' by lia.
    eapply parseMany_loop_exit. exact Hloop. }
  exists t, nodes, pos.
  destruct (0 <? c) eqn:Hc.
  - apply Z.ltb_lt in Hc.
    apply bind_Done_inv in Hpos as (tE & d7 & HtE & Hpos).
    apply tokenAt_Done in HtE as [-> HtE].
    injection Hpos as <- <-.
    repeat split; eauto; try lia.
  - apply Z.ltb_ge in Hc. injection Hpos as <- <-.
    repeat split; eauto; try lia.
Qed.

Lemma parseFootnoteDefinition_builds_witness :
  let B := sampleBlock [lexFootnoteDefinition; lexText_spec] in
  let d := Document_tokenize B (reader ["x"; "[fn:n1] body"; "more"])
             (newDocument New []) in
  exists r d' children pos,
    parseFootnoteDefinition B (parseOne 5 noExternals B) 5 1 topStop d
    = Done r d'
    /\ r.1 = 2
    /\ r.2 = Some (FootnoteDefinitionNode
                     (mkFootnoteDefinition (str "n1") children false pos))
    /\ StartLine pos = 1.
Proof.
  cbv zeta.
  set (B := sampleBlock [lexFootnoteDefinition; lexText_spec]).
  set (d := Document_tokenize B (reader ["x"; "[fn:n1] body"; "more"])
              (newDocument New [])).
  destruct (parseFootnoteDefinition B (parseOne 5 noExternals B) 5 1 topStop d)
    as [[c n] d'| |] eqn:E; try (vm_compute in E; discriminate).
  destruct (parseFootnoteDefinition_builds _ _ _ _ _ _ _ _ _ E)
    as (t & children & pos & Ht & _ & Hn & _ & Hpos & _).
  assert (Hc : c = 2) by (vm_compute in E; injection E as <- _ _; reflexivity).
  destruct (Hpos ltac:(lia)) as (tE & _ & Hspan).
  exists (c, n), d', children, pos.
  split; [reflexivity|]. split; [exact Hc|].
  vm_compute in Ht. injection Ht as <-.
  split; [exact Hn|]. rewrite Hspan. reflexivity.
Defined.

Lemma nameRun_spec r :
  Forall (fun c => isWordByte c || byte_eqb c "-"%char = true)
         (take (nameRun r) r).
Proof.
  induction r as [|c r IH]; simpl; [constructor|].
  destruct (isWordByte c || byte_eqb c "-"%char) eqn:Hc; simpl;
    constructor; assumption.
Qed.

(** The shape of a token of the matcher of footnote definitions. *)
Lemma lexFootnoteDefinition_shape (line_ : gostring) (t : token) :
  lexFootnoteDefinition line_ = (t, true) ->
  exists name text body left,
    t = mkToken (str "footnoteDefinition") 0 name
          [str "[fn:" ++ name ++ str "]" ++ text; name; text; body] 0 0 0
    /\ line_ = str "[fn:" ++ name ++ str "]" ++ text ++ left
    /\ name <> []
    /\ Forall (fun c => isWordByte c || byte_eqb c "-"%char = true) name.
Proof.
  unfold lexFootnoteDefinition, footnoteDefinitionRegexp. intros H.
  destruct (negb (str_eqb (take 4 line_) (str "[fn:"))) eqn:Hhead;
    [discriminate H|].
  apply negb_false_iff, str_eqb_eq in Hhead.
  cbv zeta in H.
  set (r := drop 4 line_) in *.
  destruct (nameRun r =? 0)%nat eqn:Hn; [discriminate H|].
  apply Nat.eqb_neq in Hn.
  destruct (drop (nameRun r) r) as [|c r'] eqn:Hdrop; [discriminate H|].
  destruct (byte_eqb c "]"%char) eqn:Hc; [|discriminate H].
  apply byte_eqb_eq in Hc. subst c.
  assert (Hline : line_ = str "[fn:" ++ take (nameRun r) r ++ str "]" ++ r').
  { rewrite <- (take_drop 4 line_) at 1. rewrite Hhead. f_equal.
    fold r. rewrite <- (take_drop (nameRun r) r) at 1. rewrite Hdrop.
    reflexivity. }
  assert (Hname : take (nameRun r) r <> []).
  { destruct r as [|c r0]; [simpl in Hn; lia|].
    destruct (nameRun (c :: r0)); [lia|]. discriminate. }
  destruct (dotStart r' (spaceRun r')) as [k|] eqn:Hk.
  - injection H as <-.
    set (body := take (dotRun (drop k r')) (drop k r')).
    exists (take (nameRun r) r), (take k r' ++ body), body,
      (drop (dotRun (drop k r')) (drop k r')).
    split; [unfold sub; simpl; rewrite <- !app_assoc; reflexivity|].
    split; [|split; [exact Hname|apply nameRun_spec]].
    rewrite Hline at 1. do 3 f_equal.
    rewrite <- app_assoc. unfold body. rewrite take_drop, take_drop.
    reflexivity.
  - destruct (length r' =? spaceRun r')%nat; [|discriminate H].
    injection H as <-.
    exists (take (nameRun r) r), r', [], [].
    split; [unfold sub; simpl; rewrite <- !app_assoc; reflexivity|].
    split; [|split; [exact Hname|apply nameRun_spec]].
    rewrite app_nil_r. exact Hline.
Qed.

(** X24. What the matcher of footnote definitions accepts. An accepted line
    starts with "[fn:", a name and "]"; the token is of kind
    "footnoteDefinition" at level 0, its content is the name, which is not
    empty and holds only letters, digits, underscores and hyphens, and its
    match has four groups, so that parseFootnoteDefinition finds the text
    to re-tokenize at index 2. That text is what follows the bracket: the
    line is the header, that text, and what is left of the line. *)
Theorem lexFootnoteDefinition_token (line_ : gostring) (t : token) :
  lexFootnoteDefinition line_ = (t, true) ->
  kind t = str "footnoteDefinition"
  /\ lvl t = 0
  /\ content t <> []
  /\ Forall (fun c => isWordByte c || byte_eqb c "-"%char = true) (content t)
  /\ length (matches t) = 4%nat
  /\ exists text left,
       matches t !! 2%nat = Some text
       /\ line_ = str "[fn:" ++ content t ++ str "]" ++ text ++ left.
Proof.
  intros H.
  destruct (lexFootnoteDefinition_shape line_ t H)
    as (name & text & body & left & -> & Hline & Hname & Hall).
  simpl. split; [reflexivity|]. split; [reflexivity|].
  split; [exact Hname|]. split; [exact Hall|]. split; [reflexivity|].
  exists text, left. split; [reflexivity|exact Hline].
Qed.

Lemma lexFootnoteDefinition_token_witness :
  exists t,
    lexFootnoteDefinition (str "[fn:note-1]   see there") = (t, true)
    /\ kind t = str "footnoteDefinition"
    /\ lvl t = 0
    /\ content t <> []
    /\ Forall (fun c => isWordByte c || byte_eqb c "-"%char = true)
              (content t)
    /\ length (matches t) = 4%nat
    /\ exists text left,
         matches t !! 2%nat = Some text
         /\ str "[fn:note-1]   see there"
            = str "[fn:" ++ content t ++ str "]" ++ text ++ left.
Proof.
  destruct (lexFootnoteDefinition (str "[fn:note-1]   see there"))
    as [t [|]] eqn:E; try (vm_compute in E; discriminate).
  exists t. split; [reflexivity|]. exact (lexFootnoteDefinition_token _ _ E).
Defined.

(** ** Export options *)

(** X25. GetOption never returns the empty string. The value is the one the
    OPTIONS setting of the buffer gives for the key, unless that is empty;
    then the one the default OPTIONS give, unless that is empty too; then
    "nil", and only then a line goes to the logger. So an option written
    with an empty value in the buffer, as in "toc:", does not switch the
    option off: it falls back to the default. *)
Theorem GetOption_never_empty (X : Externals) (d : Document) (key : gostring) :
  let buffer := optionIn X (BufferSettings d) key in
  let default_ := optionIn X (DefaultSettings (Config d)) key in
  (GetOption X d key).1 <> []
  /\ (buffer <> [] -> GetOption X d key = (buffer, None))
  /\ (buffer = [] -> default_ <> [] -> GetOption X d key = (default_, None))
  /\ (is_Some (GetOption X d key).2 <-> buffer = [] /\ default_ = []).
Proof.
  cbv zeta. unfold GetOption.
  destruct (str_eqb (optionIn X (BufferSettings d) key) []) eqn:Hb;
    [apply str_eqb_nil in Hb; rewrite Hb
    |apply str_eqb_nil_false in Hb];
    (destruct (str_eqb (optionIn X (DefaultSettings (Config d)) key) [])
       eqn:Hd;
     [apply str_eqb_nil in Hd|apply str_eqb_nil_false in Hd]);
    try rewrite (proj2 (str_eqb_nil_false _) Hb);
    try rewrite (proj2 (str_eqb_nil_false _) Hd);
    simpl; (split; [|split; [|split; [|split]]]);
    first [ solve [intros; congruence]
          | solve [intros; discriminate]
          | solve [intros; eauto]
          | solve [intros [x Hx]; discriminate Hx]
          | solve [intros [Hx Hy]; congruence] ].
Qed.

(** ** Iterating over children *)

Lemma Range_loop_app {S} (f : option Node -> S -> S * bool) l1 : forall l2 s,
  Range_loop f (l1 ++ l2) s
  = let '(s', go) := Range_loop f l1 s in
    if go then Range_loop f l2 s' else (s', false).
Proof.
  induction l1 as [|c l1 IH]; intros l2 s; simpl.
  - destruct (Range_loop f l2 s) as [s' go]. destruct go; reflexivity.
  - destruct (f c s) as [s' go]. destruct go; [apply IH|reflexivity].
Qed.

Lemma Range_loop_collect (keep : option Node -> bool) l : forall seen,
  (Range_loop (fun c s => (s ++ [c], keep c)) l seen).1
  = seen ++ upToRejected keep l.
Proof.
  induction l as [|c l IH]; intros seen; simpl.
  - rewrite app_nil_r. reflexivity.
  - destruct (keep c); [rewrite IH, <- app_assoc|]; reflexivity.
Qed.

(** X26. Range over a list, a list item or a footnote definition is one
    loop over the children of the node, in order, that ends after the
    first child the callback rejects. For a descriptive item the children
    are the term followed by the details: a callback that rejects a node of
    the term is not shown the details either. The callback is shown each
    child up to and including the first it rejects, and no other. *)
Theorem Range_is_one_loop {S}
    (n : Node) (children : list (option Node))
    (f : option Node -> S -> S * bool) (s : S) (keep : option Node -> bool) :
  rangeChildren n = Some children ->
  Range n f s = Some (Range_loop f children s).1
  /\ Range n (fun c seen => (seen ++ [c], keep c)) []
     = Some (upToRejected keep children).
Proof.
  intros Hc.
  assert (Hone : forall S' (g : option Node -> S' -> S' * bool) s',
            Range n g s' = Some (Range_loop g children s').1).
  { intros S' g s'. destruct n; try discriminate Hc; simpl in *.
    - destruct def. injection Hc as <-. reflexivity.
    - injection Hc as <-. reflexivity.
    - injection Hc as <-. reflexivity.
    - injection Hc as <-. rewrite Range_loop_app.
      destruct (Range_loop g (Some <$> Term) s') as [s1 go].
      destruct go; reflexivity. }
  split; [apply Hone|]. rewrite Hone, Range_loop_collect. reflexivity.
Qed.

Lemma Range_is_one_loop_witness :
  let a := Text (str "a") false Position0 in
  let b := Text (str "b") false Position0 in
  let c := Text (str "c") false Position0 in
  let item := DescriptiveListItem (str "-") [] [a; b] [Some c] Position0 in
  let isNot_b (x : option Node) :=
    match x with Some (Text t _ _) => negb (str_eqb t (str "b")) | _ => true end in
  Range item (fun x (n : nat) => (S n, true)) O
  = Some (Range_loop (fun x (n : nat) => (S n, true))
            [Some a; Some b; Some c] O).1
  /\ Range item (fun x seen => (seen ++ [x], isNot_b x)) []
     = Some (upToRejected isNot_b [Some a; Some b; Some c]).
Proof.
  cbv zeta. apply Range_is_one_loop. reflexivity.
Defined.

(** ** LaTeX fragments keep the text *)

Lemma hasPrefix_take : forall p s,
  hasPrefix s p = true -> take (length p) s = p /\ (length p <= length s)%nat.
Proof.
  induction p as [|x p IH]; intros s H; [split; [reflexivity|simpl; lia]|].
  destruct s as [|y s]; [discriminate H|]. simpl in H.
  apply andb_true_iff in H as [Hxy H]. apply byte_eqb_eq in Hxy. subst y.
  destruct (IH s H) as [Ht Hl]. simpl. rewrite Ht. split; [reflexivity|lia].
Qed.

Lemma IndexFrom_found p : forall s off,
  IndexFrom s p off <> -1 ->
  exists k, IndexFrom s p off = Z.of_nat (off + k)
            /\ (k <= length s)%nat
            /\ hasPrefix (drop k s) p = true.
Proof.
  induction s as [|c s IH]; intros off H; cbn [IndexFrom] in *.
  - destruct (hasPrefix [] p) eqn:Hp; [|exfalso; apply H; reflexivity].
    exists O. rewrite Nat.add_0_r. auto.
  - destruct (hasPrefix (c :: s) p) eqn:Hp.
    + exists O. rewrite Nat.add_0_r. split; [reflexivity|].
      split; [simpl; lia|]. exact Hp.
    + destruct (IH (S off) H) as (k & Hk & Hle & Hpre).
      exists (S k). split; [rewrite Hk; f_equal; lia|].
      split; [simpl; lia|]. exact Hpre.
Qed.

Lemma Index_found s p :
  (Index s p =? -1) = false ->
  exists k, Index s p = Z.of_nat k
            /\ (k + length p <= length s)%nat
            /\ slice s k (k + length p) = p.
Proof.
  intros H. apply Z.eqb_neq in H.
  destruct (IndexFrom_found p s O H) as (k & Hk & Hle & Hpre).
  apply hasPrefix_take in Hpre as [Ht Hl]. rewrite length_drop in Hl.
  exists k. split; [exact Hk|]. split; [lia|].
  unfold slice. replace (k + length p - k)%nat with (length p) by lia.
  exact Ht.
Qed.

Lemma latexFragmentPairs_length o :
  latexFragmentPairs o <> [] ->
  length (latexFragmentPairs o) = length o /\ (1 <= length o <= 2)%nat.
Proof.
  unfold latexFragmentPairs.
  destruct (str_eqb o (str "\(")) eqn:H1;
    [apply str_eqb_eq in H1; subst o; intros _; vm_compute; lia|].
  destruct (str_eqb o (str "\[")) eqn:H2;
    [apply str_eqb_eq in H2; subst o; intros _; vm_compute; lia|].
  destruct (str_eqb o (str "$$")) eqn:H3;
    [apply str_eqb_eq in H3; subst o; intros _; vm_compute; lia|].
  destruct (str_eqb o (str "$")) eqn:H4;
    [apply str_eqb_eq in H4; subst o; intros _; vm_compute; lia|].
  congruence.
Qed.

(** X29. A LaTeX fragment keeps the text. When parseLatexFragmentWithPos
    returns a node whose closing pair is known, that is, whose opening pair
    is one of the four delimiters, the node is a [LatexFragment] whose
    closing pair is the one that belongs to the opening pair, the stretch
    of the input it consumed is the opening pair, the content and the
    closing pair, and the content nodes, raw texts and line breaks, written
    out in order give the content back byte for byte. *)
Theorem parseLatexFragment_keeps_text
    (input : gostring) (start pairLength : nat) (sl sc : Z)
    (consumed : nat) (opening closing : gostring) (content : list Node)
    (pos : Position) :
  parseLatexFragmentWithPos input start pairLength sl sc
  = ROk (consumed, Some (LatexFragment opening closing content pos)) ->
  closing <> [] ->
  closing = latexFragmentPairs opening
  /\ slice input start (start + consumed)
     = opening ++ concat (map rawText content) ++ closing
  /\ (start + consumed <= length input)%nat
  /\ Forall isRawNode content
  /\ pos = positionFromChars input sl sc start (start + consumed).
Proof.
  unfold parseLatexFragmentWithPos. intros H Hne.
  destruct (length input <=? start + 2)%nat eqn:Hlen; [discriminate H|].
  apply Nat.leb_gt in Hlen. cbv zeta in H.
  set (pl := if (pairLength =? 1)%nat
                && str_eqb (slice input start (start + 2)) (str "$$")
             then 2%nat else pairLength) in *.
  set (o := slice input start (start + pl)) in *.
  destruct (Index (drop (start + pl) input) (latexFragmentPairs o) =? -1)
    eqn:Hi; [discriminate H|].
  destruct (Index_found _ _ Hi) as (k & Hk & Hle & Hclose).
  rewrite Hk, Nat2Z.id in H. rewrite length_drop in Hle.
  set (text := slice input (start + pl) (start + pl + k)) in *.
  destruct (parseRawInline_loop_total text 0 0 (length text) 0 0 [])
    as [ns Hns]; [lia|].
  assert (Hraw : parseRawInline text = ROk ns) by exact Hns.
  rewrite Hraw in H. cbn [mbind Result_bind] in H.
  injection H as <- <- <- <- <-.
  destruct (latexFragmentPairs_length o Hne) as [Hcl Hol].
  assert (Hpl : length o = pl).
  { unfold o, slice in *. rewrite length_take, length_drop in *. lia. }
  destruct (parseRawInline_loop_keeps text 0 0 (length text) 0 0 [] ns
              ltac:(lia) ltac:(lia) ltac:(reflexivity) ltac:(reflexivity)
              ltac:(constructor) Hns) as [Hcat Hall].
  split; [reflexivity|]. split; [|split; [lia|split; [exact Hall|reflexivity]]].
  rewrite Hcat.
  rewrite (slice_app input start (start + pl) (start + (k + pl + pl)))
    by lia.
  fold o. f_equal.
  rewrite (slice_app input (start + pl) (start + pl + k)
             (start + (k + pl + pl))) by lia.
  fold text. f_equal.
  unfold slice in Hclose |- *. rewrite drop_drop in Hclose.
  replace (start + (k + pl + pl) - (start + pl + k))%nat
    with (k + length (latexFragmentPairs o) - k)%nat by lia.
  exact Hclose.
Qed.

Lemma parseLatexFragment_keeps_text_witness :
  exists consumed opening closing content pos,
    parseLatexFragmentWithPos
      (str ("a $x" ++ String nl "+y$ b")) 2 1 0 0
    = ROk (consumed, Some (LatexFragment opening closing content pos))
    /\ closing = latexFragmentPairs opening
    /\ slice (str ("a $x" ++ String nl "+y$ b")) 2 (2 + consumed)
       = opening ++ concat (map rawText content) ++ closing
    /\ (2 + consumed <= length (str ("a $x" ++ String nl "+y$ b")))%nat
    /\ Forall isRawNode content
    /\ pos = positionFromChars (str ("a $x" ++ String nl "+y$ b")) 0 0
               2 (2 + consumed).
Proof.
  destruct (parseLatexFragmentWithPos (str ("a $x" ++ String nl "+y$ b"))
              2 1 0 0) as [[c [[]|]]| |] eqn:E;
    try (vm_compute in E; discriminate).
  eexists _, _, _, _, _. split; [reflexivity|].
  apply (parseLatexFragment_keeps_text _ _ _ _ _ _ _ _ _ _ E).
  vm_compute in E. injection E as _ _ <- _. discriminate.
Defined.

(** ** Anatomy of a regular link *)



(** ** The block parser returns and takes every token *)

Lemma tokenize_line_Config B l n d :
  Config (tokenize_line B l n d) = Config d.
Proof.
  unfold tokenize_line. destruct (tokenize B l) as [tok ok].
  destruct ok; reflexivity.
Qed.

Lemma tokenize_lines_Config B : forall lines n d,
  Config (tokenize_lines B lines n d).2 = Config d.
Proof.
  induction lines as [|l lines IH]; intros n d; simpl; [reflexivity|].
  rewrite IH. apply tokenize_line_Config.
Qed.

Lemma Document_tokenize_Config B input d :
  Config (Document_tokenize B input d) = Config d.
Proof.
  unfold Document_tokenize.
  pose proof (tokenize_lines_Config B (rLines input) 0
                (set_tokens d (Some []))) as H.
  destruct (tokenize_lines B (rLines input) 0 (set_tokens d (Some [])))
    as [n d1]. simpl in H.
  destruct (rErr input); exact H.
Qed.

Lemma Document_tokenize_Inv X B cfg TokOK mu input d :
  BlockAssumptions X B cfg TokOK mu -> Config d = cfg ->
  Inv TokOK cfg (length (lineTokens B 0 (rLines input)))
    (Document_tokenize B input d).
Proof.
  intros HA Hcfg.
  destruct (Document_tokenize_toks B input d) as [Ht0 _].
  split; [rewrite Ht0; reflexivity|]. split.
  - rewrite Document_tokenize_Config. exact Hcfg.
  - rewrite Ht0.
    eapply Forall_impl; [apply (lineTokens_lines B (rLines input) 0)|].
    simpl. intros t (_ & l & tok & _ & Htok & ->).
    eapply ba_lex; eassumption.
Qed.

(** X27. Under [BlockAssumptions], the assumptions on the parts outside
    the files at hand that are listed with that record (the plain-text
    pattern of the spec, a blank-line test that returns inside the
    buffer, a [ResolveLink] callback that returns, inline source block
    matches longer than three bytes, well-formed tokens, cheaper tokens
    from re-tokenized lines, absent parsers that are well behaved on
    tokens of their own kinds), the block parser returns on every token
    buffer and takes every token: for a buffer of tokens the matchers can
    produce, and fuel beyond the cost of the buffer, parseMany from index
    0 with the stop predicate of Parse returns, without panic, a count
    equal to the length of the buffer, and the buffer still has that
    length and holds tokens the matchers can produce. *)
Theorem parseMany_takes_every_token
    (X : Externals) (B : BlockExternals) (cfg : Configuration)
    (TokOK : token -> Prop) (mu : token -> nat)
    (m : nat) (d : Document) (fuel : nat) :
  BlockAssumptions X B cfg TokOK mu ->
  Inv TokOK cfg m d ->
  (potAt mu d 0 < fuel)%nat ->
  exists nodes d',
    parseManyTop fuel X B 0 topStop d = Done (Z.of_nat m, nodes) d'
    /\ Inv TokOK cfg m d'.
Proof.
  intros HA HI Hpot. destruct HA.
  eapply parseManyTop_returns; eassumption.
Qed.

(** X28. Under [BlockAssumptions], all of it, Parse returns a session
    whose nodes are set, and the guard of Parse has nothing to recover:
    no panic is raised while the input is tokenized and parsed. Fuel
    beyond the cost of the tokens of the input is enough. The token
    buffer is as long as the number of lines the matchers accepted. *)
Theorem Parse_returns_nodes
    (X : Externals) (B : BlockExternals) (cfg : Configuration)
    (TokOK : token -> Prop) (mu : token -> nat)
    (input : Reader) (path : gostring) (fuel : nat) :
  BlockAssumptions X B cfg TokOK mu ->
  (potAt mu (Document_tokenize B input (newDocument cfg path)) 0 < fuel)%nat ->
  exists d nodes,
    Parse_body fuel X B input (newDocument cfg path) = Done true d
    /\ Parse fuel X B cfg input path = Some (Some d)
    /\ Nodes d = Some nodes
    /\ length (toks d) = length (lineTokens B 0 (rLines input)).
Proof.
  intros HA Hpot.
  set (d0 := Document_tokenize B input (newDocument cfg path)) in *.
  assert (HI : Inv TokOK cfg (length (lineTokens B 0 (rLines input))) d0)
    by (eapply Document_tokenize_Inv; [exact HA|reflexivity]).
  assert (Hmany : exists nodes d',
            parseManyTop fuel X B 0 topStop d0
            = Done (Z.of_nat (length (lineTokens B 0 (rLines input))), nodes) d'
            /\ Inv TokOK cfg (length (lineTokens B 0 (rLines input))) d').
  { destruct HA. eapply parseManyTop_returns; eassumption. }
  destruct Hmany as (nodes & d' & Hmany & HI').
  assert (Hbody : Parse_body fuel X B input (newDocument cfg path)
                  = Done true (set_Nodes d' (Some nodes))).
  { unfold Parse_body. rewrite get_bind, newDocument_tokens.
    rewrite modify_bind. fold d0.
    erewrite bind_Done_l; [|exact Hmany]. reflexivity. }
  exists (set_Nodes d' (Some nodes)), nodes.
  split; [exact Hbody|]. split; [unfold Parse; rewrite Hbody; reflexivity|].
  split; [reflexivity|].
  destruct HI' as (Hlen & _). exact Hlen.
Qed.

(** ** The assumptions hold of the matchers at hand *)

Lemma lexList_unstamp l tok : lexList l = (tok, true) -> unstamp tok = tok.
Proof.
  unfold lexList. destruct (unorderedListRegexp l); [intros [= <-]; reflexivity|].
  destruct (orderedListRegexp l); [intros [= <-]; reflexivity|discriminate].
Qed.

Lemma lexFootnoteDefinition_unstamp l tok :
  lexFootnoteDefinition l = (tok, true) -> unstamp tok = tok.
Proof.
  unfold lexFootnoteDefinition.
  destruct (footnoteDefinitionRegexp l); [intros [= <-]; reflexivity|discriminate].
Qed.

Lemma tokenize_sample l :
  (exists tok, lexList l = (tok, true)
               /\ tokenize (totalBlock sampleTable) l = (tok, true))
  \/ (exists tok, lexFootnoteDefinition l = (tok, true)
                  /\ tokenize (totalBlock sampleTable) l = (tok, true))
  \/ tokenize (totalBlock sampleTable) l = (textTokenOf l, true).
Proof.
  unfold tokenize.
  cbn [lexFns totalBlock sampleTable declaredLexFns noLexers tokenize_loop
       lexHeadline lexDrawer lexBlock lexResult lexTable lexHorizontalRule
       lexKeywordOrComment lexExample lexLatexBlock].
  destruct (lexList l) as [tok [|]] eqn:E1; [left; eauto|].
  destruct (lexFootnoteDefinition l) as [tok2 [|]] eqn:E2;
    [right; left; eauto|].
  right. right. reflexivity.
Qed.

Lemma isListToken_kinds t :
  isListToken t = true ->
  str_eqb (kind t) (str "headline") = false
  /\ str_eqb (kind t) (str "footnoteDefinition") = false
  /\ str_eqb (kind t) (str "text") = false.
Proof.
  unfold isListToken. intros H.
  apply orb_true_iff in H as [H|H]; apply str_eqb_eq in H; rewrite H;
    repeat split; reflexivity.
Qed.

Lemma sampleTokOK_list t :
  sampleTokOK t -> isListToken t = true ->
  exists l, lexList l = (unstamp t, true).
Proof.
  intros [l [H|[H|H]]] Hl; [eauto| |].
  - apply lexFootnoteDefinition_shape in H
      as (name & text & body & left & Ht & _).
    apply (f_equal kind) in Ht. simpl in Ht.
    unfold isListToken in Hl. rewrite Ht in Hl. discriminate Hl.
  - apply (f_equal kind) in H. simpl in H.
    unfold isListToken in Hl. rewrite H in Hl. discriminate Hl.
Qed.

Lemma sampleTokOK_foot t :
  sampleTokOK t -> str_eqb (kind t) (str "footnoteDefinition") = true ->
  exists l, lexFootnoteDefinition l = (unstamp t, true).
Proof.
  intros [l [H|[H|H]]] Hk; [|eauto|].
  - apply lexList_shape in H as (Hl & _).
    change (isListToken (unstamp t)) with (isListToken t) in Hl.
    apply isListToken_kinds in Hl as (_ & Hf & _). congruence.
  - apply (f_equal kind) in H. simpl in H.
    apply str_eqb_eq in Hk. rewrite Hk in H. discriminate H.
Qed.

Lemma textTokenOf_fields l :
  kind (textTokenOf l) = str "text"
  /\ lvl (textTokenOf l) = Z.of_nat (spaceRun l)
  /\ (length (sub (matches (textTokenOf l)) 0) <= length l)%nat
  /\ (length (content (textTokenOf l)) + spaceRun l
      = length (sub (matches (textTokenOf l)) 0))%nat.
Proof.
  pose proof (spaceRun_le l) as Hw.
  pose proof (dotRun_le (drop (spaceRun l) l)) as Hd.
  rewrite length_drop in Hd.
  unfold textTokenOf, plainTextRegexp_spec, sub. simpl.
  rewrite !length_app, !length_take, length_drop.
  repeat split; try lia; f_equal; lia.
Qed.

(** What the table makes of a line. *)
Lemma tokenize_sample_ok l :
  let t' := (tokenize (totalBlock sampleTable) l).1 in
  sampleTokOK t'
  /\ (length (sub (matches t') 0) <= length l)%nat
  /\ ((lvl t' = Z.of_nat (spaceRun l)
       /\ str_eqb (kind t') (str "headline") = false
       /\ str_eqb (kind t') (str "footnoteDefinition") = false)
      \/ exists tok, lexFootnoteDefinition l = (tok, true)).
Proof.
  cbv zeta.
  destruct (tokenize_sample l) as [(tok & H & ->)|[(tok & H & ->)| ->]];
    cbn [fst].
  - pose proof (lexList_unstamp _ _ H) as Hu.
    destruct (lexList_shape _ _ H)
      as (Hl & Hlvl & bullet & m0 & mk & k & Hm0 & _ & _ & Hlen & _).
    split; [exists l; left; rewrite Hu; exact H|].
    split; [unfold sub; rewrite (nth_lookup_Some _ _ _ _ Hm0); exact Hlen|].
    left. destruct (isListToken_kinds _ Hl) as (Hh & Hf & _). auto.
  - pose proof (lexFootnoteDefinition_unstamp _ _ H) as Hu.
    split; [exists l; right; left; rewrite Hu; exact H|].
    split; [|right; eauto].
    destruct (lexFootnoteDefinition_shape _ _ H)
      as (name & text & body & left & -> & Hline & _).
    unfold sub. cbn [matches nth]. rewrite Hline.
    rewrite !length_app. lia.
  - destruct (textTokenOf_fields l) as (Hk & Hlvl & Hlen & _).
    split; [exists l; right; right; reflexivity|].
    split; [exact Hlen|]. left. rewrite Hk. auto.
Qed.

Lemma spaceRun_spaces n r : (n <= spaceRun (spaces n ++ r))%nat.
Proof. induction n as [|n IH]; simpl; [lia|]. unfold spaces in IH. lia. Qed.

Lemma length_spaces n : length (spaces n) = n.
Proof. apply length_replicate. Qed.

Lemma lexFootnoteDefinition_indented n r :
  lexFootnoteDefinition (spaces (S n) ++ r) = (nilToken, false).
Proof. reflexivity. Qed.

Lemma itemBody_length k c : (length (itemBody k c) <= length c)%nat.
Proof.
  assert (Hic : (length (itemContent k c) <= length c)%nat).
  { unfold itemContent.
    destruct (listItemValueRegexp c) as [mv|];
      [destruct (bool_decide (k = OrderedList))|];
      match goal with
      | |- context [listItemStatusRegexp ?x] =>
        destruct (listItemStatusRegexp x)
      end; rewrite ?length_drop; lia. }
  unfold itemBody. destruct (bool_decide (k = DescriptiveList)); [|exact Hic].
  destruct (descriptiveListItemRegexp (itemContent k c)) as [[m0 m1]|];
    [|exact Hic].
  rewrite length_drop. lia.
Qed.

Lemma takeOneOf_WellBehaved TokOK cfg kinds tag :
  WellBehaved TokOK cfg kinds (takeOneOf kinds tag).
Proof.
  intros m i stop d t _ HI Ht Hk.
  pose proof (Inv_tokAt_lt _ _ _ _ _ _ HI Ht) as Hi.
  unfold takeOneOf. rewrite (tokenAt_bind _ _ _ _ Ht).
  assert (existsb (str_eqb (kind t)) kinds = true) as ->.
  { apply existsb_exists. exists (kind t).
    split; [apply list_elem_of_In; exact Hk|apply str_eqb_eq; reflexivity]. }
  eexists 1, _, d. split; [reflexivity|].
  split; [lia|]. split; [lia|]. split; [exact HI|apply sameFrom_refl].
Qed.

Lemma sample_assumptions :
  BlockAssumptions noExternals (totalBlock sampleTable) New sampleTokOK
    sampleMu.
Proof.
  constructor.
  - reflexivity.
  - (* the blank-line test *)
    intros m d i HI Hi.
    cbn [isSecondBlankLine totalBlock]. unfold isSecondBlankLine_spec.
    destruct (i - 1 <=? 0) eqn:E; [eexists; reflexivity|].
    apply Z.leb_gt in E.
    destruct (Inv_tokAt _ _ m d (i - 1) HI ltac:(lia)) as (t1 & -> & _).
    destruct (Inv_tokAt _ _ m d i HI Hi) as (t2 & -> & _).
    eexists. reflexivity.
  - intros p ds l. eexists. reflexivity.
  - intros s m H. discriminate H.
  - (* the whole match *)
    intros t [l [H|[H|H]]].
    + apply lexList_shape in H as (_ & _ & b & m0 & mk & k & Hm0 & _).
      exact (mk_is_Some _ _ Hm0).
    + apply lexFootnoteDefinition_shape in H as (n & tx & bd & lf & Ht & _).
      apply (f_equal matches) in Ht. simpl in Ht. rewrite Ht. eexists.
      reflexivity.
    + apply (f_equal matches) in H. simpl in H. rewrite H. eexists.
      reflexivity.
  - (* list tokens *)
    intros t Hok Hl. destruct (sampleTokOK_list t Hok Hl) as [l H].
    apply lexList_shape in H
      as (_ & Hlvl & b & m0 & mk & k & _ & _ & _ & _ & _ & _ & Hk & _).
    split; [exact (mk_is_Some _ _ Hk)|].
    change (lvl (unstamp t)) with (lvl t) in Hlvl. lia.
  - (* footnote tokens *)
    intros t Hok Hk. destruct (sampleTokOK_foot t Hok Hk) as [l H].
    apply lexFootnoteDefinition_shape in H as (n & tx & bd & lf & Ht & _).
    apply (f_equal matches) in Ht. simpl in Ht. rewrite Ht. eexists.
    reflexivity.
  - (* the content is part of the match *)
    intros t [l [H|[H|H]]]; unfold sampleMu.
    + apply lexList_shape in H
        as (_ & Hlvl & b & m0 & mk & k & Hm0 & _ & _ & _ & Hge & Hc & _).
      change (lvl (unstamp t)) with (lvl t) in Hlvl.
      change (content (unstamp t)) with (content t) in Hc.
      change (matches (unstamp t)) with (matches t) in Hm0.
      unfold sub. rewrite (nth_lookup_Some _ _ _ _ Hm0), Hlvl, Nat2Z.id.
      destruct Hc as [->|Hc]; simpl; lia.
    + apply lexFootnoteDefinition_shape in H as (n & tx & bd & lf & Ht & _).
      pose proof (f_equal matches Ht) as Hm.
      pose proof (f_equal lvl Ht) as Hl.
      pose proof (f_equal content Ht) as Hc.
      simpl in Hm, Hl, Hc. rewrite Hm, Hl, Hc. unfold sub. simpl.
      rewrite !length_app. lia.
    + pose proof (f_equal matches H) as Hm.
      pose proof (f_equal lvl H) as Hl.
      pose proof (f_equal content H) as Hc.
      change (matches (unstamp t)) with (matches t) in Hm.
      change (lvl (unstamp t)) with (lvl t) in Hl.
      change (content (unstamp t)) with (content t) in Hc.
      rewrite Hm, Hl, Hc.
      destruct (textTokenOf_fields l) as (_ & Hlvl & _ & Hlen).
      rewrite Hlvl, Nat2Z.id. lia.
  - (* the recovery of parseOne *)
    intros l. exists l. right. right. reflexivity.
  - (* re-tokenizing a list item *)
    intros t k Hok Hl. cbv zeta.
    destruct (sampleTokOK_list t Hok Hl) as [l H].
    apply lexList_shape in H
      as (_ & Hlvl & b & m0 & mk & k0 & Hm0 & Hb & Hbne & _ & Hge & Hc & _).
    change (lvl (unstamp t)) with (lvl t) in Hlvl.
    change (content (unstamp t)) with (content t) in Hc.
    change (matches (unstamp t)) with (matches t) in Hm0, Hb.
    assert (Hsub2 : sub (matches t) 2 = b)
      by (unfold sub; apply nth_lookup_Some; exact Hb).
    assert (Hsub0 : sub (matches t) 0 = m0)
      by (unfold sub; apply nth_lookup_Some; exact Hm0).
    assert (Hlb : (1 <= length b)%nat)
      by (destruct b; [congruence|simpl; lia]).
    assert (Hline : itemLine k t
                    = spaces (spaceRun l + length b)
                      ++ itemBody k (content t)).
    { unfold itemLine. rewrite Hsub2, Hlvl. f_equal. f_equal. lia. }
    rewrite Hsub2, Hline.
    set (body := itemBody k (content t)).
    pose proof (itemBody_length k (content t)) as Hbody. fold body in Hbody.
    destruct (tokenize_sample_ok (spaces (spaceRun l + length b) ++ body))
      as (Hok' & Hlen' & Hcase).
    pose proof (spaceRun_spaces (spaceRun l + length b) body) as Hsp.
    rewrite length_app, length_spaces in Hlen'.
    destruct Hcase as [(Hlvl' & Hh & Hf)|[tok Hfoot]].
    2:{ replace (spaceRun l + length b)%nat
          with (S (spaceRun l + length b - 1)) in Hfoot by lia.
        rewrite lexFootnoteDefinition_indented in Hfoot. discriminate Hfoot. }
    split; [exact Hok'|]. split.
    { unfold sampleMu. rewrite Hlvl', Hsub0, Hlvl, !Nat2Z.id.
      destruct Hc as [Hc|Hc]; [rewrite Hc in Hbody; simpl in Hbody|]; lia. }
    split; [left; rewrite Hlvl', Hlvl; lia|]. split; assumption.
  - (* re-tokenizing a footnote definition *)
    intros t l Hok Hk Hl. cbv zeta.
    destruct (sampleTokOK_foot t Hok Hk) as [l0 H].
    apply lexFootnoteDefinition_shape in H as (n & tx & bd & lf & Ht & _).
    pose proof (f_equal matches Ht) as Hm.
    pose proof (f_equal lvl Ht) as Hlv.
    simpl in Hm, Hlv. rewrite Hm in Hl. injection Hl as <-.
    destruct (tokenize_sample_ok tx) as (Hok' & Hlen' & _).
    split; [exact Hok'|].
    unfold sampleMu. rewrite Hm, Hlv. unfold sub at 2. simpl.
    rewrite !length_app. simpl. lia.
  - (* the stand-ins for the absent parsers *)
    unfold absentParsers, totalBlock. cbn [parseTable parseBlock
      parseLatexBlock parseResult parseDrawer parseExample
      parseHorizontalRule parseComment parseKeyword parseHeadline].
    repeat (apply Forall_cons; split; [apply takeOneOf_WellBehaved|]).
    apply Forall_nil. exact I.
  - (* the paragraph parser *)
    intros m i stop d t Hg HI Ht _.
    cbn [parseParagraph totalBlock].
    eapply (parseParagraph_spec_ok noExternals New sampleTokOK);
      [intros p ds l; eexists; reflexivity
      |intros s m0 H; discriminate H
      |exact Hg|exact HI|exact Ht].
  - (* the tokens of the table *)
    intros l tok n H.
    destruct (tokenize_sample l) as [(tok' & H1 & H2)|[(tok' & H1 & H2)|H2]];
      rewrite H2 in H; injection H as <-; exists l.
    + left. change (unstamp (stamped tok' n l)) with (unstamp tok').
      rewrite (lexList_unstamp _ _ H1). exact H1.
    + right. left. change (unstamp (stamped tok' n l)) with (unstamp tok').
      rewrite (lexFootnoteDefinition_unstamp _ _ H1). exact H1.
    + right. right. reflexivity.
Qed.

Lemma parseMany_takes_every_token_witness :
  let B := totalBlock sampleTable in
  let d := Document_tokenize B
             (reader ["- a"; "  - [X] b :: c"; ""; "[fn:n] note"; "1. x";
                      "text *bold*"])
             (newDocument New []) in
  exists nodes d',
    parseManyTop 100 noExternals B 0 topStop d = Done (Z.of_nat 6, nodes) d'
    /\ Inv sampleTokOK New 6 d'.
Proof.
  cbv zeta.
  apply (parseMany_takes_every_token noExternals (totalBlock sampleTable) New
           sampleTokOK sampleMu 6 _ 100 sample_assumptions).
  - assert (Hlen : length (lineTokens (totalBlock sampleTable) 0
                             (rLines (reader ["- a"; "  - [X] b :: c"; "";
                                              "[fn:n] note"; "1. x";
                                              "text *bold*"]))) = 6%nat)
      by (vm_compute; reflexivity).
    rewrite <- Hlen.
    eapply Document_tokenize_Inv; [exact sample_assumptions|reflexivity].
  - vm_compute. lia.
Defined.

Lemma Parse_returns_nodes_witness :
  exists d nodes,
    Parse_body 100 noExternals (totalBlock sampleTable)
      (reader ["* not a headline here"; "- [ ] item"; "  more"; "";
               "[fn:1] see"; "a_b and https://x.y/z"])
      (newDocument New []) = Done true d
    /\ Parse 100 noExternals (totalBlock sampleTable) New
         (reader ["* not a headline here"; "- [ ] item"; "  more"; "";
                  "[fn:1] see"; "a_b and https://x.y/z"]) []
       = Some (Some d)
    /\ Nodes d = Some nodes
    /\ length (toks d)
       = length (lineTokens (totalBlock sampleTable) 0
                   (rLines (reader ["* not a headline here"; "- [ ] item";
                                    "  more"; ""; "[fn:1] see";
                                    "a_b and https://x.y/z"]))).
Proof.
  apply (Parse_returns_nodes noExternals (totalBlock sampleTable) New
           sampleTokOK sampleMu _ [] 100 sample_assumptions).
  vm_compute. lia.
Defined.
